(** * Per-chat Thompson-sampling bandit: the service and its feedback endpoint

    A shallow embedding of [services/banditService.js] (the arm registry,
    [getOrCreateBanditState], [chooseArm], [updateArm], [getBanditStats]) and
    of [submitFeedback] in [controllers/chatController.js], together with the
    properties of the selector that follow from the code.

    Conventions of the embedding.
    - The counters [alpha], [beta] and [pulls] are JavaScript Numbers that only
      ever hold integers (they start at 1, 1, 0 and are incremented by 1);
      they are modelled in [Z], which is exact below 2^53.
    - A MongoDB collection with a unique key is a [gmap] from the key to the
      document; ObjectIds are their string form.
    - Every [async] function is a function of the store it reads and writes.
      A thrown exception is the [Throw] outcome.
    - Logging is not modelled. *)

From Stdlib Require Import ZArith QArith String List Floats.
From stdpp Require Import base option numbers strings pretty list sorting gmap fin_maps.

Local Open Scope Z_scope.

(** ** Data model *)

(** One entry of the [ARMS] registry. *)
Module Arm.
Record t := mk {
  armId : string;
  stage : string;
  modelName : string;
  notes : string;
  temperature : Q
}.
End Arm.

(** [ArmStatsSchema]: the per-arm sub-document of a bandit state. *)
Module ArmStats.
Record t := mk {
  armId : string;
  alpha : Z;
  beta : Z;
  pulls : Z
}.
End ArmStats.

(** The object literal [{ alpha, beta, pulls }] that [updateArm] returns and
    that [getBanditStats] stores under each arm id. *)
Module Stats.
Record t := mk {
  alpha : Z;
  beta : Z;
  pulls : Z
}.
End Stats.

(** The object that [chooseArm] returns. *)
Module Selection.
Record t := mk {
  armId : string;
  modelName : string;
  temperature : Q;
  notes : string
}.
End Selection.

(** A [BanditChatState] document: the chat it belongs to and its [arms]. *)
Record BanditChatState := {
  chat : string;
  arms : list ArmStats.t
}.

(** The [BanditChatState] collection.  The schema declares [chat] unique, so
    the collection is a map from the chat id to the [arms] array of its only
    document.  [writes] is the journal of the documents written by
    [state.save()], oldest first. *)
Record Store := {
  docs : gmap string (list ArmStats.t);
  writes : list string
}.

Definition empty_store : Store := {| docs := ∅; writes := [] |}.

(** ** Exceptions and the service monad *)

(** A JavaScript exception: [err.code] (set by the MongoDB driver) and
    [err.message]. *)
Record Exn := {
  code : option Z;
  message : string
}.

Inductive Outcome (A : Type) : Type :=
  | Ok (a : A)
  | Throw (e : Exn).
Arguments Ok {A} a.
Arguments Throw {A} e.

(** An [async] function of the service: it runs against the store and either
    returns or throws. *)
Definition Svc (A : Type) : Type := Store → Store * Outcome A.

Definition ret {A} (a : A) : Svc A := λ st, (st, Ok a).

Definition throw {A} (e : Exn) : Svc A := λ st, (st, Throw e).

Definition bind {A B} (m : Svc A) (k : A → Svc B) : Svc B :=
  λ st, match m st with
        | (st', Ok a) => k a st'
        | (st', Throw e) => (st', Throw e)
        end.

(** [try { m } catch (err) { h err }] *)
Definition try_catch {A} (m : Svc A) (h : Exn → Svc A) : Svc A :=
  λ st, match m st with
        | (st', Ok a) => (st', Ok a)
        | (st', Throw e) => h e st'
        end.

Notation "'await' x ← m ; k" := (bind m (λ x, k))
  (at level 10, x name, m at level 100, k at level 200,
   format "'[v' 'await'  x  ←  m ; '/' k ']'").

(** ** The collection's operations *)

(** [BanditChatState.findOne({ chat: chatId })] *)
Definition findOne (chatId : string) : Svc (option BanditChatState) :=
  λ st, (st, Ok ((λ a, {| chat := chatId; arms := a |}) <$> docs st !! chatId)).

(** The driver's duplicate-key error. *)
Definition E11000 : Exn :=
  {| code := Some 11000; message := "E11000 duplicate key error" |}.

(** [state.save()] of a document made with [new BanditChatState(...)]: an
    insert, refused by the unique index when the chat already has one. *)
Definition save_new (state : BanditChatState) : Svc unit :=
  λ st, match docs st !! chat state with
        | Some _ => (st, Throw E11000)
        | None =>
            ({| docs := <[chat state := arms state]> (docs st);
                writes := writes st ++ [chat state] |}, Ok tt)
        end.

(** [state.save()] of a document that was read from the collection and then
    changed: the stored document is overwritten. *)
Definition save (state : BanditChatState) : Svc unit :=
  λ st, ({| docs := <[chat state := arms state]> (docs st);
            writes := writes st ++ [chat state] |}, Ok tt).

(** [TypeError: Cannot read properties of null (reading 'arms')] *)
Definition TypeError_arms : Exn :=
  {| code := None;
     message := "Cannot read properties of null (reading 'arms')" |}.

(** The sub-document [{ armId, alpha: 1.0, beta: 1.0, pulls: 0 }]. *)
Definition prior (armId : string) : ArmStats.t :=
  {| ArmStats.armId := armId; ArmStats.alpha := 1; ArmStats.beta := 1;
     ArmStats.pulls := 0 |}.

(** The object literal [{ alpha: a.alpha, beta: a.beta, pulls: a.pulls }]. *)
Definition stats_of (a : ArmStats.t) : Stats.t :=
  {| Stats.alpha := ArmStats.alpha a; Stats.beta := ArmStats.beta a;
     Stats.pulls := ArmStats.pulls a |}.

(** [state.arms.find((a) => a.armId === armId)], with the position found: the
    result is a reference into the array, and the caller changes it there. *)
Definition find_arm (armId : string) (l : list ArmStats.t)
  : option (nat * ArmStats.t) :=
  list_find (λ a, ArmStats.armId a = armId) l.

(** The registry in the source; [GEMINI_MODEL] is [process.env.GEMINI_MODEL]
    (an unset or empty variable is falsy and gives the default). *)
Definition model_of_env (GEMINI_MODEL : option string) : string :=
  match GEMINI_MODEL with
  | Some m => if String.eqb m "" then "gemini-2.5-flash" else m
  | None => "gemini-2.5-flash"
  end.

Definition source_ARMS (GEMINI_MODEL : option string) : list Arm.t :=
  [ {| Arm.armId := "unified_base"; Arm.stage := "unified";
       Arm.modelName := model_of_env GEMINI_MODEL;
       Arm.notes := "Base unified prompt"; Arm.temperature := 1 # 10 |};
    {| Arm.armId := "unified_strict_json"; Arm.stage := "unified";
       Arm.modelName := model_of_env GEMINI_MODEL;
       Arm.notes := "Stricter JSON-only response";
       Arm.temperature := 5 # 100 |} ].

(** ** The bandit service *)

Section Service.

(** The registry is a module constant; the service is stated for any
    registry so that a redeployment with more arms can be followed. *)
Variable ARMS : list Arm.t.

(** The body of [for (const arm of ARMS)] in the reconciliation branch:
    [existingArmIds] is computed once, before the loop. *)
Fixpoint reconcile_loop (existingArmIds : gset string) (registry : list Arm.t)
    (acc : list ArmStats.t * bool) : list ArmStats.t * bool :=
  match registry with
  | [] => acc
  | arm :: rest =>
      if bool_decide (Arm.armId arm ∈ existingArmIds)
      then reconcile_loop existingArmIds rest acc
      else reconcile_loop existingArmIds rest
             (acc.1 ++ [prior (Arm.armId arm)], true)
  end.

Definition getOrCreateBanditState (chatId : string)
  : Svc (option BanditChatState) :=
  await state ← findOne chatId;
  match state with
  | None =>
      let state :=
        {| chat := chatId;
           arms := map (λ arm, prior (Arm.armId arm)) ARMS |} in
      try_catch
        (await _ ← save_new state;
         ret (Some state))
        (λ err,
           if bool_decide (code err = Some 11000)
           then findOne chatId
           else throw err)
  | Some state =>
      let existingArmIds : gset string :=
        list_to_set (map ArmStats.armId (arms state)) in
      let '(arms', modified) :=
        reconcile_loop existingArmIds ARMS (arms state, false) in
      let state := {| chat := chat state; arms := arms' |} in
      if modified
      then await _ ← save state; ret (Some state)
      else ret (Some state)
  end.

(** [updateArm(chatId, armId, reward)]: [null] is [None]. *)
Definition updateArm (chatId armId : string) (reward : Z)
  : Svc (option Stats.t) :=
  await state ← getOrCreateBanditState chatId;
  match state with
  | None => throw TypeError_arms
  | Some state =>
      match find_arm armId (arms state) with
      | None => ret None
      | Some (i, armStats) =>
          let pulls := ArmStats.pulls armStats + 1 in
          let alpha :=
            if reward =? 1 then ArmStats.alpha armStats + 1
            else ArmStats.alpha armStats in
          let beta :=
            if reward =? 1 then ArmStats.beta armStats
            else ArmStats.beta armStats + 1 in
          let armStats :=
            {| ArmStats.armId := ArmStats.armId armStats;
               ArmStats.alpha := alpha; ArmStats.beta := beta;
               ArmStats.pulls := pulls |} in
          let state :=
            {| chat := chat state; arms := <[i := armStats]> (arms state) |} in
          await _ ← save state;
          ret (Some (stats_of armStats))
      end
  end.

(** [getBanditStats(chatId)]: the [reduce] fills an object keyed by arm id,
    a later entry with the same id replacing an earlier one. *)
Definition getBanditStats (chatId : string)
  : Svc (gmap string Stats.t) :=
  await state ← getOrCreateBanditState chatId;
  match state with
  | None => throw TypeError_arms
  | Some state =>
      ret (foldl
             (λ (acc : gmap string Stats.t) arm,
                <[ArmStats.armId arm := stats_of arm]> acc)
             ∅ (arms state))
  end.

(** *** Selection *)

(** The posterior sampler ([sampleBeta], [sampleGamma], [randn]) is
    floating-point code over [Math.random]; the selection only needs the value
    it returns.  [Rng] is the state of the generator behind [Math.random] and
    [betaVariate alpha beta g] is the Number that the body of [sampleBeta]
    returns from the generator state [g], as the rational it denotes, with
    the state it leaves.  Between two such Numbers the sign of the comparator's
    difference is the sign of the difference of the rationals. *)
Variable Rng : Type.
Variable betaVariate : Z → Z → Rng → Q * Rng.

(** The generator, with the journal of the calls made to [sampleBeta]
    (their arguments, oldest first). *)
Record Sampler := {
  gen : Rng;
  drawn : list (Z * Z)
}.

Definition sampleBeta (alpha beta : Z) (s : Sampler) : Q * Sampler :=
  let '(x, g) := betaVariate alpha beta (gen s) in
  (x, {| gen := g; drawn := drawn s ++ [(alpha, beta)] |}).

(** The values that successive calls of [sampleBeta] return, one call per
    pair of parameters, from the generator state [g]; and the state left. *)
Fixpoint draws (params : list (Z * Z)) (g : Rng) : list Q * Rng :=
  match params with
  | [] => ([], g)
  | (alpha, beta) :: rest =>
      let '(x, g) := betaVariate alpha beta g in
      let '(xs, g) := draws rest g in
      (x :: xs, g)
  end.

(** An element [{ armConfig, sample }] of the [samples] array. *)
Record Sample := {
  armConfig : Arm.t;
  sample : Q
}.

(** [state.arms.find(...) || { alpha: 1.0, beta: 1.0, pulls: 0 }] *)
Definition stats_or_prior (armId : string) (l : list ArmStats.t) : Z * Z :=
  match find_arm armId l with
  | Some (_, a) => (ArmStats.alpha a, ArmStats.beta a)
  | None => (1, 1)
  end.

(** The parameters with which the loop calls [sampleBeta]. *)
Definition params_of (state_arms : list ArmStats.t) (candidates : list Arm.t)
  : list (Z * Z) :=
  map (λ c, stats_or_prior (Arm.armId c) state_arms) candidates.

(** [for (const armConfig of candidateArmConfigs)]: one [sampleBeta] call and
    one [samples.push] per turn. *)
Fixpoint sample_loop (state_arms : list ArmStats.t) (candidates : list Arm.t)
    (samples : list Sample) (s : Sampler) : list Sample * Sampler :=
  match candidates with
  | [] => (samples, s)
  | armConfig :: rest =>
      let armStats := stats_or_prior (Arm.armId armConfig) state_arms in
      let '(x, s) := sampleBeta armStats.1 armStats.2 s in
      sample_loop state_arms rest
        (samples ++ [{| armConfig := armConfig; sample := x |}]) s
  end.

(** The comparator [(a, b) => b.sample - a.sample]. *)
Definition compareFn (a b : Sample) : Q := (sample b - sample a)%Q.

(** [samples.sort(compareFn)].  [Array.prototype.sort] is stable, and a stable
    sort has one result; it is computed here by insertion from the right:
    [x], which stood before all of [sorted], moves behind [y] only when
    [compareFn x y > 0]. *)
Fixpoint sort_insert (x : Sample) (sorted : list Sample) : list Sample :=
  match sorted with
  | [] => [x]
  | y :: rest =>
      if Qlt_le_dec 0 (compareFn x y)
      then y :: sort_insert x rest
      else x :: y :: rest
  end.

Definition sort (samples : list Sample) : list Sample :=
  foldr sort_insert [] samples.

(** The order in which the sort leaves two adjacent elements. *)
Definition descending (a b : Sample) : Prop := (sample b <= sample a)%Q.

Definition NoArms (stage : string) : Exn :=
  {| code := None; message := "No arms found for stage: " +:+ stage |}.

Definition TypeError_armConfig : Exn :=
  {| code := None;
     message := "Cannot read properties of undefined (reading 'armConfig')" |}.

(** [chooseArm(chatId, stage = "unified")]: an omitted [stage] is [None]. *)
Definition chooseArm (chatId : string) (stage : option string) (s : Sampler)
  : Svc (Selection.t * Sampler) :=
  let stage := default "unified" stage in
  await state ← getOrCreateBanditState chatId;
  let candidateArmConfigs :=
    filter (λ a, Arm.stage a = stage) ARMS in
  if bool_decide (length candidateArmConfigs = 0%nat)
  then throw (NoArms stage)
  else
    match state with
    | None => throw TypeError_arms
    | Some state =>
        let '(samples, s) :=
          sample_loop (arms state) candidateArmConfigs [] s in
        match sort samples with
        | [] => throw TypeError_armConfig
        | first :: _ =>
            let chosen := armConfig first in
            ret ({| Selection.armId := Arm.armId chosen;
                    Selection.modelName := Arm.modelName chosen;
                    Selection.temperature := Arm.temperature chosen;
                    Selection.notes := Arm.notes chosen |}, s)
        end
    end.

End Service.

(** ** The feedback endpoint *)

Inductive Sender := user | chatbot.

Inductive Feedback := up | down.

(** The fields of a [Message] document that the endpoint reads or writes. *)
Module Message.
Record t := mk {
  chat : string;
  sender : Sender;
  armId : option string;
  feedback : option Feedback
}.
End Message.

Record Chat := { project : string }.

(** [team] is the reference stored in the project, if any. *)
Record Project := { team : option string }.

(** A team as [populate] returns it; [members] are the ids of its members'
    users (every member's user reference is taken to resolve). *)
Record Team := {
  team_organization : string;
  members : list string
}.

(** [req.user], as the token middleware sets it. *)
Record User := {
  userId : string;
  organization : string;
  role : string
}.

(** [req.body].  An absent or [null] field is [None].  [reward] holds
    [Number(reward)] when that is an integer and [None] when it is [NaN],
    infinite or fractional: the guard refuses all of those alike. *)
Record Body := {
  arm_id : option string;
  reward : option Z;
  messageId : option string;
  chatId : option string
}.

(** The database: the collections the endpoint touches. *)
Record World := {
  messages : gmap string Message.t;
  chats : gmap string Chat;
  projects : gmap string Project;
  teams : gmap string Team;
  bandit : Store
}.

(** What the handler sends. *)
Inductive Response :=
  | Status (status : Z) (error : string)
  | AlreadyRated (arm_id : string) (reward : Z) (existingFeedback : Feedback)
  | Success (arm_id : string) (reward : Z) (chatId : string)
      (new_stats : option Stats.t).

(** Truthiness of a value that is a string, [null] or [undefined]. *)
Definition truthy (v : option string) : bool :=
  match v with
  | Some s => negb (String.eqb s "")
  | None => false
  end.

Definition with_messages (w : World) (m : gmap string Message.t) : World :=
  {| messages := m; chats := chats w; projects := projects w;
     teams := teams w; bandit := bandit w |}.

Definition with_bandit (w : World) (b : Store) : World :=
  {| messages := messages w; chats := chats w; projects := projects w;
     teams := teams w; bandit := b |}.

(** [Message.findOneAndUpdate({ _id, feedback: null }, { $set: { feedback } },
    { new: true })] *)
Definition findOneAndUpdate_feedback (id : string) (next : Feedback)
    (w : World) : World * option Message.t :=
  match messages w !! id with
  | Some m =>
      match Message.feedback m with
      | None =>
          let m' := {| Message.chat := Message.chat m;
                       Message.sender := Message.sender m;
                       Message.armId := Message.armId m;
                       Message.feedback := Some next |} in
          (with_messages w (<[id := m']> (messages w)), Some m')
      | Some _ => (w, None)
      end
  | None => (w, None)
  end.

(** Lines 476-501: the chat and the arm the feedback is for.  With a
    [messageId] both come from the message. *)
Definition resolve_target (body : Body) (armIdStr : string) (w : World)
  : Response + (option string * string) :=
  let effectiveChatId := if truthy (chatId body) then chatId body else None in
  if truthy (messageId body) then
    match messages w !! default "" (messageId body) with
    | None => inl (Status 404 "Message not found.")
    | Some message =>
        match Message.sender message with
        | user =>
            inl (Status 400
                   "Feedback can only be submitted for chatbot messages.")
        | chatbot =>
            inr (Some (Message.chat message),
                 if truthy (Message.armId message)
                 then default "" (Message.armId message)
                 else armIdStr)
        end
    end
  else inr (effectiveChatId, armIdStr).

(** Lines 516-540: the requester must reach the chat through its project's
    team.  [None] lets the request through. *)
Definition check_access (u : User) (effectiveChatId : string) (w : World)
  : option Response :=
  match chats w !! effectiveChatId with
  | None => Some (Status 404 "Chat not found.")
  | Some chat =>
      match projects w !! project chat with
      | None => Some (Status 404 "Project not found.")
      | Some project =>
          match team project ≫= (λ t, teams w !! t) with
          | None => Some (Status 404 "Team not found.")
          | Some team =>
              if negb (String.eqb (role u) "superadmin") then
                if negb (String.eqb (team_organization team) (organization u))
                then Some (Status 403 "Not in this organization.")
                else
                  match find (λ m, String.eqb m (userId u)) (members team) with
                  | None => Some (Status 403 "Not a member of this team.")
                  | Some _ => None
                  end
              else None
          end
      end
  end.

(** Lines 542-575: the write-once gate, entered only with a [messageId].
    [Some r] answers the request at once; [None] goes on to the bandit. *)
Definition feedback_gate (body : Body) (rewardNum : Z) (effectiveArmId : string)
    (w : World) : World * option Response :=
  if truthy (messageId body) then
    let id := default "" (messageId body) in
    let nextFeedback := if rewardNum =? 1 then up else down in
    match findOneAndUpdate_feedback id nextFeedback w with
    | (w, None) =>
        match messages w !! id with
        | None => (w, Some (Status 404 "Message not found."))
        | Some existing =>
            match Message.feedback existing with
            | Some f => (w, Some (AlreadyRated effectiveArmId rewardNum f))
            | None => (w, None)
            end
        end
    | (w, Some updated) => (w, None)
    end
  else (w, None).

(** [err.message || "Failed to submit feedback."], sent by the handler's
    [catch]. *)
Definition error_text (err : Exn) : string :=
  if String.eqb (message err) "" then "Failed to submit feedback."
  else message err.

Section Endpoint.

Variable ARMS : list Arm.t.

(** [submitFeedback(req, res)]: [body] is [req.body || {}] and [u] is
    [req.user]. *)
Definition submitFeedback (body : Body) (u : User) (w : World)
  : World * Response :=
  let armIdStr := default "" (arm_id body) in
  match reward body with
  | None => (w, Status 400 "arm_id and reward (0 or 1) are required.")
  | Some rewardNum =>
      if String.eqb armIdStr ""
         || (negb (rewardNum =? 0) && negb (rewardNum =? 1))
      then (w, Status 400 "arm_id and reward (0 or 1) are required.")
      else
        match resolve_target body armIdStr w with
        | inl r => (w, r)
        | inr (effectiveChatId, effectiveArmId) =>
            if negb (truthy effectiveChatId)
            then
              (w, Status 400
                    "messageId (preferred) or chatId is required to update per-chat bandit state.")
            else
              let effectiveChatId := default "" effectiveChatId in
              match check_access u effectiveChatId w with
              | Some r => (w, r)
              | None =>
                  match feedback_gate body rewardNum effectiveArmId w with
                  | (w, Some r) => (w, r)
                  | (w, None) =>
                      match updateArm ARMS effectiveChatId effectiveArmId
                              rewardNum (bandit w) with
                      | (b, Ok newStats) =>
                          (with_bandit w b,
                           Success effectiveArmId rewardNum effectiveChatId
                             newStats)
                      | (b, Throw err) =>
                          (with_bandit w b, Status 500 (error_text err))
                      end
                  end
              end
        end
  end.

(** [n] submissions of the same request, one after the other. *)
Fixpoint resubmit (n : nat) (body : Body) (u : User) (w : World) : World :=
  match n with
  | O => w
  | S n => resubmit n body u (submitFeedback body u w).1
  end.

End Endpoint.

(** ** The inspection endpoint *)

(** The body [{ chatId, arms, stats }] that the inspection handler sends. *)
Record BanditStatsBody := {
  stats_chatId : string;
  stats_arms : list (string * string);
  stats : gmap string Stats.t
}.

(** [getBanditStats(req, res)] of the chat controller: [chatId] is
    [req.query.chatId] and [u] is [req.user].  Its access checks are those of
    lines 516-540, line for line.  A refusal is sent as a [Status].  As in
    the feedback endpoint, the ids of a request are taken to be ObjectIds
    and the token to carry an organization: a request outside this domain
    makes a lookup or [organization.toString()] throw, and the [catch]
    answers 500 before anything is written. *)
Module Controller.
Definition getBanditStats (ARMS : list Arm.t) (chatId : option string)
    (u : User) (w : World) : World * (Response + BanditStatsBody) :=
  if negb (truthy chatId)
  then (w, inl (Status 400 "chatId query param is required."))
  else
    let chatId := default "" chatId in
    match check_access u chatId w with
    | Some r => (w, inl r)
    | None =>
        match getBanditStats ARMS chatId (bandit w) with
        | (b, Ok stats) =>
            (with_bandit w b,
             inr {| stats_chatId := chatId;
                    stats_arms :=
                      map (λ a, (Arm.armId a, Arm.notes a)) ARMS;
                    stats := stats |})
        | (b, Throw err) => (with_bandit w b, inl (Status 500 "Server error."))
        end
    end.
End Controller.

(** ** The reply endpoint *)

(** An entry of [tempFiles]: of its fields the reply handler reads
    [originalname] and [bufferBase64]. *)
Record Upload := {
  originalname : option string;
  bufferBase64 : option string
}.

(** The fields of a [Message] document that the reply handler reads besides
    those of [Message.t].  An entry of [tempFiles] may be [null]. *)
Record MessageData := {
  content : option string;
  selectedDatasets : list string;
  tempFiles : list (option Upload)
}.

(** The schema's defaults. *)
Definition no_data : MessageData :=
  {| content := None; selectedDatasets := []; tempFiles := [] |}.

(** An element of [project.datasets]. *)
Record Dataset := {
  dataset_id : string;
  dataset_name : string;
  dataset_url : string
}.

(** The database with the fields that the feedback endpoint does not use:
    [message_data] by message id, the [messages] array of each chat, the
    [datasets] array of each project, the [title] of each chat and the
    [chats] array of each project.  A missing entry is the default. *)
Record Site := {
  world : World;
  message_data : gmap string MessageData;
  chat_messages : gmap string (list string);
  project_datasets : gmap string (list Dataset);
  chat_titles : gmap string string;
  project_chats : gmap string (list string)
}.

Definition with_world (site : Site) (w : World) : Site :=
  {| world := w; message_data := message_data site;
     chat_messages := chat_messages site;
     project_datasets := project_datasets site;
     chat_titles := chat_titles site;
     project_chats := project_chats site |}.

Definition with_chats (w : World) (c : gmap string Chat) : World :=
  {| messages := messages w; chats := c; projects := projects w;
     teams := teams w; bandit := bandit w |}.

(** [req.body] of the reply endpoint. *)
Record AiBody := {
  ai_chatId : option string;
  ai_projectId : option string;
  ai_content : option string
}.

(** The outcome of lines 299-310 for a [FASTAPI_URL] that is set: [new URL]
    refuses it both times (with the message of the error thrown), or gives
    the URL that is called. *)
Inductive ApiUrl :=
  | Unparsable (message : string)
  | Parsed (apiUrl : string).

(** An element of [recentHistory]. *)
Record ContextMessage := {
  ctx_role : string;
  ctx_content : option string
}.

(** What is posted to the text-generation service: the URL, the form fields
    [user_text], [context] (its [messages] and [datasets], before
    [JSON.stringify]), [arm_id], [arm_temperature], [arm_model], and the
    [files], each the base64 text of its buffer and its file name. *)
Record FastApiRequest := {
  req_url : string;
  user_text : string;
  ctx_messages : list ContextMessage;
  ctx_datasets : list (string * string);
  req_arm_id : string;
  req_arm_temperature : Q;
  req_arm_model : string;
  req_files : list (string * string)
}.

(** The error that [axios.post] throws: [err.response?.status],
    [err.response?.data?.detail], [err.response?.data?.error],
    [err.response.data] when it is a string, [err.code], [err.message]. *)
Record UpstreamError := {
  err_status : option Z;
  err_detail : option string;
  err_error : option string;
  err_text : option string;
  err_code : option string;
  err_message : string
}.

(** [a || b] on strings that may be absent. *)
Definition or_else (a : option string) (b : string) : string :=
  if truthy a then default "" a else b.

(** Lines 393-405 of the reply handler's [catch]: an error without a
    response status. *)
Definition network_refusal (code : option string) (message : string)
  : Response :=
  if bool_decide (code = Some "ECONNABORTED") then
    Status 504
      "LLM service timed out. Try again, or increase FASTAPI_TIMEOUT_MS."
  else if bool_decide (code = Some "ENOTFOUND")
          || bool_decide (code = Some "ECONNREFUSED") then
    Status 502
      "Unable to reach the LLM service. Check FASTAPI_URL and that the FastAPI service is running."
  else Status 500 (or_else (Some message) "Internal server error.").

(** The [catch] of the reply handler, lines 382-405, for an error of the
    service. *)
Definition upstream_refusal (err : UpstreamError) : Response :=
  match err_status err with
  | Some status =>
      if negb (status =? 0) then
        Status status
          (or_else (err_detail err)
             (or_else (err_error err)
                (or_else (err_text err)
                   (or_else (Some (err_message err)) "Upstream error"))))
      else network_refusal (err_code err) (err_message err)
  | None => network_refusal (err_code err) (err_message err)
  end.

(** The access checks on a populated team (lines 184-195, and the same lines
    in every handler of the controller). *)
Definition check_member (u : User) (team : Team) : option Response :=
  if negb (String.eqb (role u) "superadmin") then
    if negb (String.eqb (team_organization team) (organization u))
    then Some (Status 403 "Not in this organization.")
    else
      match find (λ m, String.eqb m (userId u)) (members team) with
      | None => Some (Status 403 "Not a member of this team.")
      | Some _ => None
      end
  else None.

(** [chat.messages] after [populate("messages")]: the documents that the
    references resolve to, each with its further fields. *)
Definition populated_messages (site : Site) (chatId : string)
  : list (Message.t * MessageData) :=
  omap (λ id, (λ m, (m, default no_data (message_data site !! id)))
              <$> messages (world site) !! id)
       (default [] (chat_messages site !! chatId)).

(** Lines 203-208: the ids of all datasets ever selected in the chat. *)
Definition allDatasetIds (allMessages : list (Message.t * MessageData))
  : gset string :=
  list_to_set (concat (map (λ msg, selectedDatasets msg.2) allMessages)).

(** Lines 209-212: the last five messages. *)
Definition recentHistory (allMessages : list (Message.t * MessageData))
  : list ContextMessage :=
  map (λ msg,
         {| ctx_role := match Message.sender msg.1 with
                        | user => "user"
                        | chatbot => "assistant"
                        end;
            ctx_content := content msg.2 |})
      (drop (length allMessages - 5) allMessages).

(** Lines 216-225: the uploads of the user's messages that carry a buffer. *)
Definition allUploadedFiles (allMessages : list (Message.t * MessageData))
  : list Upload :=
  concat
    (map (λ msg,
            match Message.sender msg.1 with
            | user =>
                omap (λ f, f ≫= λ f,
                        if truthy (bufferBase64 f) then Some f else None)
                     (tempFiles msg.2)
            | chatbot => []
            end)
         allMessages).

(** Lines 228-241: the selected datasets of the project, then one entry per
    upload. *)
Definition datasetsContext (datasets : list Dataset)
    (ids : gset string) (uploads : list Upload) : list (string * string) :=
  map (λ d, (dataset_name d, dataset_url d))
      (filter (λ d, dataset_id d ∈ ids) datasets)
  ++ imap (λ index file,
             (or_else (originalname file)
                ("Upload " +:+ pretty (index + 1)%nat),
              "Current Upload"))
          uploads.

(** Lines 244-246. *)
Definition datasetUrlCount (context : list (string * string)) : nat :=
  length (filter (λ d, d.2 ≠ "" ∧ d.2 ≠ "Current Upload") context).

(** What the reply handler sends when it succeeds: the service's analysis
    with [arm_id] and [messageId] set. *)
Record AiReply (Analysis : Type) := {
  analysis : Analysis;
  reply_arm_id : string;
  reply_messageId : string
}.
Arguments analysis {Analysis} _.
Arguments reply_arm_id {Analysis} _.
Arguments reply_messageId {Analysis} _.

Section Reply.

Variable ARMS : list Arm.t.
Variable Rng : Type.
Variable betaVariate : Z → Z → Rng → Q * Rng.

(** The text-generation service is a collaborator: [Analysis] is the JSON
    object it answers, [fastapi] is what one call of it gives, and
    [stringify analysis arm_id] is [JSON.stringify] of the analysis once its
    [arm_id] is set.  [trim] is [String.prototype.trim]. *)
Variable Analysis : Type.
Variable fastapi : FastApiRequest → Analysis + UpstreamError.
Variable stringify : Analysis → string → string.
Variable trim : string → string.

(** Lines 331-344 touch the answer before it is stored: [analysis.arm_id] is
    set, and an [error] field that is truthy is logged through
    [analysis.error?.substring(0, 300)].  [TypeError_of analysis] is the
    message of the [TypeError] that this raises (an answer that is [null],
    or an [error] that is truthy and not a string), if it raises one. *)
Variable TypeError_of : Analysis → option string.

(** [aiReplyHandler(req, res)]: [cfg] is the deployment's [FASTAPI_URL]
    ([None] when it is not set), [body] is [req.body], [u] is [req.user],
    [newId] is the id that [Message.create] gives the reply and [s] is the
    generator.  An error other than the service's has no [response] and no
    [code] that the [catch] knows.  [chat.save()] after the push appends the
    id to the stored array. *)
Definition aiReplyHandler (cfg : option ApiUrl) (body : AiBody) (u : User)
    (newId : string) (s : Sampler Rng) (site : Site)
  : Site * Sampler Rng * (Response + AiReply Analysis) :=
  let w := world site in
  match cfg with
  | None =>
      (site, s,
       inl (Status 500
              "LLM service is not configured. Set FASTAPI_URL (or LLM_API_URL) to your deployed FastAPI endpoint."))
  | Some url =>
  if negb (truthy (ai_projectId body)) || negb (truthy (ai_chatId body))
     || negb (truthy (trim <$> ai_content body))
  then (site, s, inl (Status 400 "projectId, chatId, and content required."))
  else
    let projectId := default "" (ai_projectId body) in
    let chatId := default "" (ai_chatId body) in
    let content := default "" (ai_content body) in
    match projects w !! projectId with
    | None => (site, s, inl (Status 404 "Project not found."))
    | Some project =>
    match chats w !! chatId with
    | None => (site, s, inl (Status 404 "Chat not found."))
    | Some chat =>
    match team project ≫= (λ t, teams w !! t) with
    | None => (site, s, inl (Status 404 "Team not found."))
    | Some team =>
    match check_member u team with
    | Some r => (site, s, inl r)
    | None =>
      let allMessages := populated_messages site chatId in
      let uploads := allUploadedFiles allMessages in
      let context :=
        datasetsContext (default [] (project_datasets site !! projectId))
          (allDatasetIds allMessages) uploads in
      if bool_decide (datasetUrlCount context = 0%nat)
         && bool_decide (length uploads = 0%nat)
      then
        (site, s,
         inl (Status 400
                "No datasets selected or uploaded for this chat. Please select a dataset for the chat (or upload a CSV) and try again."))
      else
        match chooseArm ARMS Rng betaVariate chatId (Some "unified") s
                (bandit w) with
        | (b, Throw err) =>
            (with_world site (with_bandit w b), s,
             inl (network_refusal None (message err)))
        | (b, Ok (chosenArm, s)) =>
            let site := with_world site (with_bandit w b) in
            match url with
            | Unparsable message =>
                (site, s, inl (network_refusal None message))
            | Parsed apiUrl =>
                let request :=
                  {| req_url := apiUrl;
                     user_text := trim content;
                     ctx_messages := recentHistory allMessages;
                     ctx_datasets := context;
                     req_arm_id := Selection.armId chosenArm;
                     req_arm_temperature := Selection.temperature chosenArm;
                     req_arm_model := Selection.modelName chosenArm;
                     req_files :=
                       map (λ file,
                              (default "" (bufferBase64 file),
                               or_else (originalname file) "dataset.csv"))
                           uploads |} in
                match fastapi request with
                | inr err => (site, s, inl (upstream_refusal err))
                | inl analysis =>
                    match TypeError_of analysis with
                    | Some message =>
                        (site, s, inl (network_refusal None message))
                    | None =>
                    match messages (world site) !! newId with
                    | Some _ =>
                        (site, s,
                         inl (network_refusal None (message E11000)))
                    | None =>
                        let botMsg :=
                          {| Message.chat := chatId;
                             Message.sender := chatbot;
                             Message.armId := Some (Selection.armId chosenArm);
                             Message.feedback := None |} in
                        let botData :=
                          {| content :=
                               Some (stringify analysis
                                       (Selection.armId chosenArm));
                             selectedDatasets := [];
                             tempFiles := [] |} in
                        ({| world :=
                              with_messages (world site)
                                (<[newId := botMsg]> (messages (world site)));
                            message_data :=
                              <[newId := botData]> (message_data site);
                            chat_messages :=
                              <[chatId :=
                                  default [] (chat_messages site !! chatId)
                                  ++ [newId]]> (chat_messages site);
                            project_datasets := project_datasets site;
                            chat_titles := chat_titles site;
                            project_chats := project_chats site |},
                         s,
                         inr {| analysis := analysis;
                                reply_arm_id := Selection.armId chosenArm;
                                reply_messageId := newId |})
                    end end
                end
            end
        end
    end end end end
  end.

End Reply.

(** ** Creating and renaming a chat *)

(** [req.body] of [POST /create] and of [PATCH /rename]. *)
Record CreateBody := { create_projectId : option string }.


(** A [Chat] document as the two handlers send it: its id, [project],
    [title] and the ids in [messages]. *)
Record ChatDoc := {
  doc_id : string;
  doc_project : string;
  doc_title : string;
  doc_messages : list string
}.

(** [createChatManually(req, res)]: [newId] is the id that [Chat.create]
    gives the chat; an id that is taken makes it throw, and the [catch]
    answers 500.  An answer [inr chat] is the 201 with
    "New chat created for project." *)
Definition createChatManually (body : CreateBody) (u : User)
    (newId : string) (site : Site) : Site * (Response + ChatDoc) :=
  let w := world site in
  if negb (truthy (create_projectId body))
  then (site, inl (Status 400 "projectId is required."))
  else
    let projectId := default "" (create_projectId body) in
    match projects w !! projectId with
    | None => (site, inl (Status 404 "Project not found."))
    | Some project =>
    match team project ≫= (λ t, teams w !! t) with
    | None => (site, inl (Status 404 "Team not found."))
    | Some team =>
    match check_member u team with
    | Some r => (site, inl r)
    | None =>
        match chats w !! newId with
        | Some _ =>
            (site, inl (Status 500 "Server error while creating chat."))
        | None =>
            ({| world :=
                  with_chats w
                    (<[newId := {| project := projectId |}]> (chats w));
                message_data := message_data site;
                chat_messages := <[newId := []]> (chat_messages site);
                project_datasets := project_datasets site;
                chat_titles := <[newId := "New chat"]> (chat_titles site);
                project_chats :=
                  <[projectId :=
                      default [] (project_chats site !! projectId)
                      ++ [newId]]> (project_chats site) |},
             inr {| doc_id := newId; doc_project := projectId;
                    doc_title := "New chat"; doc_messages := [] |})
        end
    end end end.

Section Rename.

(** [String.prototype.trim]. *)
Variable trim : string → string.


End Rename.

(** ** The posterior sampler *)

(** [sampleBeta], [sampleGamma] and [randn] in the arithmetic of the code:
    a Number is a binary64, [+], [-], [*], [/], [<], [<=] and [Math.sqrt] are
    the IEEE 754 operations.  [Math.log], [Math.cos] and [Math.pow] are
    implementation-approximated in ECMAScript, which fixes only their values
    at special arguments: they are parameters.  [Math.random] is the stream
    [random] of the values it gives, and the state of the generator is the
    number of values taken so far. *)
Module PosteriorSampler.

Section Engine.

Variable log cos : float → float.
Variable pow : float → float → float.
Variable random : nat → float.

(** [Math.PI] *)
Definition PI : float := 0x1.921fb54442d18p+1%float.

Definition randn (n : nat) : float * nat :=
  let u1 := random n in
  let u2 := random (S n) in
  ((sqrt (-2 * log u1) * cos (2 * PI * u2))%float, S (S n)).

(** The loop [while (true)] of [sampleGamma] with its inner [do ... while]:
    both go back to the draw of [x].  [fuel] bounds the number of draws of
    [x]; [None] is a loop that is still running when it is used up.  The
    literal [0.0331] is the binary64 nearest to it. *)
Fixpoint while_true (fuel : nat) (d c : float) (n : nat)
  : option (float * nat) :=
  match fuel with
  | O => None
  | S fuel =>
      let '(x, n) := randn n in
      let v := (1 + c * x)%float in
      if (v <=? 0)%float then while_true fuel d c n
      else
        let v := (v * v * v)%float in
        let u := random n in
        let n := S n in
        if (u <? 1 - 0x1.0f27bb2fec56dp-5 * (x * x) * (x * x))%float
        then Some ((d * v)%float, n)
        else if (log u <? 0.5 * x * x + d * (1 - v + log v))%float
        then Some ((d * v)%float, n)
        else while_true fuel d c n
  end.

(** [fuel] also bounds the depth of the recursion for a shape below 1. *)
Fixpoint sampleGamma (fuel : nat) (shape : float) (n : nat)
  : option (float * nat) :=
  match fuel with
  | O => None
  | S fuel =>
      if (shape <? 1)%float then
        match sampleGamma fuel (shape + 1)%float n with
        | Some (g, n) => Some ((g * pow (random n) (1 / shape))%float, S n)
        | None => None
        end
      else
        let d := (shape - 1 / 3)%float in
        let c := (1 / sqrt (9 * d))%float in
        while_true fuel d c n
  end.

Definition sampleBeta (fuel : nat) (alpha beta : float) (n : nat)
  : option (float * nat) :=
  match sampleGamma fuel alpha n with
  | Some (gammaA, n) =>
      match sampleGamma fuel beta n with
      | Some (gammaB, n) => Some ((gammaA / (gammaA + gammaB))%float, n)
      | None => None
      end
  | None => None
  end.

(** One turn of the loop from the generator state [n]: the value it returns
    if it returns, and the generator state it leaves. *)
Definition turn (d c : float) (n : nat) : option float * nat :=
  let '(x, n) := randn n in
  let v := (1 + c * x)%float in
  if (v <=? 0)%float then (None, n)
  else
    let v := (v * v * v)%float in
    let u := random n in
    if (u <? 1 - 0x1.0f27bb2fec56dp-5 * (x * x) * (x * x))%float
       || (log u <? 0.5 * x * x + d * (1 - v + log v))%float
    then (Some (d * v)%float, S n)
    else (None, S n).

(** [accepted d c n k]: the first [k] turns from [n] go back to the draw and
    the next one returns. *)
Fixpoint accepted (d c : float) (n k : nat) : option (float * nat) :=
  match turn d c n, k with
  | (Some g, n), O => Some (g, n)
  | (None, n), S k => accepted d c n k
  | _, _ => None
  end.

End Engine.

(** The values of a generator that gives the values of [tape], then zeros. *)
Definition tape (values : list float) (n : nat) : float :=
  nth n values 0%float.

(** What ECMAScript fixes of [Math.log] and [Math.cos] at the arguments that
    the loop meets on a draw of [+0]. *)
Definition special_values (log cos : float → float) : Prop :=
  log 0%float = neg_infinity ∧ log infinity = infinity ∧ cos 0%float = 1%float.

(** The uniform draws: each is at least [+0] and below 1. *)
Definition uniform (random : nat → float) : Prop :=
  ∀ n, (0 <=? random n)%float = true ∧ (random n <? 1)%float = true.

(** A binary64 value whose sign bit is clear, or a NaN: [+0], a positive
    finite Number, [Infinity] or a NaN. *)
Definition sign_clear (f : spec_float) : Prop :=
  match f with
  | S754_zero s | S754_infinity s | S754_finite s _ _ => s = false
  | S754_nan => True
  end.

Definition not_negative (x : float) : Prop := sign_clear (Prim2SF x).

(** An engine for the examples: the correctly rounded logarithm and cosine at
    the arguments that the examples use. *)
Definition example_log (x : float) : float :=
  if (x =? 0)%float then neg_infinity
  else if (x =? infinity)%float then infinity
  else if (x =? 0.5)%float then (-0x1.62e42fefa39efp-1)%float
  else if (x =? 0x1.97dc5fe7c7240p-5)%float then (-0x1.7fff9593c1536p+1)%float
  else if (x =? 0x1.5cc3aba4a3bf9p-57)%float
       then (-0x1.3999f2e1d131ap+5)%float
  else nan.

Definition example_cos (x : float) : float :=
  if (x =? 0)%float then 1%float
  else if (x =? PI)%float then (-1)%float
  else nan.

End PosteriorSampler.

(** ** Reachable stores *)

Section Reachable.

Variable Rng : Type.
Variable betaVariate : Z → Z → Rng → Q * Rng.

(** A call of the service's interface, made while [registry] is the deployed
    [ARMS]. *)
Inductive Call :=
  | call_chooseArm (registry : list Arm.t) (chatId : string)
      (stage : option string) (s : Sampler Rng)
  | call_updateArm (registry : list Arm.t) (chatId armId : string) (reward : Z)
  | call_getBanditStats (registry : list Arm.t) (chatId : string).

Definition run (c : Call) (st : Store) : Store :=
  match c with
  | call_chooseArm registry chatId stage s =>
      (chooseArm registry Rng betaVariate chatId stage s st).1
  | call_updateArm registry chatId armId reward =>
      (updateArm registry chatId armId reward st).1
  | call_getBanditStats registry chatId =>
      (getBanditStats registry chatId st).1
  end.

(** The stores that the service can produce from an empty collection. *)
Inductive reachable : Store → Prop :=
  | reachable_empty : reachable empty_store
  | reachable_run c st : reachable st → reachable (run c st).

End Reachable.

(** The invariant of one [ArmStats] entry. *)
Definition arm_ok (a : ArmStats.t) : Prop :=
  1 ≤ ArmStats.alpha a ∧ 1 ≤ ArmStats.beta a ∧ 0 ≤ ArmStats.pulls a ∧
  ArmStats.pulls a = (ArmStats.alpha a - 1) + (ArmStats.beta a - 1).

Definition store_ok (st : Store) : Prop :=
  ∀ chatId l, docs st !! chatId = Some l → Forall arm_ok l.

(** ** Requests that pass the endpoint's checks *)

(** The body names an arm and a reward of 0 or 1 (lines 465-470). *)
Definition valid_body (body : Body) (armIdStr : string) (rewardNum : Z)
  : Prop :=
  arm_id body = Some armIdStr ∧ armIdStr ≠ "" ∧
  reward body = Some rewardNum ∧ (rewardNum = 0 ∨ rewardNum = 1).

(** The chat, its project and the project's team exist, and the requester is
    a superadmin or a member of that team in the team's organization
    (lines 516-540). *)
Definition may_access (u : User) (effectiveChatId : string) (w : World)
  : Prop :=
  ∃ c p t tm,
    chats w !! effectiveChatId = Some c ∧
    projects w !! project c = Some p ∧
    team p = Some t ∧
    teams w !! t = Some tm ∧
    (role u = "superadmin" ∨
     (team_organization tm = organization u ∧ userId u ∈ members tm)).

(** The arm the feedback of a message is for: the one recorded in the
    message, or else the one the request names. *)
Definition arm_of_message (m : Message.t) (armIdStr : string) : string :=
  if truthy (Message.armId m) then default "" (Message.armId m) else armIdStr.

(** An entry after [n] rewards of value [r], each 0 or 1. *)
Definition rewarded (n : nat) (r : Z) (a : ArmStats.t) : ArmStats.t :=
  {| ArmStats.armId := ArmStats.armId a;
     ArmStats.alpha := ArmStats.alpha a + Z.of_nat n * r;
     ArmStats.beta := ArmStats.beta a + Z.of_nat n * (1 - r);
     ArmStats.pulls := ArmStats.pulls a + Z.of_nat n |}.

(** A generator that replays a tape of values, for the examples. *)
Definition replay : Z → Z → list Q → Q * list Q :=
  λ _ _ g, match g with
           | x :: rest => (x, rest)
           | [] => ((1 # 2)%Q, [])
           end.

(** A generator that answers the mean of the distribution asked for, for
    the examples. *)
Definition mean : Z → Z → unit → Q * unit :=
  λ alpha beta g, ((alpha # Z.to_pos (alpha + beta))%Q, g).

(** ** Loading a state *)

(** The ids of the arms of a stored state. *)
Definition ids (l : list ArmStats.t) : list string := map ArmStats.armId l.

(** The registry arms that a stored state lacks, in registry order. *)
Definition missing (ARMS : list Arm.t) (l : list ArmStats.t) : list Arm.t :=
  filter (λ arm, Arm.armId arm ∉ ids l) ARMS.

Definition priors (registry : list Arm.t) : list ArmStats.t :=
  map (λ arm, prior (Arm.armId arm)) registry.

(** ** Notions for the properties of the service as a whole *)

(** The chat that a call of the service names. *)
Definition call_chat {Rng : Type} (c : Call Rng) : string :=
  match c with
  | call_chooseArm _ _ chatId _ _ => chatId
  | call_updateArm _ _ chatId _ _ => chatId
  | call_getBanditStats _ _ chatId => chatId
  end.

(** The registry deployed when the call is made. *)
Definition call_registry {Rng : Type} (c : Call Rng) : list Arm.t :=
  match c with
  | call_chooseArm _ registry _ _ _ => registry
  | call_updateArm _ registry _ _ _ => registry
  | call_getBanditStats _ registry _ => registry
  end.

(** The entry that [updateArm] writes in place of [a]: [reward === 1] counts
    for [alpha], anything else for [beta]. *)
Definition bump (reward : Z) (a : ArmStats.t) : ArmStats.t :=
  {| ArmStats.armId := ArmStats.armId a;
     ArmStats.alpha :=
       if reward =? 1 then ArmStats.alpha a + 1 else ArmStats.alpha a;
     ArmStats.beta :=
       if reward =? 1 then ArmStats.beta a else ArmStats.beta a + 1;
     ArmStats.pulls := ArmStats.pulls a + 1 |}.

(** The [arms] array after [updateArm]'s lookup and in-place change. *)
Definition apply_reward (armId : string) (reward : Z) (l : list ArmStats.t)
  : list ArmStats.t :=
  match find_arm armId l with
  | Some (i, a) => <[i := bump reward a]> l
  | None => l
  end.

(** The journal entry of an [updateArm] call: one save when the arm is
    found. *)
Definition saved (chatId x : string) (l : list ArmStats.t) : list string :=
  if bool_decide (x ∈ ids l) then [chatId] else [].

(** A run of [updateArm] calls for one chat, each an arm id and a reward. *)
Definition feed (ARMS : list Arm.t) (chatId : string)
    (calls : list (string * Z)) (st : Store) : Store :=
  foldl (λ st call, (updateArm ARMS chatId call.1 call.2 st).1) st calls.

(** How many of the calls name [armId], and how many of those carry a reward
    that is 1, or is not. *)
Definition named (armId : string) (calls : list (string * Z)) : Z :=
  Z.of_nat (length (filter (λ call, call.1 = armId) calls)).

Definition named_success (armId : string) (calls : list (string * Z)) : Z :=
  Z.of_nat (length (filter (λ call, call.1 = armId ∧ call.2 = 1) calls)).

Definition named_failure (armId : string) (calls : list (string * Z)) : Z :=
  Z.of_nat (length (filter (λ call, call.1 = armId ∧ call.2 ≠ 1) calls)).

(** No stored state holds two entries for one arm id. *)
Definition store_nodup (st : Store) : Prop :=
  ∀ chatId l, docs st !! chatId = Some l → NoDup (ids l).

(** A small database and a service that always answers, for the examples:
    one project with one dataset, one chat in which the user has selected
    it. *)
Definition demo_site : Site :=
  {| world :=
       {| messages :=
            {[ "m0" := {| Message.chat := "c1"; Message.sender := user;
                          Message.armId := None;
                          Message.feedback := None |} ]};
          chats := {[ "c1" := {| project := "p1" |} ]};
          projects := {[ "p1" := {| team := Some "t1" |} ]};
          teams := {[ "t1" := {| team_organization := "o1";
                                 members := ["u1"] |} ]};
          bandit := empty_store |};
     message_data :=
       {[ "m0" := {| content := Some "plot the sales";
                     selectedDatasets := ["d1"]; tempFiles := [] |} ]};
     chat_messages := {[ "c1" := ["m0"] ]};
     project_datasets :=
       {[ "p1" := [ {| dataset_id := "d1"; dataset_name := "sales";
                       dataset_url := "https://files.example/sales.csv" |} ] ]};
     chat_titles := {[ "c1" := "Sales" ]};
     project_chats := {[ "p1" := ["c1"] ]}
  |}.

Definition demo_user : User :=
  {| userId := "u1"; organization := "o1"; role := "member" |}.

Definition demo_body : AiBody :=
  {| ai_chatId := Some "c1"; ai_projectId := Some "p1";
     ai_content := Some "plot the sales" |}.

Definition demo_fastapi (request : FastApiRequest) : string + UpstreamError :=
  inl ("insights from " +:+ req_arm_model request).

Definition demo_handler :=
  aiReplyHandler (source_ARMS None) (list Q) replay string demo_fastapi
    (λ analysis arm_id, analysis +:+ " by " +:+ arm_id) (λ text, text)
    (λ analysis, None).

Section Loading.

Variable ARMS : list Arm.t.

Lemma reconcile_loop_spec (ex : gset string) registry acc b :
  reconcile_loop ex registry (acc, b) =
    (acc ++ priors (filter (λ arm, Arm.armId arm ∉ ex) registry),
     b || bool_decide (filter (λ arm, Arm.armId arm ∉ ex) registry ≠ [])).
Proof.
  revert acc b. induction registry as [|arm rest IH]; intros acc b; simpl.
  - rewrite app_nil_r. by destruct b.
  - rewrite filter_cons. destruct (decide (Arm.armId arm ∈ ex)) as [Hin|Hin].
    + rewrite bool_decide_true by done.
      rewrite decide_False by (intros Hn; by apply Hn). apply IH.
    + rewrite bool_decide_false by done. rewrite decide_True by done.
      rewrite IH. simpl. rewrite <- app_assoc. simpl. f_equal.
      by destruct b.
Qed.

Lemma filter_missing_ids (l : list ArmStats.t) :
  filter (λ arm, Arm.armId arm ∉ (list_to_set (ids l) : gset string)) ARMS
  = missing ARMS l.
Proof.
  unfold missing. apply list_filter_iff. intros arm.
  rewrite elem_of_list_to_set. done.
Qed.

(** A chat without a document gets one with every registry arm at the prior. *)
Lemma getOrCreate_absent chatId st :
  docs st !! chatId = None →
  getOrCreateBanditState ARMS chatId st =
    ({| docs := <[chatId := priors ARMS]> (docs st);
        writes := writes st ++ [chatId] |},
     Ok (Some {| chat := chatId; arms := priors ARMS |})).
Proof.
  intros Hnone.
  unfold getOrCreateBanditState, bind, findOne, try_catch, save_new, ret.
  simpl. rewrite Hnone. simpl. rewrite Hnone. done.
Qed.

(** A stored state is extended by the priors of the arms it lacks, and saved
    only when there are any. *)
Lemma getOrCreate_present chatId st l :
  docs st !! chatId = Some l →
  getOrCreateBanditState ARMS chatId st =
    (if bool_decide (missing ARMS l ≠ [])
     then {| docs := <[chatId := l ++ priors (missing ARMS l)]> (docs st);
             writes := writes st ++ [chatId] |}
     else st,
     Ok (Some {| chat := chatId; arms := l ++ priors (missing ARMS l) |})).
Proof.
  intros Hsome.
  unfold getOrCreateBanditState, bind, findOne. simpl. rewrite Hsome. simpl.
  rewrite reconcile_loop_spec. fold (ids l). rewrite filter_missing_ids.
  simpl. case_bool_decide; done.
Qed.

(** The load never throws and never returns [null]. *)
Lemma getOrCreate_total chatId st :
  ∃ state, (getOrCreateBanditState ARMS chatId st).2 = Ok (Some state)
           ∧ chat state = chatId.
Proof.
  destruct (docs st !! chatId) as [l|] eqn:E.
  - rewrite (getOrCreate_present _ _ _ E). eauto.
  - rewrite (getOrCreate_absent _ _ E). eauto.
Qed.

End Loading.

(** ** Applying a reward *)

Section Reward.

Variable ARMS : list Arm.t.

(** The entry that [updateArm] leaves in place of [a]. *)
Lemma updateArm_found chatId armId reward st st1 state i a :
  getOrCreateBanditState ARMS chatId st = (st1, Ok (Some state)) →
  find_arm armId (arms state) = Some (i, a) →
  let a' :=
    {| ArmStats.armId := ArmStats.armId a;
       ArmStats.alpha :=
         if reward =? 1 then ArmStats.alpha a + 1 else ArmStats.alpha a;
       ArmStats.beta :=
         if reward =? 1 then ArmStats.beta a else ArmStats.beta a + 1;
       ArmStats.pulls := ArmStats.pulls a + 1 |} in
  updateArm ARMS chatId armId reward st =
    ({| docs := <[chat state := <[i := a']> (arms state)]> (docs st1);
        writes := writes st1 ++ [chat state] |},
     Ok (Some {| Stats.alpha := ArmStats.alpha a';
                 Stats.beta := ArmStats.beta a';
                 Stats.pulls := ArmStats.pulls a' |})).
Proof.
  intros Hload Hfind. unfold updateArm, bind. rewrite Hload, Hfind. done.
Qed.

Lemma updateArm_not_found chatId armId reward st st1 state :
  getOrCreateBanditState ARMS chatId st = (st1, Ok (Some state)) →
  find_arm armId (arms state) = None →
  updateArm ARMS chatId armId reward st = (st1, Ok None).
Proof.
  intros Hload Hfind. unfold updateArm, bind. rewrite Hload, Hfind. done.
Qed.

(** Replacing the entry found by one with the same id keeps it the one found. *)
Lemma find_arm_insert armId (l : list ArmStats.t) i a a' :
  find_arm armId l = Some (i, a) →
  ArmStats.armId a' = armId →
  find_arm armId (<[i := a']> l) = Some (i, a').
Proof.
  unfold find_arm. intros Hfind Hid.
  apply list_find_Some in Hfind as (Hi & _ & Hbefore).
  apply list_find_Some. split_and!.
  - apply list_lookup_insert_eq. by eapply lookup_lt_Some.
  - done.
  - intros j y Hj Hlt. rewrite list_lookup_insert_ne in Hj by lia.
    by eapply Hbefore.
Qed.

(** The load keeps other chats' documents. *)
Lemma getOrCreate_other chatId st c :
  c ≠ chatId →
  docs (getOrCreateBanditState ARMS chatId st).1 !! c = docs st !! c.
Proof.
  intros Hne. destruct (docs st !! chatId) as [l|] eqn:E.
  - rewrite (getOrCreate_present _ _ _ _ E). simpl.
    case_bool_decide; simpl; [by rewrite lookup_insert_ne|done].
  - rewrite (getOrCreate_absent _ _ _ E). simpl. by rewrite lookup_insert_ne.
Qed.

(** After the load the chat's document holds exactly the state returned. *)
Lemma getOrCreate_stored chatId st st1 state :
  getOrCreateBanditState ARMS chatId st = (st1, Ok (Some state)) →
  chat state = chatId ∧ docs st1 !! chatId = Some (arms state).
Proof.
  destruct (docs st !! chatId) as [l|] eqn:E.
  - rewrite (getOrCreate_present _ _ _ _ E). intros [= <- <-]. simpl.
    split; [done|]. case_bool_decide as Hm; simpl.
    + by rewrite lookup_insert_eq.
    + rewrite Hm. simpl. by rewrite app_nil_r.
  - rewrite (getOrCreate_absent _ _ _ E). intros [= <- <-]. simpl.
    by rewrite lookup_insert_eq.
Qed.

End Reward.

(** ** C1: what a reward does *)

(** An arm found in the stored state is found, at the same place, in the
    state that the call loads. *)
Lemma find_arm_loaded ARMS chatId armId st l i a :
  docs st !! chatId = Some l →
  find_arm armId l = Some (i, a) →
  ∃ state,
    (getOrCreateBanditState ARMS chatId st).2 = Ok (Some state) ∧
    find_arm armId (arms state) = Some (i, a).
Proof.
  intros Hl Hfind. rewrite (getOrCreate_present _ _ _ _ Hl). simpl.
  eexists. split; [done|]. simpl. by apply list_find_app_l.
Qed.

Lemma priors_lookup (registry : list Arm.t) j a :
  priors registry !! j = Some a →
  ArmStats.alpha a = 1 ∧ ArmStats.beta a = 1 ∧ ArmStats.pulls a = 0.
Proof.
  unfold priors. rewrite list_lookup_fmap.
  destruct (registry !! j); simpl; [|done]. by intros [= <-].
Qed.

(** C1.  A call [updateArm(chatId, armId, reward)] with [reward] 0 or 1, whose
    arm is in the stored state of the chat, adds 1 to the [pulls] stored for
    that arm, adds 1 to its stored [alpha] when [reward] is 1 and to its
    stored [beta] when it is 0, leaves every other stored entry as it was
    (behind them the load has appended the registry arms that the state
    lacked, at [{alpha: 1, beta: 1, pulls: 0}]), stores the changed document
    and returns the arm's new [alpha], [beta] and [pulls].  On a chat that
    had no state yet, a reward for an arm of the registry returns
    [{alpha: 2, beta: 1, pulls: 1}] when it is 1 (and
    [{alpha: 1, beta: 2, pulls: 1}] when it is 0), and every other arm of the
    registry is stored at [{alpha: 1, beta: 1, pulls: 0}]. *)
Theorem updateArm_applies_reward ARMS chatId armId reward st :
  reward = 0 ∨ reward = 1 →
  (∀ l i a,
     docs st !! chatId = Some l →
     find_arm armId l = Some (i, a) →
     ∃ st' a' l',
       updateArm ARMS chatId armId reward st =
         (st', Ok (Some {| Stats.alpha := ArmStats.alpha a';
                           Stats.beta := ArmStats.beta a';
                           Stats.pulls := ArmStats.pulls a' |})) ∧
       ArmStats.armId a' = armId ∧
       ArmStats.pulls a' = ArmStats.pulls a + 1 ∧
       (reward = 1 →
          ArmStats.alpha a' = ArmStats.alpha a + 1 ∧
          ArmStats.beta a' = ArmStats.beta a) ∧
       (reward = 0 →
          ArmStats.alpha a' = ArmStats.alpha a ∧
          ArmStats.beta a' = ArmStats.beta a + 1) ∧
       docs st' !! chatId = Some l' ∧
       l' = <[i := a']>
              (l ++ map (λ arm, {| ArmStats.armId := Arm.armId arm;
                                   ArmStats.alpha := 1; ArmStats.beta := 1;
                                   ArmStats.pulls := 0 |})
                        (missing ARMS l)) ∧
       l' !! i = Some a' ∧
       find_arm armId l' = Some (i, a') ∧
       (∀ j b, j ≠ i → l !! j = Some b → l' !! j = Some b) ∧
       last (writes st') = Some chatId ∧
       (∀ c, c ≠ chatId → docs st' !! c = docs st !! c)) ∧
  (∀ i arm,
     docs st !! chatId = None →
     ARMS !! i = Some arm →
     Arm.armId arm = armId →
     (∀ j arm', ARMS !! j = Some arm' → (j < i)%nat →
                Arm.armId arm' ≠ armId) →
     ∃ st' l',
       updateArm ARMS chatId armId reward st =
         (st', Ok (Some {| Stats.alpha := if reward =? 1 then 2 else 1;
                           Stats.beta := if reward =? 1 then 1 else 2;
                           Stats.pulls := 1 |})) ∧
       docs st' !! chatId = Some l' ∧
       l' !! i = Some {| ArmStats.armId := armId;
                         ArmStats.alpha := if reward =? 1 then 2 else 1;
                         ArmStats.beta := if reward =? 1 then 1 else 2;
                         ArmStats.pulls := 1 |} ∧
       length l' = length ARMS ∧
       (∀ j arm', j ≠ i → ARMS !! j = Some arm' →
          l' !! j = Some {| ArmStats.armId := Arm.armId arm';
                            ArmStats.alpha := 1; ArmStats.beta := 1;
                            ArmStats.pulls := 0 |}) ∧
       last (writes st') = Some chatId ∧
       (∀ c, c ≠ chatId → docs st' !! c = docs st !! c)).
Proof.
  intros Hreward. split.
  - intros l i a Hl Hfind.
    pose proof (getOrCreate_present ARMS chatId st l Hl) as Hrun.
    set (st1 := if bool_decide (missing ARMS l ≠ []) then _ else st) in Hrun.
    assert (Hloaded :
      find_arm armId (l ++ priors (missing ARMS l)) = Some (i, a))
      by (by apply list_find_app_l).
    pose proof (updateArm_found _ _ _ reward _ _ _ _ _ Hrun Hloaded) as Hupd.
    simpl in Hupd.
    assert (Hid : ArmStats.armId a = armId).
    { unfold find_arm in Hfind.
      by apply list_find_Some in Hfind as (_ & ? & _). }
    assert (Hi : (i < length l)%nat).
    { unfold find_arm in Hfind.
      apply list_find_Some in Hfind as (Hlook & _).
      by eapply lookup_lt_Some. }
    eexists _,
      {| ArmStats.armId := ArmStats.armId a;
         ArmStats.alpha :=
           if reward =? 1 then ArmStats.alpha a + 1 else ArmStats.alpha a;
         ArmStats.beta :=
           if reward =? 1 then ArmStats.beta a else ArmStats.beta a + 1;
         ArmStats.pulls := ArmStats.pulls a + 1 |}, _.
    split; [exact Hupd|]. simpl. split_and!.
    + done.
    + done.
    + by intros ->.
    + by intros ->.
    + by rewrite lookup_insert_eq.
    + done.
    + apply list_lookup_insert_eq. rewrite length_app. lia.
    + by eapply find_arm_insert.
    + intros j b Hj Hb. rewrite list_lookup_insert_ne by done.
      by apply lookup_app_l_Some.
    + by rewrite last_snoc.
    + intros c Hc. rewrite lookup_insert_ne by done.
      subst st1. case_bool_decide; simpl; [by rewrite lookup_insert_ne|done].
  - intros i arm Hnone Hi Hid Hfirst.
    pose proof (getOrCreate_absent ARMS chatId st Hnone) as Hrun.
    assert (Hfind : find_arm armId (priors ARMS)
                    = Some (i, prior (Arm.armId arm))).
    { unfold find_arm, priors. apply list_find_Some. split_and!.
      - by rewrite list_lookup_fmap, Hi.
      - done.
      - intros j y Hj Hlt. rewrite list_lookup_fmap in Hj.
        destruct (ARMS !! j) as [arm'|] eqn:Hj'; [|done].
        injection Hj as <-. simpl. by eapply Hfirst. }
    pose proof (updateArm_found _ _ _ reward _ _ _ _ _ Hrun Hfind) as Hupd.
    simpl in Hupd. eexists _, _. split_and!.
    + rewrite Hupd. by destruct Hreward as [-> | ->].
    + simpl. by rewrite lookup_insert_eq.
    + rewrite list_lookup_insert_eq.
      * rewrite Hid. by destruct Hreward as [-> | ->].
      * unfold priors. rewrite length_map. by eapply lookup_lt_Some.
    + rewrite length_insert. unfold priors. by rewrite length_map.
    + intros j arm' Hj Hj'. rewrite list_lookup_insert_ne by done.
      unfold priors. by rewrite list_lookup_fmap, Hj'.
    + simpl. by rewrite last_snoc.
    + intros c Hc. simpl. by rewrite !lookup_insert_ne.
Qed.

Lemma updateArm_applies_reward_witness :
  let learned := {| ArmStats.armId := "unified_base"; ArmStats.alpha := 3;
                    ArmStats.beta := 2; ArmStats.pulls := 4 |} in
  let st := {| docs := {[ "c1" := [learned] ]}; writes := [] |} in
  (∃ st',
     updateArm (source_ARMS None) "c1" "unified_base" 1 st =
       (st', Ok (Some {| Stats.alpha := 4; Stats.beta := 2;
                         Stats.pulls := 5 |})) ∧
     docs st' !! "c1"
     = Some [ {| ArmStats.armId := "unified_base"; ArmStats.alpha := 4;
                 ArmStats.beta := 2; ArmStats.pulls := 5 |};
              {| ArmStats.armId := "unified_strict_json";
                 ArmStats.alpha := 1; ArmStats.beta := 1;
                 ArmStats.pulls := 0 |} ]) ∧
  (∃ st' l',
     updateArm (source_ARMS None) "c2" "unified_base" 1 st =
       (st', Ok (Some {| Stats.alpha := 2; Stats.beta := 1;
                         Stats.pulls := 1 |})) ∧
     docs st' !! "c2" = Some l' ∧
     l' !! 1%nat = Some {| ArmStats.armId := "unified_strict_json";
                           ArmStats.alpha := 1; ArmStats.beta := 1;
                           ArmStats.pulls := 0 |}).
Proof.
  intros learned st.
  destruct (updateArm_applies_reward (source_ARMS None) "c1" "unified_base" 1
              st (or_intror eq_refl)) as [Hstored _].
  destruct (updateArm_applies_reward (source_ARMS None) "c2" "unified_base" 1
              st (or_intror eq_refl)) as [_ Hfresh].
  split.
  - destruct (Hstored [learned] 0%nat learned eq_refl eq_refl)
      as (st' & a' & l' & Hupd & Hid & Hpulls & Hone & _ & Hdoc & Hl' & _).
    destruct (Hone eq_refl) as [Halpha Hbeta].
    exists st'. destruct a' as [id al be pu]. simpl in *. subst.
    split; [exact Hupd | exact Hdoc].
  - destruct (Hfresh 0%nat
                {| Arm.armId := "unified_base"; Arm.stage := "unified";
                   Arm.modelName := model_of_env None;
                   Arm.notes := "Base unified prompt";
                   Arm.temperature := 1 # 10 |} eq_refl eq_refl eq_refl)
      as (st' & l' & Hupd & Hdoc & _ & _ & Hrest & _).
    { intros j arm' _ Hlt. lia. }
    exists st', l'. split_and!; [exact Hupd | exact Hdoc |].
    by apply (Hrest 1%nat
                {| Arm.armId := "unified_strict_json";
                   Arm.stage := "unified";
                   Arm.modelName := model_of_env None;
                   Arm.notes := "Stricter JSON-only response";
                   Arm.temperature := 5 # 100 |}).
Defined.

(** ** The store after a selection or an inspection *)

Section Frame.

Variable ARMS : list Arm.t.
Variable Rng : Type.
Variable betaVariate : Z → Z → Rng → Q * Rng.

(** [chooseArm] touches the store through the load alone. *)
Lemma chooseArm_store chatId stage s st :
  (chooseArm ARMS Rng betaVariate chatId stage s st).1 =
  (getOrCreateBanditState ARMS chatId st).1.
Proof.
  unfold chooseArm, bind.
  destruct (getOrCreateBanditState ARMS chatId st) as [st1 [[state|]|e]];
    simpl; [| |done].
  - case_bool_decide; [done|].
    destruct (sample_loop _ _ _ _ _ _) as [samples s'].
    by destruct (sort samples).
  - by case_bool_decide.
Qed.

(** So does [getBanditStats]. *)
Lemma getBanditStats_store chatId st :
  (getBanditStats ARMS chatId st).1 =
  (getOrCreateBanditState ARMS chatId st).1.
Proof.
  unfold getBanditStats, bind.
  by destruct (getOrCreateBanditState ARMS chatId st) as [st1 [[state|]|e]].
Qed.

(** What the load does to the document of any chat: it appends entries at
    the prior, and only to the chat that is loaded. *)
Lemma getOrCreate_extends chatId st c l :
  docs st !! c = Some l →
  ∃ extra,
    docs (getOrCreateBanditState ARMS chatId st).1 !! c = Some (l ++ extra) ∧
    Forall (λ a, ArmStats.alpha a = 1 ∧ ArmStats.beta a = 1 ∧
                 ArmStats.pulls a = 0) extra ∧
    (c ≠ chatId → extra = []).
Proof.
  intros Hc. destruct (decide (c = chatId)) as [->|Hne].
  - rewrite (getOrCreate_present _ _ _ _ Hc). simpl.
    exists (priors (missing ARMS l)). split_and!.
    + case_bool_decide as Hm; simpl.
      * by rewrite lookup_insert_eq.
      * rewrite Hm. simpl. by rewrite app_nil_r.
    + apply Forall_lookup. intros j a. apply priors_lookup.
    + done.
  - exists []. rewrite app_nil_r, getOrCreate_other by done. done.
Qed.

End Frame.

(** ** C2: the invariant of the stored statistics *)

Lemma arm_ok_prior armId : arm_ok (prior armId).
Proof. unfold arm_ok, prior. simpl. lia. Qed.

Lemma Forall_arm_ok_priors registry : Forall arm_ok (priors registry).
Proof.
  unfold priors. apply Forall_fmap, Forall_true. intros arm. apply arm_ok_prior.
Qed.

(** Lazy creation and reconciliation keep the invariant. *)
Lemma getOrCreate_ok ARMS chatId st :
  store_ok st → store_ok (getOrCreateBanditState ARMS chatId st).1.
Proof.
  intros Hok c l. destruct (docs st !! chatId) as [l0|] eqn:E.
  - rewrite (getOrCreate_present _ _ _ _ E). simpl.
    case_bool_decide; simpl; [|apply Hok].
    destruct (decide (c = chatId)) as [->|Hne].
    + rewrite lookup_insert_eq. intros [= <-]. apply Forall_app. split.
      * by eapply Hok.
      * apply Forall_arm_ok_priors.
    + rewrite lookup_insert_ne by done. apply Hok.
  - rewrite (getOrCreate_absent _ _ _ E). simpl.
    destruct (decide (c = chatId)) as [->|Hne].
    + rewrite lookup_insert_eq. intros [= <-]. apply Forall_arm_ok_priors.
    + rewrite lookup_insert_ne by done. apply Hok.
Qed.

(** A reward, whatever its value, keeps the invariant. *)
Lemma updateArm_ok ARMS chatId armId reward st :
  store_ok st → store_ok (updateArm ARMS chatId armId reward st).1.
Proof.
  intros Hok. pose proof (getOrCreate_ok ARMS chatId st Hok) as Hok1.
  destruct (getOrCreate_total ARMS chatId st) as (state & Hstate & Hchat).
  destruct (getOrCreateBanditState ARMS chatId st) as [st1 o] eqn:Hrun.
  simpl in *. subst o.
  destruct (getOrCreate_stored _ _ _ _ _ Hrun) as [_ Hdoc].
  destruct (find_arm armId (arms state)) as [[i a]|] eqn:Hfind.
  - rewrite (updateArm_found _ _ _ reward _ _ _ _ _ Hrun Hfind). simpl.
    intros c l. rewrite Hchat. unfold docs at 1.
    destruct (decide (c = chatId)) as [->|Hne].
    + rewrite lookup_insert_eq. intros [= <-].
      pose proof (Hok1 _ _ Hdoc) as Hall.
      apply Forall_insert; [done|].
      unfold find_arm in Hfind. apply list_find_Some in Hfind as (Hi & _ & _).
      pose proof (Forall_lookup_1 _ _ _ _ Hall Hi) as Ha.
      unfold arm_ok in *. simpl. destruct (reward =? 1); lia.
    + rewrite lookup_insert_ne by done. apply Hok1.
  - by rewrite (updateArm_not_found _ _ _ reward _ _ _ Hrun Hfind).
Qed.

(** Every call of the service keeps the invariant. *)
Lemma run_ok Rng betaVariate c st :
  store_ok st → store_ok (run Rng betaVariate c st).
Proof.
  intros Hok. destruct c; simpl.
  - rewrite chooseArm_store. by apply getOrCreate_ok.
  - by apply updateArm_ok.
  - rewrite getBanditStats_store. by apply getOrCreate_ok.
Qed.

(** C2.  In every store that the service can produce from an empty
    collection, under any sequence of registries, each [ArmStats] entry has
    [alpha >= 1], [beta >= 1], [pulls >= 0] and
    [pulls = (alpha - 1) + (beta - 1)]. *)
Theorem reachable_store_ok Rng betaVariate st :
  reachable Rng betaVariate st →
  ∀ chatId l a, docs st !! chatId = Some l → a ∈ l →
    1 ≤ ArmStats.alpha a ∧ 1 ≤ ArmStats.beta a ∧ 0 ≤ ArmStats.pulls a ∧
    ArmStats.pulls a = (ArmStats.alpha a - 1) + (ArmStats.beta a - 1).
Proof.
  intros Hreach.
  assert (Hok : store_ok st).
  { induction Hreach as [|c st _ IH].
    - intros c l. simpl. by rewrite lookup_empty.
    - by apply run_ok. }
  intros chatId l a Hl Ha.
  pose proof (Hok _ _ Hl) as Hall.
  rewrite Forall_forall in Hall. by apply Hall.
Qed.

Lemma reachable_store_ok_witness :
  let st :=
    run unit (λ _ _ g, (1 # 2, g)%Q)
      (call_updateArm unit (source_ARMS None) "c1" "unified_base" 0)
      (run unit (λ _ _ g, (1 # 2, g)%Q)
         (call_updateArm unit (source_ARMS None) "c1" "unified_base" 1)
         empty_store) in
  let a := {| ArmStats.armId := "unified_base"; ArmStats.alpha := 2;
              ArmStats.beta := 2; ArmStats.pulls := 2 |} in
  docs st !! "c1" = Some [a; prior "unified_strict_json"] ∧
  (1 ≤ ArmStats.alpha a ∧ 1 ≤ ArmStats.beta a ∧ 0 ≤ ArmStats.pulls a ∧
   ArmStats.pulls a = (ArmStats.alpha a - 1) + (ArmStats.beta a - 1)).
Proof.
  intros st a. split; [reflexivity|].
  apply (reachable_store_ok unit (λ _ _ g, (1 # 2, g)%Q) st
           (reachable_run _ _ _ _ (reachable_run _ _ _ _ (reachable_empty _ _)))
           "c1" [a; prior "unified_strict_json"] a).
  - reflexivity.
  - apply list_elem_of_here.
Defined.

(** ** C7: reconciliation with a registry that has grown *)

Section Reconciliation.

Variable ARMS : list Arm.t.

Lemma ids_app l1 l2 : ids (l1 ++ l2) = ids l1 ++ ids l2.
Proof. unfold ids. apply fmap_app. Qed.

Lemma ids_priors registry : ids (priors registry) = map Arm.armId registry.
Proof.
  unfold ids, priors. rewrite <- list_fmap_compose. by apply list_fmap_ext.
Qed.

(** Once reconciled, a state lacks nothing. *)
Lemma missing_reconciled l : missing ARMS (l ++ priors (missing ARMS l)) = [].
Proof.
  unfold missing at 1.
  destruct (filter _ ARMS) as [|arm rest] eqn:E; [done|].
  assert (Harm : arm ∈ filter (λ arm, Arm.armId arm ∉
                   ids (l ++ priors (missing ARMS l))) ARMS).
  { rewrite E. apply list_elem_of_here. }
  apply list_elem_of_filter in Harm as [Hnot Hin].
  exfalso. apply Hnot. rewrite ids_app, ids_priors. apply elem_of_app.
  destruct (decide (Arm.armId arm ∈ ids l)) as [?|Hl]; [by left|right].
  apply list_elem_of_fmap. exists arm. split; [done|].
  unfold missing. by apply list_elem_of_filter.
Qed.

(** Nor does a state that was just created. *)
Lemma missing_priors : missing ARMS (priors ARMS) = [].
Proof.
  unfold missing. destruct (filter _ ARMS) as [|arm rest] eqn:F; [done|].
  assert (Harm : arm ∈ filter (λ arm, Arm.armId arm ∉ ids (priors ARMS)) ARMS)
    by (rewrite F; apply list_elem_of_here).
  apply list_elem_of_filter in Harm as [Hnot Hin].
  exfalso. apply Hnot. rewrite ids_priors.
  apply list_elem_of_fmap. by exists arm.
Qed.

(** Loading twice is loading once. *)
Lemma getOrCreate_idempotent chatId st :
  let r := getOrCreateBanditState ARMS chatId st in
  getOrCreateBanditState ARMS chatId r.1 = (r.1, r.2).
Proof.
  simpl. destruct (docs st !! chatId) as [l|] eqn:E.
  - rewrite (getOrCreate_present _ _ _ _ E). simpl.
    case_bool_decide as Hm; simpl.
    + erewrite getOrCreate_present by (simpl; apply lookup_insert_eq).
      rewrite missing_reconciled. simpl. by rewrite app_nil_r.
    + rewrite (getOrCreate_present _ _ _ _ E).
      rewrite bool_decide_false by (intros Hn; by apply Hn). done.
  - rewrite (getOrCreate_absent _ _ _ E). simpl.
    erewrite getOrCreate_present by (simpl; apply lookup_insert_eq).
    rewrite missing_priors. simpl. by rewrite app_nil_r.
Qed.

(** A registry arm that the stored state lacks is found, after the load, at
    the prior and behind the entries that were stored. *)
Lemma missing_arm_found l arm :
  arm ∈ ARMS → Arm.armId arm ∉ ids l →
  ∃ i, find_arm (Arm.armId arm) (l ++ priors (missing ARMS l))
         = Some (i, prior (Arm.armId arm))
       ∧ (length l ≤ i)%nat.
Proof.
  intros Hin Hnot. unfold find_arm.
  assert (Hel : prior (Arm.armId arm) ∈ priors (missing ARMS l)).
  { unfold priors. apply list_elem_of_fmap. exists arm. split; [done|].
    unfold missing. by apply list_elem_of_filter. }
  destruct (list_find_elem_of (λ a, ArmStats.armId a = Arm.armId arm)
              (l ++ priors (missing ARMS l)) (prior (Arm.armId arm)))
    as [[i y] Hfind]; [apply elem_of_app; by right|done|].
  exists i. pose proof Hfind as Hfind'.
  apply list_find_Some in Hfind' as (Hi & Hy & _).
  apply lookup_app_Some in Hi as [Hi|[Hlen Hi]].
  - exfalso. apply Hnot. rewrite <- Hy. unfold ids.
    apply list_elem_of_fmap. exists y. split; [done|].
    by eapply list_elem_of_lookup_2.
  - split; [|done]. rewrite Hfind. do 2 f_equal.
    unfold priors in Hi. rewrite list_lookup_fmap in Hi.
    destruct (missing ARMS l !! _) as [arm'|]; simpl in Hi; [|done].
    injection Hi as <-. simpl in Hy. by rewrite Hy.
Qed.

End Reconciliation.

(** C7.  When the stored state of a chat lacks arms of the registry, the load
    appends each of them, with [alpha] 1, [beta] 1 and [pulls] 0, behind the
    stored entries, which keep their place and their values; it saves the
    document exactly when it appended something; a second load appends
    nothing and saves nothing.  [chooseArm], [getBanditStats] and
    [updateArm] all begin with this load. *)
Theorem reconciliation_appends ARMS Rng betaVariate chatId st l :
  docs st !! chatId = Some l →
  let st1 := (getOrCreateBanditState ARMS chatId st).1 in
  let l1 :=
    l ++ map (λ arm, {| ArmStats.armId := Arm.armId arm;
                        ArmStats.alpha := 1; ArmStats.beta := 1;
                        ArmStats.pulls := 0 |})
             (filter (λ arm, Arm.armId arm ∉ map ArmStats.armId l) ARMS) in
  (getOrCreateBanditState ARMS chatId st).2
    = Ok (Some {| chat := chatId; arms := l1 |}) ∧
  docs st1 !! chatId = Some l1 ∧
  (∀ arm, arm ∈ ARMS → Arm.armId arm ∉ map ArmStats.armId l →
     ∃ i, find_arm (Arm.armId arm) l1
          = Some (i, {| ArmStats.armId := Arm.armId arm;
                        ArmStats.alpha := 1; ArmStats.beta := 1;
                        ArmStats.pulls := 0 |})
          ∧ (length l ≤ i)%nat) ∧
  (∀ i a, (length l ≤ i)%nat → l1 !! i = Some a →
     ArmStats.alpha a = 1 ∧ ArmStats.beta a = 1 ∧ ArmStats.pulls a = 0 ∧
     (ArmStats.armId a ∉ map ArmStats.armId l) ∧
     (∃ arm, arm ∈ ARMS ∧ Arm.armId arm = ArmStats.armId a)) ∧
  (∀ i a, l !! i = Some a → l1 !! i = Some a) ∧
  (l1 = l → st1 = st) ∧
  (l1 ≠ l → writes st1 = writes st ++ [chatId]) ∧
  getOrCreateBanditState ARMS chatId st1
    = (st1, Ok (Some {| chat := chatId; arms := l1 |})) ∧
  (∀ stage s, (chooseArm ARMS Rng betaVariate chatId stage s st).1 = st1) ∧
  (getBanditStats ARMS chatId st).1 = st1 ∧
  (∀ armId reward,
     updateArm ARMS chatId armId reward st
     = updateArm ARMS chatId armId reward st1).
Proof.
  intros Hl st1 l1.
  change l1 with (l ++ priors (missing ARMS l)).
  pose proof (getOrCreate_idempotent ARMS chatId st) as Hidem.
  simpl in Hidem. fold st1 in Hidem.
  assert (Hrun : getOrCreateBanditState ARMS chatId st
                 = (st1, Ok (Some {| chat := chatId;
                                     arms := l ++ priors (missing ARMS l) |}))).
  { subst st1. by rewrite (getOrCreate_present _ _ _ _ Hl). }
  rewrite Hrun in Hidem. simpl in Hidem.
  assert (Hsame : (l ++ priors (missing ARMS l) = l) ↔ (missing ARMS l = [])).
  { split.
    - intros Happ. apply (f_equal length) in Happ.
      rewrite length_app in Happ. unfold priors in Happ.
      rewrite length_map in Happ. apply length_zero_iff_nil. lia.
    - intros ->. apply app_nil_r. }
  split_and!.
  - by rewrite Hrun.
  - by destruct (getOrCreate_stored _ _ _ _ _ Hrun).
  - intros arm. apply missing_arm_found.
  - intros i a Hi Hlook. rewrite lookup_app_r in Hlook by done.
    destruct (priors_lookup _ _ _ Hlook) as (Halpha & Hbeta & Hpulls).
    split_and!; [done..| |].
    + unfold priors in Hlook. rewrite list_lookup_fmap in Hlook.
      destruct (missing ARMS l !! _) as [arm|] eqn:Harm; [|done].
      injection Hlook as <-. simpl.
      apply list_elem_of_lookup_2 in Harm.
      by apply list_elem_of_filter in Harm as [Hnot _].
    + unfold priors in Hlook. rewrite list_lookup_fmap in Hlook.
      destruct (missing ARMS l !! _) as [arm|] eqn:Harm; [|done].
      injection Hlook as <-. simpl. exists arm. split; [|done].
      apply list_elem_of_lookup_2 in Harm.
      by apply list_elem_of_filter in Harm as [_ Hin].
  - intros i a Hi. by apply lookup_app_l_Some.
  - intros Hm. apply Hsame in Hm. subst st1.
    rewrite (getOrCreate_present _ _ _ _ Hl). simpl.
    by rewrite bool_decide_false by (intros Hn; by apply Hn).
  - intros Hm. subst st1. rewrite (getOrCreate_present _ _ _ _ Hl). simpl.
    rewrite bool_decide_true; [done|]. intros Hn. by apply Hm, Hsame.
  - exact Hidem.
  - intros stage s. apply chooseArm_store.
  - apply getBanditStats_store.
  - intros armId reward. unfold updateArm, bind. by rewrite Hrun, Hidem.
Qed.

Lemma reconciliation_appends_witness :
  let old := {| ArmStats.armId := "unified_base"; ArmStats.alpha := 4;
                ArmStats.beta := 2; ArmStats.pulls := 4 |} in
  let st := {| docs := {[ "c1" := [old] ]}; writes := [] |} in
  let st1 := (getOrCreateBanditState (source_ARMS None) "c1" st).1 in
  docs st1 !! "c1"
  = Some [ {| ArmStats.armId := "unified_base"; ArmStats.alpha := 4;
              ArmStats.beta := 2; ArmStats.pulls := 4 |};
           {| ArmStats.armId := "unified_strict_json"; ArmStats.alpha := 1;
              ArmStats.beta := 1; ArmStats.pulls := 0 |} ] ∧
  writes st1 = ["c1"] ∧
  (getOrCreateBanditState (source_ARMS None) "c1" st1).1 = st1.
Proof.
  intros old st st1.
  destruct (reconciliation_appends (source_ARMS None) unit
              (λ _ _ g, (1 # 2, g)%Q) "c1" st [old] eq_refl)
    as (_ & Hdoc & _ & _ & _ & _ & Hw & Hidem & _).
  split_and!.
  - exact Hdoc.
  - apply Hw. discriminate.
  - fold st1 in Hidem. by rewrite Hidem.
Defined.

(** A string that differs from every element of an explicit list. *)
Ltac not_in_list :=
  let H := fresh "Hin" in
  intros H;
  repeat (apply elem_of_cons in H as [H|H]; [discriminate H|]);
  exact (not_elem_of_nil _ H).

(** ** C8: selection does not touch the statistics *)

(** C8.  The store that [chooseArm] leaves is the store that the load leaves,
    whatever the stage and the samples, also when it throws.  Every document
    stored before the call is still stored, extended at most by entries at
    the prior, and only if it is the document of the chat of the call; every
    arm that was found in it is found again with the same [alpha], [beta] and
    [pulls].  A chat without a document gets one with every registry arm at
    [{alpha: 1, beta: 1, pulls: 0}]. *)
Theorem chooseArm_keeps_statistics ARMS Rng betaVariate chatId stage s st :
  let st' := (chooseArm ARMS Rng betaVariate chatId stage s st).1 in
  st' = (getOrCreateBanditState ARMS chatId st).1 ∧
  (∀ c l, docs st !! c = Some l →
     ∃ extra,
       docs st' !! c = Some (l ++ extra) ∧
       Forall (λ a, ArmStats.alpha a = 1 ∧ ArmStats.beta a = 1 ∧
                    ArmStats.pulls a = 0) extra ∧
       (c ≠ chatId → extra = []) ∧
       (∀ i a, l !! i = Some a → (l ++ extra) !! i = Some a) ∧
       (∀ armId i a, find_arm armId l = Some (i, a) →
                     find_arm armId (l ++ extra) = Some (i, a))) ∧
  (docs st !! chatId = None →
     docs st' !! chatId
     = Some (map (λ arm, {| ArmStats.armId := Arm.armId arm;
                            ArmStats.alpha := 1; ArmStats.beta := 1;
                            ArmStats.pulls := 0 |}) ARMS) ∧
     ∀ c, c ≠ chatId → docs st' !! c = docs st !! c).
Proof.
  intros st'. subst st'. rewrite chooseArm_store. split_and!; [done| |].
  - intros c l Hl.
    destruct (getOrCreate_extends ARMS chatId st c l Hl)
      as (extra & Hdoc & Hprior & Hother).
    exists extra. split_and!; [done..| |].
    + intros i a Hi. by apply lookup_app_l_Some.
    + intros armId i a Hfind. by apply list_find_app_l.
  - intros Hnone. rewrite (getOrCreate_absent _ _ _ Hnone). simpl.
    split; [by rewrite lookup_insert_eq|].
    intros c Hc. by rewrite lookup_insert_ne.
Qed.

Lemma chooseArm_keeps_statistics_witness :
  let old := {| ArmStats.armId := "unified_base"; ArmStats.alpha := 4;
                ArmStats.beta := 2; ArmStats.pulls := 4 |} in
  let st := {| docs := {[ "c1" := [old] ]}; writes := [] |} in
  let st' := (chooseArm (source_ARMS None) unit (λ _ _ g, (1 # 2, g)%Q)
                "c1" None {| gen := tt; drawn := [] |} st).1 in
  ∃ extra, docs st' !! "c1" = Some ([old] ++ extra)
           ∧ find_arm "unified_base" ([old] ++ extra) = Some (0%nat, old).
Proof.
  intros old st st'.
  destruct (chooseArm_keeps_statistics (source_ARMS None) unit
              (λ _ _ g, (1 # 2, g)%Q) "c1" None {| gen := tt; drawn := [] |}
              st) as (_ & Hkept & _).
  destruct (Hkept "c1" [old] eq_refl)
    as (extra & Hdoc & _ & _ & _ & Hfind).
  exists extra. split; [exact Hdoc|]. by apply Hfind.
Defined.

(** ** C5: a reward for an arm that is not known *)

(** Against C5 as it is stated.  The call below names an arm that neither the
    registry nor any stored state has.  It returns [null], and yet the chat,
    which had no document, has one afterwards, written by the load. *)
Lemma unknown_arm_call_writes_document :
  let r := updateArm (source_ARMS None) "c1" "no_such_arm" 1 empty_store in
  ("no_such_arm" ∉ map Arm.armId (source_ARMS None)) ∧
  docs empty_store !! "c1" = None ∧
  r.2 = Ok None ∧
  docs r.1 !! "c1" = Some (priors (source_ARMS None)) ∧
  writes r.1 = ["c1"].
Proof.
  simpl. split_and!; try reflexivity. not_in_list.
Qed.

(** C5, amended.  When neither the registry nor the stored state of the chat
    has the arm, [updateArm] returns [null] and leaves the store as the load
    leaves it: no stored entry changes, the load may create the chat's
    document or append the registry arms it lacks, and nothing is written
    when the stored state already has every registry arm. *)
Theorem updateArm_unknown_arm ARMS chatId armId reward st :
  armId ∉ map Arm.armId ARMS →
  (∀ l, docs st !! chatId = Some l → armId ∉ ids l) →
  let st' := (updateArm ARMS chatId armId reward st).1 in
  (updateArm ARMS chatId armId reward st).2 = Ok None ∧
  st' = (getOrCreateBanditState ARMS chatId st).1 ∧
  (∀ c l, docs st !! c = Some l →
     ∃ extra, docs st' !! c = Some (l ++ extra) ∧
              Forall (λ a, ArmStats.alpha a = 1 ∧ ArmStats.beta a = 1 ∧
                           ArmStats.pulls a = 0) extra ∧
              (c ≠ chatId → extra = [])) ∧
  (∀ l, docs st !! chatId = Some l → missing ARMS l = [] → st' = st).
Proof.
  intros Hreg Hstored st'.
  destruct (getOrCreateBanditState ARMS chatId st) as [st1 o] eqn:Hrun.
  assert (Hnone : ∃ state, o = Ok (Some state)
                           ∧ find_arm armId (arms state) = None).
  { destruct (docs st !! chatId) as [l|] eqn:E.
    - rewrite (getOrCreate_present _ _ _ _ E) in Hrun.
      injection Hrun as <- <-. eexists. split; [done|]. simpl.
      apply list_find_None, Forall_forall. intros a Ha Hid.
      apply elem_of_app in Ha as [Ha|Ha].
      + apply (Hstored l eq_refl). rewrite <- Hid.
        unfold ids. apply list_elem_of_fmap. by exists a.
      + apply Hreg. rewrite <- Hid. rewrite <- (ids_priors ARMS).
        unfold ids. apply list_elem_of_fmap. exists a. split; [done|].
        unfold priors, missing in *.
        apply list_elem_of_fmap in Ha as (arm & -> & Harm).
        apply list_elem_of_filter in Harm as [_ Harm].
        apply list_elem_of_fmap. by exists arm.
    - rewrite (getOrCreate_absent _ _ _ E) in Hrun.
      injection Hrun as <- <-. eexists. split; [done|]. simpl.
      apply list_find_None, Forall_forall. intros a Ha Hid.
      apply Hreg. rewrite <- Hid, <- (ids_priors ARMS).
      unfold ids. apply list_elem_of_fmap. by exists a. }
  destruct Hnone as (state & -> & Hfind).
  assert (Hupd : updateArm ARMS chatId armId reward st = (st1, Ok None))
    by (by apply (updateArm_not_found _ _ _ _ _ _ _ Hrun Hfind)).
  subst st'. rewrite Hupd. simpl.
  assert (Hst1 : st1 = (getOrCreateBanditState ARMS chatId st).1)
    by (by rewrite Hrun).
  split_and!; [done|done| |].
  - intros c l Hc. rewrite Hst1. by apply getOrCreate_extends.
  - intros l Hl Hm. rewrite Hst1, (getOrCreate_present _ _ _ _ Hl). simpl.
    by rewrite bool_decide_false by (intros Hn; by apply Hn).
Qed.

Lemma updateArm_unknown_arm_witness :
  let st := {| docs := {[ "c1" := priors (source_ARMS None) ]};
               writes := ["c1"] |} in
  updateArm (source_ARMS None) "c1" "no_such_arm" 1 st = (st, Ok None).
Proof.
  intros st.
  destruct (updateArm_unknown_arm (source_ARMS None) "c1" "no_such_arm" 1 st)
    as (Hres & _ & _ & Hsame).
  - not_in_list.
  - intros l [= <-]. not_in_list.
  - specialize (Hsame _ eq_refl eq_refl).
    destruct (updateArm _ _ _ _ st) as [st' o]. simpl in *. by subst.
Defined.

(** ** C10: inspecting the statistics *)

(** The object built by the [reduce]: under each id, the statistics of the
    last entry with that id. *)
Lemma reduce_lookup (l : list ArmStats.t) (acc : gmap string Stats.t) id :
  foldl (λ (acc : gmap string Stats.t) arm,
           <[ArmStats.armId arm := stats_of arm]> acc) acc l !! id
  = match last (filter (λ a, ArmStats.armId a = id) l) with
    | Some a => Some (stats_of a)
    | None => acc !! id
    end.
Proof.
  revert acc. induction l as [|a l IH]; intros acc; simpl; [done|].
  rewrite IH, filter_cons. destruct (decide (ArmStats.armId a = id)) as [<-|Hne].
  - destruct (filter _ l) as [|b l'] eqn:E; simpl.
    + by rewrite lookup_insert_eq.
    + destruct (last (b :: l')) eqn:F; [done|]. by apply last_None in F.
  - destruct (last (filter _ l)); [done|]. by rewrite lookup_insert_ne.
Qed.

(** Against C10 as it is stated.  The call below only inspects a chat that
    has no document; afterwards the chat has one, and the journal shows the
    write. *)
Lemma getBanditStats_creates_document :
  let r := getBanditStats (source_ARMS None) "c1" empty_store in
  docs empty_store !! "c1" = None ∧
  docs r.1 !! "c1" = Some (priors (source_ARMS None)) ∧
  writes r.1 = ["c1"] ∧
  r.1 ≠ empty_store.
Proof.
  simpl. split_and!; try reflexivity. discriminate.
Qed.

(** C10, amended.  [getBanditStats] returns, for each arm id of the state it
    loads, the [alpha], [beta] and [pulls] stored under that id (those of the
    last entry, should an id occur twice).  It changes no stored entry, but it
    is not free of effects: the store it leaves is the store the load leaves,
    so a chat without a document gets one and a stored state gets the
    registry arms it lacks; it writes nothing when the stored state already
    has every registry arm. *)
Theorem getBanditStats_reads_loaded_state ARMS chatId st :
  let st' := (getBanditStats ARMS chatId st).1 in
  st' = (getOrCreateBanditState ARMS chatId st).1 ∧
  (∃ state m,
     (getOrCreateBanditState ARMS chatId st).2 = Ok (Some state) ∧
     docs st' !! chatId = Some (arms state) ∧
     (getBanditStats ARMS chatId st).2 = Ok m ∧
     ∀ id, m !! id =
           stats_of <$> last (filter (λ a, ArmStats.armId a = id) (arms state)))
  ∧
  (∀ c l, docs st !! c = Some l →
     ∃ extra,
       docs st' !! c = Some (l ++ extra) ∧
       Forall (λ a, ArmStats.alpha a = 1 ∧ ArmStats.beta a = 1 ∧
                    ArmStats.pulls a = 0) extra ∧
       (c ≠ chatId → extra = [])) ∧
  (∀ l, docs st !! chatId = Some l → missing ARMS l = [] → st' = st) ∧
  (docs st !! chatId = None →
     docs st' !! chatId
     = Some (map (λ arm, {| ArmStats.armId := Arm.armId arm;
                            ArmStats.alpha := 1; ArmStats.beta := 1;
                            ArmStats.pulls := 0 |}) ARMS)).
Proof.
  intros st'. subst st'. rewrite getBanditStats_store. split_and!.
  - done.
  - destruct (getOrCreate_total ARMS chatId st) as (state & Hstate & _).
    unfold getBanditStats, bind.
    destruct (getOrCreateBanditState ARMS chatId st) as [st1 o] eqn:Hrun.
    simpl in Hstate. subst o. simpl. eexists _, _. split_and!; [done| |done|].
    + by destruct (getOrCreate_stored _ _ _ _ _ Hrun).
    + intros id. rewrite reduce_lookup. rewrite lookup_empty.
      by destruct (last _).
  - intros c l Hl. by apply getOrCreate_extends.
  - intros l Hl Hm. rewrite (getOrCreate_present _ _ _ _ Hl). simpl.
    by rewrite bool_decide_false by (intros Hn; by apply Hn).
  - intros Hnone. rewrite (getOrCreate_absent _ _ _ Hnone). simpl.
    by rewrite lookup_insert_eq.
Qed.

Lemma getBanditStats_reads_loaded_state_witness :
  let old := {| ArmStats.armId := "unified_base"; ArmStats.alpha := 4;
                ArmStats.beta := 2; ArmStats.pulls := 4 |} in
  let st := {| docs := {[ "c1" := [old; prior "unified_strict_json"] ]};
               writes := [] |} in
  (getBanditStats (source_ARMS None) "c1" st).1 = st ∧
  ∃ m, (getBanditStats (source_ARMS None) "c1" st).2 = Ok m ∧
       m !! "unified_base" = Some (stats_of old).
Proof.
  intros old st.
  destruct (getBanditStats_reads_loaded_state (source_ARMS None) "c1" st)
    as (_ & (state & m & Hstate & _ & Hm & Hlook) & _ & Hsame & _).
  split.
  - by apply (Hsame [old; prior "unified_strict_json"]).
  - exists m. split; [exact Hm|]. rewrite Hlook.
    injection Hstate as <-. reflexivity.
Defined.

(** ** C6: the arm that is chosen *)

Section Choice.

Variable ARMS : list Arm.t.
Variable Rng : Type.
Variable betaVariate : Z → Z → Rng → Q * Rng.

Abbreviation sample_loop := (sample_loop Rng betaVariate).
Abbreviation draws := (draws Rng betaVariate).

(** The loop calls [sampleBeta] once for each candidate, in order, and pushes
    one sample for it. *)
Lemma sample_loop_spec state_arms candidates acc s :
  sample_loop state_arms candidates acc s =
    (acc ++ zip_with (λ c x, {| armConfig := c; sample := x |}) candidates
              (draws (params_of state_arms candidates) (gen _ s)).1,
     {| gen := (draws (params_of state_arms candidates) (gen _ s)).2;
        drawn := drawn _ s ++ params_of state_arms candidates |}).
Proof.
  revert acc s. induction candidates as [|c rest IH]; intros acc s; simpl.
  - rewrite !app_nil_r. by destruct s.
  - unfold sampleBeta.
    destruct (stats_or_prior (Arm.armId c) state_arms) as [al be]. simpl.
    destruct (betaVariate al be (gen _ s)) as [x g] eqn:Hx.
    rewrite IH. simpl.
    destruct (draws (params_of state_arms rest) g) as [xs g'].
    simpl. by rewrite <- !app_assoc.
Qed.

Lemma length_draws params g : length (draws params g).1 = length params.
Proof.
  revert g. induction params as [|[al be] rest IH]; intros g; simpl; [done|].
  destruct (betaVariate al be g) as [x g1].
  specialize (IH g1). destruct (draws rest g1) as [xs g2]. simpl in *.
  by rewrite IH.
Qed.

(** The first element of the sorted array is the first element of the array,
    in its order before the sort, whose sample no other exceeds. *)
Lemma sort_head (l : list Sample) :
  match sort l with
  | [] => l = []
  | first :: _ =>
      ∃ i, l !! i = Some first ∧
           (∀ j x, l !! j = Some x → (sample x <= sample first)%Q) ∧
           (∀ j x, l !! j = Some x → (j < i)%nat →
                   (sample x < sample first)%Q)
  end.
Proof.
  induction l as [|x l IH]; simpl; [done|].
  fold (sort l). destruct (sort l) as [|y rest]; simpl.
  - subst l. exists 0%nat. split_and!; [done| |].
    + intros [|j] z; simpl; [|done]. intros [= <-]. apply Qle_refl.
    + intros j z _ Hj. lia.
  - destruct IH as (i & Hi & Hmax & Hfirst).
    destruct (Qlt_le_dec 0 (compareFn x y)) as [Hlt|Hle].
    + assert (Hxy : (sample x < sample y)%Q)
        by (apply Qlt_minus_iff; exact Hlt).
      exists (S i). split_and!; [done| |].
      * intros [|j] z; simpl.
        -- intros [= <-]. by apply Qlt_le_weak.
        -- apply Hmax.
      * intros [|j] z; simpl.
        -- by intros [= <-] _.
        -- intros Hz Hj. apply (Hfirst j z Hz). lia.
    + assert (Hyx : (sample y <= sample x)%Q).
      { apply Qnot_lt_le. intros Hn. apply Qlt_minus_iff in Hn.
        by apply (Qle_not_lt _ _ Hle). }
      exists 0%nat. split_and!; [done| |].
      * intros [|j] z; simpl.
        -- intros [= <-]. apply Qle_refl.
        -- intros Hz. eapply Qle_trans; [by eapply Hmax|done].
      * intros j z _ Hj. lia.
Qed.

(** The sort rearranges the array and leaves it in descending order. *)
Lemma sort_insert_perm x (sorted : list Sample) :
  sort_insert x sorted ≡ₚ x :: sorted.
Proof.
  induction sorted as [|y rest IH]; simpl; [done|].
  destruct (Qlt_le_dec 0 (compareFn x y)); [|done].
  rewrite IH. apply Permutation_swap.
Qed.

Lemma sort_perm (l : list Sample) : sort l ≡ₚ l.
Proof.
  induction l as [|x l IH]; simpl; [done|].
  fold (sort l). by rewrite sort_insert_perm, IH.
Qed.

Lemma sort_insert_sorted x (sorted : list Sample) :
  Sorted descending sorted → Sorted descending (sort_insert x sorted).
Proof.
  induction sorted as [|y rest IH]; intros Hs; simpl.
  - by repeat constructor.
  - apply Sorted_inv in Hs as [Hrest Hhd].
    destruct (Qlt_le_dec 0 (compareFn x y)) as [Hlt|Hle].
    + constructor; [by apply IH|].
      assert (Hxy : descending y x).
      { apply Qlt_le_weak, Qlt_minus_iff. exact Hlt. }
      destruct rest as [|z rest]; simpl; [by constructor|].
      destruct (Qlt_le_dec 0 (compareFn x z)); constructor; [|done].
      by apply HdRel_inv in Hhd.
    + constructor; [by constructor|]. constructor.
      apply Qnot_lt_le. intros Hn. apply Qlt_minus_iff in Hn.
      by apply (Qle_not_lt _ _ Hle).
Qed.

Lemma sort_sorted (l : list Sample) : Sorted descending (sort l).
Proof.
  induction l as [|x l IH]; simpl; [constructor|].
  fold (sort l). by apply sort_insert_sorted.
Qed.

(** After the load every registry arm has an entry, so the default of
    [stats_or_prior] is not used. *)
Lemma loaded_has_registry chatId st st1 state arm :
  getOrCreateBanditState ARMS chatId st = (st1, Ok (Some state)) →
  arm ∈ ARMS →
  ∃ i a, find_arm (Arm.armId arm) (arms state) = Some (i, a) ∧
         stats_or_prior (Arm.armId arm) (arms state)
         = (ArmStats.alpha a, ArmStats.beta a).
Proof.
  intros Hrun Harm.
  assert (Hin : Arm.armId arm ∈ ids (arms state)).
  { destruct (docs st !! chatId) as [l|] eqn:E.
    - rewrite (getOrCreate_present _ _ _ _ E) in Hrun.
      injection Hrun as _ <-. simpl. rewrite ids_app, ids_priors.
      apply elem_of_app.
      destruct (decide (Arm.armId arm ∈ ids l)) as [?|Hl]; [by left|right].
      apply list_elem_of_fmap. exists arm. split; [done|].
      unfold missing. by apply list_elem_of_filter.
    - rewrite (getOrCreate_absent _ _ _ E) in Hrun.
      injection Hrun as _ <-. simpl. rewrite ids_priors.
      apply list_elem_of_fmap. by exists arm. }
  unfold ids in Hin. apply list_elem_of_fmap in Hin as (a0 & Hid & Ha0).
  destruct (list_find_elem_of (λ a, ArmStats.armId a = Arm.armId arm)
              (arms state) a0 Ha0 (eq_sym Hid)) as [[i a] Hfind].
  exists i, a. unfold stats_or_prior, find_arm. by rewrite Hfind.
Qed.

End Choice.

(** Pairing as many samples as there are candidates loses neither. *)
Lemma zip_samples (cs : list Arm.t) (xs : list Q) :
  length xs = length cs →
  map armConfig (zip_with (λ c x, {| armConfig := c; sample := x |}) cs xs)
    = cs ∧
  map sample (zip_with (λ c x, {| armConfig := c; sample := x |}) cs xs) = xs.
Proof.
  revert xs. induction cs as [|c cs IH]; intros [|x xs] Hlen; simpl in *;
    try done.
  destruct (IH xs) as [-> ->]; [lia|done].
Qed.

(** The parameters of a draw are the statistics stored for the arm before the
    call; an arm without a stored entry is drawn at 1 and 1. *)
Lemma stats_or_prior_loaded ARMS chatId st st1 state armId :
  getOrCreateBanditState ARMS chatId st = (st1, Ok (Some state)) →
  stats_or_prior armId (arms state) =
    match docs st !! chatId ≫= find_arm armId with
    | Some (_, a) => (ArmStats.alpha a, ArmStats.beta a)
    | None => (1, 1)
    end.
Proof.
  assert (Hprior : ∀ registry,
    stats_or_prior armId (priors registry) = (1, 1)).
  { intros registry. unfold stats_or_prior, find_arm.
    destruct (list_find _ (priors registry)) as [[j a]|] eqn:Hfind; [|done].
    apply list_find_Some in Hfind as (Hj & _).
    by destruct (priors_lookup _ _ _ Hj) as (-> & -> & _). }
  destruct (docs st !! chatId) as [l|] eqn:Hl; simpl.
  - rewrite (getOrCreate_present _ _ _ _ Hl). intros [= _ <-]. simpl.
    unfold stats_or_prior, find_arm.
    destruct (list_find _ l) as [[i a]|] eqn:Hfind.
    + by rewrite (list_find_app_l _ _ _ _ _ Hfind).
    + rewrite (list_find_app_r _ _ _ Hfind).
      specialize (Hprior (missing ARMS l)).
      unfold stats_or_prior, find_arm in Hprior.
      by destruct (list_find _ (priors (missing ARMS l))) as [[j a]|].
  - rewrite (getOrCreate_absent _ _ _ Hl). intros [= _ <-]. apply Hprior.
Qed.

(** C6.  When the registry has arms for the stage, [chooseArm] calls
    [sampleBeta] exactly once for each of them, in registry order, with the
    [alpha] and [beta] that the chat's document held for that arm before the
    call (1 and 1 for an arm without a stored entry, as for a chat without a
    document), and returns the [armId], [modelName], [temperature] and
    [notes] of the first arm, in registry order, whose sample no other arm's
    sample exceeds: every arm before it has a strictly smaller sample. *)
Theorem chooseArm_first_maximal ARMS Rng betaVariate chatId stage s st :
  let candidates :=
    filter (λ a, Arm.stage a = default "unified" stage) ARMS in
  let stored (c : Arm.t) : Z * Z :=
    match docs st !! chatId ≫= find_arm (Arm.armId c) with
    | Some (_, a) => (ArmStats.alpha a, ArmStats.beta a)
    | None => (1, 1)
    end in
  candidates ≠ [] →
  ∃ st1 state samples s' i first,
    getOrCreateBanditState ARMS chatId st = (st1, Ok (Some state)) ∧
    docs st1 !! chatId = Some (arms state) ∧
    sample_loop Rng betaVariate (arms state) candidates [] s = (samples, s') ∧
    map armConfig samples = candidates ∧
    params_of (arms state) candidates = map stored candidates ∧
    map sample samples
      = (draws Rng betaVariate (map stored candidates) (gen _ s)).1 ∧
    drawn _ s' = drawn _ s ++ map stored candidates ∧
    length (drawn _ s') = (length (drawn _ s) + length candidates)%nat ∧
    (∀ c, c ∈ candidates →
       ∃ j a, find_arm (Arm.armId c) (arms state) = Some (j, a) ∧
              stored c = (ArmStats.alpha a, ArmStats.beta a)) ∧
    (∀ c l j a, c ∈ candidates → docs st !! chatId = Some l →
       find_arm (Arm.armId c) l = Some (j, a) →
       stored c = (ArmStats.alpha a, ArmStats.beta a)) ∧
    samples !! i = Some first ∧
    (∀ j x, samples !! j = Some x → (sample x <= sample first)%Q) ∧
    (∀ j x, samples !! j = Some x → (j < i)%nat →
            (sample x < sample first)%Q) ∧
    chooseArm ARMS Rng betaVariate chatId stage s st =
      (st1,
       Ok ({| Selection.armId := Arm.armId (armConfig first);
              Selection.modelName := Arm.modelName (armConfig first);
              Selection.temperature := Arm.temperature (armConfig first);
              Selection.notes := Arm.notes (armConfig first) |}, s')).
Proof.
  intros candidates stored Hcand.
  destruct (getOrCreate_total ARMS chatId st) as (state & Hstate & _).
  destruct (getOrCreateBanditState ARMS chatId st) as [st1 o] eqn:Hrun.
  simpl in Hstate. subst o.
  assert (Hparams : params_of (arms state) candidates = map stored candidates).
  { unfold params_of. apply map_ext. intros c.
    by apply (stats_or_prior_loaded _ _ _ _ _ _ Hrun). }
  pose proof (sample_loop_spec Rng betaVariate (arms state) candidates [] s)
    as Hloop. simpl in Hloop. rewrite Hparams in Hloop.
  set (xs := (draws Rng betaVariate (map stored candidates) (gen _ s)).1)
    in *.
  set (samples :=
         zip_with (λ c x, {| armConfig := c; sample := x |}) candidates xs)
    in *.
  assert (Hlen : length xs = length candidates).
  { subst xs. rewrite length_draws. by rewrite length_map. }
  pose proof (sort_head samples) as Hhead.
  destruct (sort samples) as [|first rest] eqn:Hsort.
  { exfalso. apply Hcand. destruct candidates as [|c cs]; [done|].
    destruct xs; [done|]. by subst samples. }
  destruct Hhead as (i & Hi & Hmax & Hfirst).
  eexists st1, state, samples, _, i, first. split_and!.
  - done.
  - by destruct (getOrCreate_stored _ _ _ _ _ Hrun).
  - exact Hloop.
  - by apply zip_samples.
  - exact Hparams.
  - by apply zip_samples.
  - done.
  - simpl. rewrite length_app. by rewrite length_map.
  - intros c Hc.
    destruct (loaded_has_registry ARMS chatId st st1 state c Hrun)
      as (j & a & Hfind & Hstats).
    { subst candidates. by apply list_elem_of_filter in Hc as [_ Hc]. }
    exists j, a. split; [done|].
    by rewrite <- Hstats, (stats_or_prior_loaded _ _ _ _ _ _ Hrun).
  - intros c l j a _ Hl Hfind. subst stored. simpl. rewrite Hl. simpl.
    by rewrite Hfind.
  - exact Hi.
  - exact Hmax.
  - exact Hfirst.
  - unfold chooseArm, bind. rewrite Hrun. fold candidates.
    rewrite bool_decide_false.
    + rewrite Hloop, Hsort. done.
    + intros Hz. apply Hcand. by apply length_zero_iff_nil.
Qed.

Lemma chooseArm_first_maximal_witness :
  let learned := {| ArmStats.armId := "unified_strict_json";
                    ArmStats.alpha := 5; ArmStats.beta := 1;
                    ArmStats.pulls := 4 |} in
  let st := {| docs := {[ "c1" := [learned] ]}; writes := [] |} in
  ∃ st1 s',
    chooseArm (source_ARMS None) unit mean "c1" None
      {| gen := tt; drawn := [] |} st =
      (st1,
       Ok ({| Selection.armId := "unified_strict_json";
              Selection.modelName := "gemini-2.5-flash";
              Selection.temperature := 5 # 100;
              Selection.notes := "Stricter JSON-only response" |}, s')) ∧
    drawn _ s' = [(1, 1); (5, 1)].
Proof.
  intros learned st.
  destruct (chooseArm_first_maximal (source_ARMS None) unit mean "c1"
              None {| gen := tt; drawn := [] |} st)
    as (st1 & state & samples & s' & i & first & _ & _ & Hloop & _ & _ & _
        & Hdrawn & _ & _ & _ & _ & _ & _ & Hchoose).
  - discriminate.
  - exists st1, s'. split; [|exact Hdrawn].
    pose proof Hchoose as Hrun. vm_compute in Hrun.
    injection Hrun as _ Hid Hmodel Htemp Hnotes _.
    rewrite Hchoose. f_equal. f_equal. f_equal.
    destruct first as [[id stage model notes temp] x]. simpl in *.
    by subst.
Defined.

(** Two equal samples: the arm that comes first in the registry is chosen. *)
Example chooseArm_tie :
  (chooseArm (source_ARMS None) (list Q) replay "c1" None
     {| gen := [(1 # 2)%Q; (2 # 4)%Q]; drawn := [] |} empty_store).2 =
  Ok ({| Selection.armId := "unified_base";
         Selection.modelName := "gemini-2.5-flash";
         Selection.temperature := (1 # 10)%Q;
         Selection.notes := "Base unified prompt" |},
      {| gen := []; drawn := [(1, 1); (1, 1)] |}).
Proof. reflexivity. Qed.

(** A larger sample further down the registry wins. *)
Example chooseArm_larger :
  (chooseArm (source_ARMS None) (list Q) replay "c1" None
     {| gen := [(3 # 10)%Q; (7 # 10)%Q]; drawn := [] |} empty_store).2 =
  Ok ({| Selection.armId := "unified_strict_json";
         Selection.modelName := "gemini-2.5-flash";
         Selection.temperature := (5 # 100)%Q;
         Selection.notes := "Stricter JSON-only response" |},
      {| gen := []; drawn := [(1, 1); (1, 1)] |}).
Proof. reflexivity. Qed.

(** ** The endpoint *)

Lemma check_access_allowed u effectiveChatId w :
  may_access u effectiveChatId w → check_access u effectiveChatId w = None.
Proof.
  intros (c & p & t & tm & Hc & Hp & Ht & Htm & Hrole).
  unfold check_access. rewrite Hc, Hp, Ht. simpl. rewrite Htm.
  destruct (String.eqb (role u) "superadmin") eqn:Hsuper; simpl; [done|].
  destruct Hrole as [Hrole|[Horg Hmem]].
  - apply String.eqb_neq in Hsuper. done.
  - rewrite Horg, String.eqb_refl. simpl.
    destruct (find _ (members tm)) eqn:Hfind; [done|].
    apply list_elem_of_In in Hmem.
    pose proof (find_none _ _ Hfind _ Hmem) as Hno. simpl in Hno.
    by rewrite String.eqb_refl in Hno.
Qed.

Lemma truthy_Some s : s ≠ "" → truthy (Some s) = true.
Proof.
  intros Hs. simpl. destruct (String.eqb s "") eqn:E; [|done].
  by apply String.eqb_eq in E.
Qed.

(** The guard of lines 467-470 lets a valid body through. *)
Lemma valid_body_guard armIdStr rewardNum :
  armIdStr ≠ "" → rewardNum = 0 ∨ rewardNum = 1 →
  String.eqb armIdStr "" || (negb (rewardNum =? 0) && negb (rewardNum =? 1))
  = false.
Proof.
  intros Hs Hr. destruct (String.eqb armIdStr "") eqn:E.
  - by apply String.eqb_eq in E.
  - by destruct Hr as [-> | ->].
Qed.

(** The gate answers at once when the message already has feedback. *)
Lemma feedback_gate_rated body rewardNum effectiveArmId w id m f :
  messageId body = Some id → id ≠ "" →
  messages w !! id = Some m →
  Message.feedback m = Some f →
  feedback_gate body rewardNum effectiveArmId w =
    (w, Some (AlreadyRated effectiveArmId rewardNum f)).
Proof.
  intros Hid Hidne Hm Hf.
  unfold feedback_gate. rewrite Hid, (truthy_Some _ Hidne). simpl.
  unfold findOneAndUpdate_feedback. rewrite Hm, Hf, Hm, Hf. done.
Qed.

(** C3.  A submission that names a message whose [feedback] is already set
    changes nothing, whatever else it holds: not the message, and no arm's
    [alpha], [beta] or [pulls].  When it passes the endpoint's checks, with
    either reward, it answers [already_rated] with the feedback on record. *)
Theorem submitFeedback_already_rated ARMS body u w id m f :
  messageId body = Some id → id ≠ "" →
  messages w !! id = Some m →
  Message.feedback m = Some f →
  (submitFeedback ARMS body u w).1 = w ∧
  ∀ armIdStr rewardNum,
    valid_body body armIdStr rewardNum →
    Message.sender m = chatbot →
    Message.chat m ≠ "" →
    may_access u (Message.chat m) w →
    (submitFeedback ARMS body u w).2 =
      AlreadyRated (arm_of_message m armIdStr) rewardNum f.
Proof.
  intros Hid Hidne Hm Hf. split.
  - unfold submitFeedback.
    destruct (reward body) as [rewardNum|]; [|done].
    destruct (_ || _); [done|].
    destruct (resolve_target _ _ _) as [resp|[effectiveChatId effectiveArmId]];
      [done|].
    destruct (negb _); [done|].
    destruct (check_access _ _ _) as [resp|]; [done|].
    by rewrite (feedback_gate_rated _ _ _ _ _ _ _ Hid Hidne Hm Hf).
  - intros armIdStr rewardNum (Harm & Hne & Hreward & Hr) Hsender Hchat Hacc.
    unfold submitFeedback. rewrite Harm, Hreward. simpl.
    rewrite (valid_body_guard _ _ Hne Hr).
    unfold resolve_target. rewrite Hid, (truthy_Some _ Hidne). simpl.
    rewrite Hm, Hsender. rewrite (truthy_Some _ Hchat). simpl.
    rewrite (check_access_allowed _ _ _ Hacc).
    by rewrite (feedback_gate_rated _ _ _ _ _ _ _ Hid Hidne Hm Hf).
Qed.

Lemma submitFeedback_already_rated_witness :
  let u := {| userId := "u1"; organization := "o1"; role := "member" |} in
  let w0 :=
    {| messages :=
         {[ "m1" := {| Message.chat := "c1"; Message.sender := chatbot;
                       Message.armId := Some "unified_base";
                       Message.feedback := None |} ]};
       chats := {[ "c1" := {| project := "p1" |} ]};
       projects := {[ "p1" := {| team := Some "t1" |} ]};
       teams := {[ "t1" := {| team_organization := "o1";
                              members := ["u0"; "u1"] |} ]};
       bandit := empty_store |} in
  let first := {| arm_id := Some "unified_base"; reward := Some 1;
                  messageId := Some "m1"; chatId := None |} in
  let second := {| arm_id := Some "unified_base"; reward := Some 0;
                   messageId := Some "m1"; chatId := None |} in
  let w1 := (submitFeedback (source_ARMS None) first u w0).1 in
  find_arm "unified_base" <$> docs (bandit w1) !! "c1"
    = Some (Some (0%nat, {| ArmStats.armId := "unified_base";
                            ArmStats.alpha := 2; ArmStats.beta := 1;
                            ArmStats.pulls := 1 |})) ∧
  submitFeedback (source_ARMS None) second u w1
    = (w1, AlreadyRated "unified_base" 0 up).
Proof.
  intros u w0 first second w1. split; [reflexivity|].
  destruct (submitFeedback_already_rated (source_ARMS None) second u w1 "m1"
              {| Message.chat := "c1"; Message.sender := chatbot;
                 Message.armId := Some "unified_base";
                 Message.feedback := Some up |} up)
    as [Hsame Hanswer]; [reflexivity|discriminate|reflexivity|reflexivity|].
  rewrite (surjective_pairing (submitFeedback _ second u w1)), Hsame.
  rewrite (Hanswer "unified_base" 0); [reflexivity|..].
  - repeat split; [discriminate | by left].
  - reflexivity.
  - discriminate.
  - exists {| project := "p1" |}, {| team := Some "t1" |}, "t1",
      {| team_organization := "o1"; members := ["u0"; "u1"] |}.
    split_and!; [reflexivity..|]. right. split; [reflexivity|].
    apply list_elem_of_further, list_elem_of_here.
Defined.

(** ** C4: feedback addressed by chat *)

Section ByChat.

Variable ARMS : list Arm.t.

Lemma check_access_refusal u effectiveChatId w r :
  check_access u effectiveChatId w = Some r →
  ∃ status error, r = Status status error.
Proof.
  unfold check_access. intros H.
  repeat match type of H with
         | context [match ?x with _ => _ end] => destruct x
         end; simplify_eq; eauto.
Qed.

(** Without a [messageId] the gate is not entered. *)
Lemma feedback_gate_skipped body rewardNum effectiveArmId w :
  truthy (messageId body) = false →
  feedback_gate body rewardNum effectiveArmId w = (w, None).
Proof. intros H. unfold feedback_gate. by rewrite H. Qed.

Lemma resolve_target_by_chat body armIdStr w :
  truthy (messageId body) = false →
  resolve_target body armIdStr w
  = inr (if truthy (chatId body) then chatId body else None, armIdStr).
Proof. intros H. unfold resolve_target. by rewrite H. Qed.

(** Without a [messageId] the answer is never [already_rated]. *)
Lemma by_chat_never_already_rated body u w arm r f :
  truthy (messageId body) = false →
  (submitFeedback ARMS body u w).2 ≠ AlreadyRated arm r f.
Proof.
  intros Hmsg. unfold submitFeedback.
  destruct (reward body) as [rewardNum|]; [|done].
  destruct (_ || _); [done|].
  rewrite (resolve_target_by_chat _ _ _ Hmsg).
  destruct (negb _); [done|].
  destruct (check_access _ _ _) as [resp|] eqn:Hacc.
  { apply check_access_refusal in Hacc as (? & ? & ->). done. }
  rewrite (feedback_gate_skipped _ _ _ _ Hmsg).
  by destruct (updateArm _ _ _ _ _) as [b [newStats|err]].
Qed.

(** A valid submission by chat runs [updateArm], whatever was submitted
    before. *)
Lemma submitFeedback_by_chat body u w c armIdStr rewardNum :
  valid_body body armIdStr rewardNum →
  truthy (messageId body) = false →
  chatId body = Some c → c ≠ "" →
  may_access u c w →
  submitFeedback ARMS body u w =
    (with_bandit w (updateArm ARMS c armIdStr rewardNum (bandit w)).1,
     match (updateArm ARMS c armIdStr rewardNum (bandit w)).2 with
     | Ok newStats => Success armIdStr rewardNum c newStats
     | Throw err => Status 500 (error_text err)
     end).
Proof.
  intros (Harm & Hne & Hreward & Hr) Hmsg Hc Hcne Hacc.
  unfold submitFeedback. rewrite Harm, Hreward. simpl.
  rewrite (valid_body_guard _ _ Hne Hr).
  rewrite (resolve_target_by_chat _ _ _ Hmsg).
  pose proof (truthy_Some _ Hcne) as Ht. simpl in Ht.
  rewrite Hc. simpl. rewrite Ht. simpl. rewrite Ht. simpl.
  rewrite (check_access_allowed _ _ _ Hacc).
  rewrite (feedback_gate_skipped _ _ _ _ Hmsg).
  by destruct (updateArm _ _ _ _ _) as [b [newStats|err]].
Qed.

Lemma may_access_with_bandit u c w b :
  may_access u c w → may_access u c (with_bandit w b).
Proof. done. Qed.

(** A loaded state lacks no registry arm. *)
Lemma loaded_missing_nil chatId st st1 state :
  getOrCreateBanditState ARMS chatId st = (st1, Ok (Some state)) →
  missing ARMS (arms state) = [].
Proof.
  destruct (docs st !! chatId) as [l|] eqn:E.
  - rewrite (getOrCreate_present _ _ _ _ E). intros [= _ <-]. simpl.
    apply missing_reconciled.
  - rewrite (getOrCreate_absent _ _ _ E). intros [= _ <-]. simpl.
    apply missing_priors.
Qed.

Lemma ids_insert (l : list ArmStats.t) i a a' :
  l !! i = Some a → ArmStats.armId a' = ArmStats.armId a →
  ids (<[i := a']> l) = ids l.
Proof.
  intros Hi Hid. unfold ids. rewrite list_fmap_insert, Hid.
  apply list_insert_id. by rewrite list_lookup_fmap, Hi.
Qed.

Lemma rewarded_once r a :
  r = 0 ∨ r = 1 →
  {| ArmStats.armId := ArmStats.armId a;
     ArmStats.alpha :=
       if r =? 1 then ArmStats.alpha a + 1 else ArmStats.alpha a;
     ArmStats.beta :=
       if r =? 1 then ArmStats.beta a else ArmStats.beta a + 1;
     ArmStats.pulls := ArmStats.pulls a + 1 |} = rewarded 1 r a.
Proof. intros [-> | ->]; unfold rewarded; simpl; f_equal; lia. Qed.

Lemma rewarded_zero r a : rewarded 0 r a = a.
Proof. destruct a. unfold rewarded. simpl. f_equal; lia. Qed.

Lemma rewarded_succ n r a : rewarded n r (rewarded 1 r a) = rewarded (S n) r a.
Proof. unfold rewarded. simpl ArmStats.armId. f_equal; simpl; lia. Qed.

Lemma rewarded_succ_r n r a :
  rewarded 1 r (rewarded n r a) = rewarded (S n) r a.
Proof. unfold rewarded. simpl ArmStats.armId. f_equal; simpl; lia. Qed.

(** One reward for an arm that the loaded state has: what is returned, and
    the state that the next call loads. *)
Lemma updateArm_step chatId armId r st state i a :
  r = 0 ∨ r = 1 →
  (getOrCreateBanditState ARMS chatId st).2 = Ok (Some state) →
  find_arm armId (arms state) = Some (i, a) →
  let st' := (updateArm ARMS chatId armId r st).1 in
  (updateArm ARMS chatId armId r st).2
    = Ok (Some (stats_of (rewarded 1 r a))) ∧
  docs st' !! chatId = Some (<[i := rewarded 1 r a]> (arms state)) ∧
  getOrCreateBanditState ARMS chatId st'
    = (st', Ok (Some {| chat := chatId;
                        arms := <[i := rewarded 1 r a]> (arms state) |})) ∧
  find_arm armId (<[i := rewarded 1 r a]> (arms state))
    = Some (i, rewarded 1 r a).
Proof.
  intros Hr Hload Hfind st'. subst st'.
  destruct (getOrCreateBanditState ARMS chatId st) as [st1 o] eqn:Hrun.
  simpl in Hload. subst o.
  destruct (getOrCreate_stored _ _ _ _ _ Hrun) as [Hchat _].
  rewrite (updateArm_found _ _ _ r _ _ _ _ _ Hrun Hfind).
  rewrite (rewarded_once _ _ Hr), Hchat. simpl.
  pose proof Hfind as Hfind'. unfold find_arm in Hfind'.
  apply list_find_Some in Hfind' as (Hi & Hid & _).
  split_and!; [done|by rewrite lookup_insert_eq| |].
  - erewrite getOrCreate_present by (simpl; apply lookup_insert_eq).
    assert (Hm : missing ARMS (<[i := rewarded 1 r a]> (arms state)) = []).
    { unfold missing. erewrite ids_insert by done.
      by eapply loaded_missing_nil. }
    rewrite Hm. simpl. by rewrite app_nil_r.
  - by eapply find_arm_insert.
Qed.

Lemma resubmit_succ n body u w :
  resubmit ARMS (S n) body u w =
  (submitFeedback ARMS body u (resubmit ARMS n body u w)).1.
Proof.
  revert w. induction n as [|n IH]; intros w; [done|].
  simpl in *. by rewrite IH.
Qed.

(** The state that the [n+1]-th submission finds. *)
Lemma resubmit_state body u c armIdStr rewardNum n :
  valid_body body armIdStr rewardNum →
  truthy (messageId body) = false →
  chatId body = Some c → c ≠ "" →
  ∀ w state i a,
    may_access u c w →
    (getOrCreateBanditState ARMS c (bandit w)).2 = Ok (Some state) →
    find_arm armIdStr (arms state) = Some (i, a) →
    let wn := resubmit ARMS n body u w in
    may_access u c wn ∧
    ∃ staten,
      (getOrCreateBanditState ARMS c (bandit wn)).2 = Ok (Some staten) ∧
      find_arm armIdStr (arms staten) = Some (i, rewarded n rewardNum a).
Proof.
  intros Hvalid Hmsg Hc Hcne.
  induction n as [|n IH]; intros w state i a Hacc Hload Hfind; simpl.
  - split; [done|]. exists state. by rewrite rewarded_zero.
  - rewrite (submitFeedback_by_chat _ _ _ _ _ _ Hvalid Hmsg Hc Hcne Hacc).
    simpl.
    destruct Hvalid as (_ & _ & _ & Hr).
    destruct (updateArm_step c armIdStr rewardNum (bandit w) state i a
                Hr Hload Hfind) as (_ & _ & Hnext & Hfound).
    rewrite <- rewarded_succ.
    apply (IH _ {| chat := c;
                   arms := <[i := rewarded 1 rewardNum a]> (arms state) |});
      [by apply may_access_with_bandit| |exact Hfound].
    simpl. by rewrite Hnext.
Qed.

End ByChat.

(** Without a [messageId] no message is written. *)
Lemma by_chat_messages ARMS body u w :
  truthy (messageId body) = false →
  messages (submitFeedback ARMS body u w).1 = messages w.
Proof.
  intros Hmsg. unfold submitFeedback.
  destruct (reward body) as [rewardNum|]; [|done].
  destruct (_ || _); [done|].
  rewrite (resolve_target_by_chat _ _ _ Hmsg).
  destruct (negb _); [done|].
  destruct (check_access _ _ _) as [resp|]; [done|].
  rewrite (feedback_gate_skipped _ _ _ _ Hmsg).
  by destruct (updateArm _ _ _ _ _) as [b [newStats|err]].
Qed.

Lemma resubmit_messages ARMS n body u w :
  truthy (messageId body) = false →
  messages (resubmit ARMS n body u w) = messages w.
Proof.
  intros Hmsg. revert w. induction n as [|n IH]; intros w; simpl; [done|].
  by rewrite IH, by_chat_messages.
Qed.

(** C4.  A submission that names a chat and no message does not pass the
    write-once gate: once it passes the endpoint's other checks it runs
    [updateArm], however often the same request was submitted before.  The
    [n+1]-th of [n+1] identical submissions answers [success] with the arm's
    [pulls] raised by [n+1] and its [alpha] (reward 1) or [beta] (reward 0)
    raised by [n+1]; it never answers [already_rated], and it writes no
    message. *)
Theorem feedback_by_chat_counts_every_submission
    ARMS body u w c armIdStr rewardNum state i a n :
  valid_body body armIdStr rewardNum →
  truthy (messageId body) = false →
  chatId body = Some c → c ≠ "" →
  may_access u c w →
  (getOrCreateBanditState ARMS c (bandit w)).2 = Ok (Some state) →
  find_arm armIdStr (arms state) = Some (i, a) →
  let wn := resubmit ARMS n body u w in
  let wn' := resubmit ARMS (S n) body u w in
  (∀ arm r f, (submitFeedback ARMS body u wn).2 ≠ AlreadyRated arm r f) ∧
  submitFeedback ARMS body u wn =
    (wn', Success armIdStr rewardNum c
            (Some (stats_of (rewarded (S n) rewardNum a)))) ∧
  bandit wn' = (updateArm ARMS c armIdStr rewardNum (bandit wn)).1 ∧
  messages wn' = messages w ∧
  ∃ l, docs (bandit wn') !! c = Some l ∧
       find_arm armIdStr l = Some (i, rewarded (S n) rewardNum a).
Proof.
  intros Hvalid Hmsg Hc Hcne Hacc Hload Hfind wn wn'.
  destruct (resubmit_state ARMS body u c armIdStr rewardNum n
              Hvalid Hmsg Hc Hcne w state i a Hacc Hload Hfind)
    as (Haccn & staten & Hloadn & Hfindn).
  fold wn in Haccn, Hloadn.
  pose proof (submitFeedback_by_chat ARMS _ _ _ _ _ _ Hvalid Hmsg Hc Hcne Haccn)
    as Hsub.
  destruct Hvalid as (_ & _ & _ & Hr).
  destruct (updateArm_step ARMS c armIdStr rewardNum (bandit wn) staten i
              (rewarded n rewardNum a) Hr Hloadn Hfindn)
    as (Hres & Hdoc & _ & Hfound).
  rewrite rewarded_succ_r in Hres, Hdoc, Hfound.
  rewrite Hres in Hsub.
  assert (Hwn' : wn' = (submitFeedback ARMS body u wn).1)
    by apply resubmit_succ.
  split_and!.
  - intros arm r f. by apply by_chat_never_already_rated.
  - rewrite Hwn', Hsub. done.
  - rewrite Hwn', Hsub. done.
  - subst wn'. by apply resubmit_messages.
  - eexists. rewrite Hwn', Hsub. simpl. split; [exact Hdoc|exact Hfound].
Qed.

Lemma feedback_by_chat_counts_every_submission_witness :
  let u := {| userId := "u1"; organization := "o1"; role := "member" |} in
  let w :=
    {| messages := ∅;
       chats := {[ "c1" := {| project := "p1" |} ]};
       projects := {[ "p1" := {| team := Some "t1" |} ]};
       teams := {[ "t1" := {| team_organization := "o1";
                              members := ["u1"] |} ]};
       bandit := empty_store |} in
  let body := {| arm_id := Some "unified_base"; reward := Some 1;
                 messageId := None; chatId := Some "c1" |} in
  submitFeedback (source_ARMS None) body u
    (resubmit (source_ARMS None) 2 body u w) =
    (resubmit (source_ARMS None) 3 body u w,
     Success "unified_base" 1 "c1"
       (Some {| Stats.alpha := 4; Stats.beta := 1; Stats.pulls := 3 |})).
Proof.
  intros u w body.
  destruct (feedback_by_chat_counts_every_submission (source_ARMS None) body
              u w "c1" "unified_base" 1
              {| chat := "c1"; arms := priors (source_ARMS None) |}
              0%nat (prior "unified_base") 2%nat)
    as (_ & Hsub & _).
  - repeat split; [discriminate | by right].
  - reflexivity.
  - reflexivity.
  - discriminate.
  - exists {| project := "p1" |}, {| team := Some "t1" |}, "t1",
      {| team_organization := "o1"; members := ["u1"] |}.
    split_and!; [reflexivity..|]. right. split; [reflexivity|].
    apply list_elem_of_here.
  - reflexivity.
  - reflexivity.
  - exact Hsub.
Defined.

(** ** The endpoint and the reachable stores *)

(** The gate writes to the messages alone. *)
Lemma feedback_gate_bandit body rewardNum effectiveArmId w :
  bandit (feedback_gate body rewardNum effectiveArmId w).1 = bandit w.
Proof.
  unfold feedback_gate, findOneAndUpdate_feedback.
  destruct (truthy (messageId body)); [|done].
  destruct (messages w !! _) as [m|] eqn:Hm; simpl.
  - destruct (Message.feedback m) eqn:Hf; simpl.
    + rewrite Hm, Hf. done.
    + done.
  - by rewrite Hm.
Qed.

(** The endpoint changes the bandit collection through [updateArm] alone, so
    the stores it produces are reachable ones. *)
Lemma submitFeedback_reachable Rng betaVariate ARMS body u w :
  reachable Rng betaVariate (bandit w) →
  reachable Rng betaVariate (bandit (submitFeedback ARMS body u w).1).
Proof.
  intros Hreach. unfold submitFeedback.
  destruct (reward body) as [rewardNum|]; [|done].
  destruct (_ || _); [done|].
  destruct (resolve_target _ _ _) as [resp|[effectiveChatId effectiveArmId]];
    [done|].
  destruct (negb _); [done|].
  destruct (check_access _ _ _) as [resp|]; [done|].
  pose proof (feedback_gate_bandit body rewardNum effectiveArmId w) as Hgate.
  destruct (feedback_gate _ _ _ _) as [w' [resp|]]; simpl in Hgate.
  - simpl. by rewrite Hgate.
  - rewrite <- Hgate in Hreach.
    pose proof (reachable_run Rng betaVariate
                  (call_updateArm Rng ARMS (default "" effectiveChatId)
                     effectiveArmId rewardNum) _ Hreach) as Hstep.
    simpl in Hstep.
    by destruct (updateArm _ _ _ _ _) as [b [newStats|err]].
Qed.

(** * Further properties of the service *)

Section Rewards.

Variable ARMS : list Arm.t.

Lemma ids_apply_reward armId reward l :
  ids (apply_reward armId reward l) = ids l.
Proof.
  unfold apply_reward. destruct (find_arm armId l) as [[i a]|] eqn:Hfind;
    [|done].
  unfold find_arm in Hfind. apply list_find_Some in Hfind as (Hi & _ & _).
  by eapply ids_insert.
Qed.

Lemma length_apply_reward armId reward l :
  length (apply_reward armId reward l) = length l.
Proof.
  unfold apply_reward. destruct (find_arm armId l) as [[i a]|]; [|done].
  apply length_insert.
Qed.

(** [updateArm], in terms of the state it loads. *)
Lemma updateArm_store chatId armId reward st st1 state :
  getOrCreateBanditState ARMS chatId st = (st1, Ok (Some state)) →
  updateArm ARMS chatId armId reward st =
    match find_arm armId (arms state) with
    | Some (i, a) =>
        ({| docs := <[chatId := apply_reward armId reward (arms state)]>
                      (docs st1);
            writes := writes st1 ++ [chatId] |},
         Ok (Some (stats_of (bump reward a))))
    | None => (st1, Ok None)
    end.
Proof.
  intros Hrun. destruct (getOrCreate_stored _ _ _ _ _ Hrun) as [Hchat _].
  unfold apply_reward.
  destruct (find_arm armId (arms state)) as [[i a]|] eqn:Hfind.
  - rewrite (updateArm_found _ _ _ reward _ _ _ _ _ Hrun Hfind).
    by rewrite Hchat.
  - by rewrite (updateArm_not_found _ _ _ reward _ _ _ Hrun Hfind).
Qed.

(** [updateArm] never throws. *)
Lemma updateArm_returns chatId armId reward st :
  ∃ r, (updateArm ARMS chatId armId reward st).2 = Ok r.
Proof.
  destruct (getOrCreate_total ARMS chatId st) as (state & Hstate & _).
  destruct (getOrCreateBanditState ARMS chatId st) as [st1 o] eqn:Hrun.
  simpl in Hstate. subst o. rewrite (updateArm_store _ _ _ _ _ _ Hrun).
  destruct (find_arm armId (arms state)) as [[i a]|]; eauto.
Qed.

(** A store whose document for the chat has the ids of a loaded state is
    loaded as it is. *)
Lemma getOrCreate_complete chatId st st1 state st2 l :
  getOrCreateBanditState ARMS chatId st = (st1, Ok (Some state)) →
  ids l = ids (arms state) →
  docs st2 !! chatId = Some l →
  getOrCreateBanditState ARMS chatId st2
  = (st2, Ok (Some {| chat := chatId; arms := l |})).
Proof.
  intros Hrun Hids Hl. rewrite (getOrCreate_present _ _ _ _ Hl).
  assert (Hm : missing ARMS l = []).
  { unfold missing. rewrite Hids. by eapply loaded_missing_nil. }
  rewrite Hm. simpl. by rewrite app_nil_r.
Qed.

(** The state that the call after an [updateArm] loads. *)
Lemma updateArm_then_load chatId armId reward st st1 state :
  getOrCreateBanditState ARMS chatId st = (st1, Ok (Some state)) →
  let st' := (updateArm ARMS chatId armId reward st).1 in
  getOrCreateBanditState ARMS chatId st'
  = (st', Ok (Some {| chat := chatId;
                      arms := apply_reward armId reward (arms state) |})).
Proof.
  intros Hrun st'. subst st'.
  rewrite (updateArm_store _ _ _ _ _ _ Hrun).
  destruct (find_arm armId (arms state)) as [[i a]|] eqn:Hfind; simpl.
  - eapply getOrCreate_complete; [exact Hrun|apply ids_apply_reward|].
    simpl. by rewrite lookup_insert_eq.
  - unfold apply_reward. rewrite Hfind.
    destruct (getOrCreate_stored _ _ _ _ _ Hrun) as [_ Hdoc].
    by eapply getOrCreate_complete.
Qed.

Lemma bump_comm r1 r2 a : bump r1 (bump r2 a) = bump r2 (bump r1 a).
Proof.
  unfold bump. simpl. destruct (r1 =? 1), (r2 =? 1); f_equal; lia.
Qed.

(** Changing the entry of one arm does not move the entry found for another
    arm. *)
Lemma find_arm_insert_other x y (l : list ArmStats.t) i a j b b' :
  find_arm x l = Some (i, a) →
  find_arm y l = Some (j, b) →
  x ≠ y →
  ArmStats.armId b' = y →
  i ≠ j ∧ find_arm x (<[j := b']> l) = Some (i, a).
Proof.
  unfold find_arm. intros Hx Hy Hne Hid.
  apply list_find_Some in Hx as (Hi & Hxa & Hbefore).
  apply list_find_Some in Hy as (Hj & Hyb & _).
  assert (Hij : i ≠ j).
  { intros ->. rewrite Hi in Hj. injection Hj as <-. congruence. }
  split; [done|]. apply list_find_Some. split_and!.
  - by rewrite list_lookup_insert_ne.
  - done.
  - intros k z Hk Hlt. destruct (decide (k = j)) as [->|Hkj].
    + rewrite list_lookup_insert_eq in Hk by (by eapply lookup_lt_Some).
      injection Hk as <-. congruence.
    + rewrite list_lookup_insert_ne in Hk by done. by eapply Hbefore.
Qed.

Lemma find_arm_None_insert x (l : list ArmStats.t) j b b' :
  find_arm x l = None →
  l !! j = Some b →
  ArmStats.armId b' = ArmStats.armId b →
  find_arm x (<[j := b']> l) = None.
Proof.
  unfold find_arm. intros Hx Hj Hid.
  apply list_find_None. apply list_find_None in Hx.
  apply Forall_insert; [done|].
  rewrite Hid. by eapply (Forall_lookup_1 _ _ _ _ Hx Hj).
Qed.

(** Two rewards change the array in the same way in either order. *)
Lemma apply_reward_comm x1 r1 x2 r2 l :
  apply_reward x2 r2 (apply_reward x1 r1 l)
  = apply_reward x1 r1 (apply_reward x2 r2 l).
Proof.
  unfold apply_reward at 2 4.
  destruct (find_arm x1 l) as [[i a]|] eqn:H1;
    destruct (find_arm x2 l) as [[j b]|] eqn:H2.
  - destruct (decide (x1 = x2)) as [->|Hne].
    + rewrite H1 in H2. injection H2 as <- <-.
      assert (Ha : ArmStats.armId a = x2).
      { unfold find_arm in H1. by apply list_find_Some in H1 as (_ & ? & _). }
      unfold apply_reward.
      rewrite (find_arm_insert _ _ _ _ (bump r1 a) H1 Ha).
      rewrite (find_arm_insert _ _ _ _ (bump r2 a) H1 Ha).
      by rewrite !list_insert_insert_eq, bump_comm.
    + pose proof H1 as H1'. pose proof H2 as H2'.
      unfold find_arm in H1', H2'.
      apply list_find_Some in H1' as (_ & Ha & _).
      apply list_find_Some in H2' as (_ & Hb & _).
      destruct (find_arm_insert_other x1 x2 l i a j b (bump r2 b) H1 H2 Hne Hb)
        as [Hij Hx1].
      destruct (find_arm_insert_other x2 x1 l j b i a (bump r1 a) H2 H1
                  (not_eq_sym Hne) Ha) as [_ Hx2].
      unfold apply_reward. rewrite Hx1, Hx2.
      by apply list_insert_insert_ne.
  - unfold apply_reward.
    pose proof H1 as H1'. unfold find_arm in H1'.
    apply list_find_Some in H1' as (Hi & _ & _).
    by rewrite (find_arm_None_insert _ _ _ _ (bump r1 a) H2 Hi eq_refl), H1.
  - unfold apply_reward.
    pose proof H2 as H2'. unfold find_arm in H2'.
    apply list_find_Some in H2' as (Hj & _ & _).
    by rewrite (find_arm_None_insert _ _ _ _ (bump r2 b) H1 Hj eq_refl), H2.
  - unfold apply_reward. by rewrite H1, H2.
Qed.

End Rewards.

(** ** Rewards in either order *)

Section Order.

Variable ARMS : list Arm.t.

Lemma find_arm_is_Some x l : is_Some (find_arm x l) ↔ x ∈ ids l.
Proof.
  unfold find_arm, ids. split.
  - intros [[i a] Hfind]. apply list_find_Some in Hfind as (Hi & Ha & _).
    apply list_elem_of_fmap. exists a. split; [done|].
    by eapply list_elem_of_lookup_2.
  - intros (a & Ha & Hin)%list_elem_of_fmap.
    by eapply list_find_elem_of.
Qed.

Lemma saved_found chatId x l i a :
  find_arm x l = Some (i, a) → saved chatId x l = [chatId].
Proof.
  intros Hfind. unfold saved. rewrite bool_decide_true; [done|].
  apply find_arm_is_Some. by rewrite Hfind.
Qed.

Lemma saved_not_found chatId x l :
  find_arm x l = None → saved chatId x l = [].
Proof.
  intros Hfind. unfold saved. rewrite bool_decide_false; [done|].
  intros Hin. apply find_arm_is_Some in Hin. rewrite Hfind in Hin.
  by destruct Hin.
Qed.

(** The store that [updateArm] leaves, in one form for both outcomes. *)
Lemma updateArm_fst chatId x r st st1 state :
  getOrCreateBanditState ARMS chatId st = (st1, Ok (Some state)) →
  (updateArm ARMS chatId x r st).1 =
    {| docs := <[chatId := apply_reward x r (arms state)]> (docs st1);
       writes := writes st1 ++ saved chatId x (arms state) |}.
Proof.
  intros Hrun. rewrite (updateArm_store _ _ _ _ _ _ _ Hrun).
  destruct (find_arm x (arms state)) as [[i a]|] eqn:Hfind; simpl.
  - by rewrite (saved_found _ _ _ _ _ Hfind).
  - rewrite (saved_not_found _ _ _ Hfind), app_nil_r.
    unfold apply_reward. rewrite Hfind.
    destruct (getOrCreate_stored _ _ _ _ _ Hrun) as [_ Hdoc].
    rewrite insert_id by done. by destruct st1.
Qed.

Lemma updateArm_twice chatId x1 r1 x2 r2 st st1 state :
  getOrCreateBanditState ARMS chatId st = (st1, Ok (Some state)) →
  (updateArm ARMS chatId x2 r2 (updateArm ARMS chatId x1 r1 st).1).1 =
    {| docs := <[chatId := apply_reward x2 r2
                             (apply_reward x1 r1 (arms state))]> (docs st1);
       writes := writes st1 ++ saved chatId x1 (arms state)
                   ++ saved chatId x2 (arms state) |}.
Proof.
  intros Hrun.
  pose proof (updateArm_then_load ARMS chatId x1 r1 _ _ _ Hrun) as Hnext.
  simpl in Hnext.
  rewrite (updateArm_fst _ _ _ _ _ _ Hnext). simpl.
  rewrite (updateArm_fst _ _ _ _ _ _ Hrun). simpl.
  rewrite insert_insert_eq, <- app_assoc. do 3 f_equal.
  unfold saved. by rewrite ids_apply_reward.
Qed.

End Order.

(** X1.  Two rewards for the same chat leave the same store whichever is
    applied first: the same documents and the same number of saves.  This
    holds for any two arms (also the same arm, also an arm that is not in
    the state) and any two reward values. *)
Theorem updateArm_commute ARMS chatId x1 r1 x2 r2 st :
  (updateArm ARMS chatId x2 r2 (updateArm ARMS chatId x1 r1 st).1).1 =
  (updateArm ARMS chatId x1 r1 (updateArm ARMS chatId x2 r2 st).1).1.
Proof.
  destruct (getOrCreate_total ARMS chatId st) as (state & Hstate & _).
  destruct (getOrCreateBanditState ARMS chatId st) as [st1 o] eqn:Hrun.
  simpl in Hstate. subst o.
  rewrite !(updateArm_twice _ _ _ _ _ _ _ _ _ Hrun).
  rewrite (apply_reward_comm x1 r1 x2 r2). f_equal. f_equal.
  unfold saved. by repeat case_bool_decide.
Qed.

(** ** What a run of rewards adds up to *)

Section Tally.

Variable ARMS : list Arm.t.

Lemma named_cons x y r calls :
  named x ((y, r) :: calls)
  = (if bool_decide (y = x) then 1 else 0) + named x calls.
Proof.
  unfold named. rewrite filter_cons. simpl.
  destruct (decide (y = x)); [rewrite bool_decide_true by done
                             |rewrite bool_decide_false by done]; simpl; lia.
Qed.

Lemma named_success_cons x y r calls :
  named_success x ((y, r) :: calls)
  = (if bool_decide (y = x ∧ r = 1) then 1 else 0) + named_success x calls.
Proof.
  unfold named_success. rewrite filter_cons. simpl.
  destruct (decide (y = x ∧ r = 1)); [rewrite bool_decide_true by done
                                     |rewrite bool_decide_false by done];
    simpl; lia.
Qed.

Lemma named_failure_cons x y r calls :
  named_failure x ((y, r) :: calls)
  = (if bool_decide (y = x ∧ r ≠ 1) then 1 else 0) + named_failure x calls.
Proof.
  unfold named_failure. rewrite filter_cons. simpl.
  destruct (decide (y = x ∧ r ≠ 1)); [rewrite bool_decide_true by done
                                     |rewrite bool_decide_false by done];
    simpl; lia.
Qed.

(** The entry found for [x] after a reward for [y]. *)
Lemma find_arm_apply_reward x y r l i a :
  find_arm x l = Some (i, a) →
  find_arm x (apply_reward y r l)
  = Some (i, if bool_decide (y = x) then bump r a else a).
Proof.
  intros Hx. unfold apply_reward.
  assert (Ha : ArmStats.armId a = x).
  { unfold find_arm in Hx. by apply list_find_Some in Hx as (_ & ? & _). }
  destruct (decide (y = x)) as [->|Hne].
  - rewrite bool_decide_true by done. rewrite Hx.
    by eapply find_arm_insert.
  - rewrite bool_decide_false by done.
    destruct (find_arm y l) as [[j b]|] eqn:Hy; [|done].
    assert (Hb : ArmStats.armId b = y).
    { unfold find_arm in Hy. by apply list_find_Some in Hy as (_ & ? & _). }
    by destruct (find_arm_insert_other x y l i a j b (bump r b) Hx Hy
                   (not_eq_sym Hne) Hb) as [_ ?].
Qed.

End Tally.

(** X2.  After any run of [updateArm] calls for a chat, an arm that was in
    the loaded state has its [pulls] raised by the number of calls that named
    it, its [alpha] by the number of those with reward 1 and its [beta] by
    the number of those with any other reward; calls that name other arms, or
    arms that are not in the state, do not count. *)
Theorem feed_tally ARMS chatId calls x st state i a :
  (getOrCreateBanditState ARMS chatId st).2 = Ok (Some state) →
  find_arm x (arms state) = Some (i, a) →
  ∃ state',
    (getOrCreateBanditState ARMS chatId (feed ARMS chatId calls st)).2
      = Ok (Some state') ∧
    find_arm x (arms state') =
      Some (i, {| ArmStats.armId := ArmStats.armId a;
                  ArmStats.alpha := ArmStats.alpha a + named_success x calls;
                  ArmStats.beta := ArmStats.beta a + named_failure x calls;
                  ArmStats.pulls := ArmStats.pulls a + named x calls |}).
Proof.
  revert st state a. induction calls as [|[y r] calls IH];
    intros st state a Hload Hfind.
  - exists state. split; [done|]. rewrite Hfind. do 2 f_equal.
    destruct a. unfold named, named_success, named_failure. simpl.
    f_equal; lia.
  - destruct (getOrCreateBanditState ARMS chatId st) as [st1 o] eqn:Hrun.
    simpl in Hload. subst o.
    pose proof (updateArm_then_load ARMS chatId y r _ _ _ Hrun) as Hnext.
    simpl in Hnext.
    pose proof (find_arm_apply_reward x y r _ _ _ Hfind) as Hfind'.
    destruct (IH (updateArm ARMS chatId y r st).1
                {| chat := chatId; arms := apply_reward y r (arms state) |}
                (if bool_decide (y = x) then bump r a else a))
      as (state' & Hload' & Hfound); [by rewrite Hnext|exact Hfind'|].
    exists state'. split; [exact Hload'|]. rewrite Hfound. do 2 f_equal.
    rewrite named_cons, named_success_cons, named_failure_cons.
    destruct (decide (y = x)) as [->|Hne].
    + rewrite !(bool_decide_true (x = x)) by done. unfold bump. simpl.
      destruct (decide (r = 1)) as [->|Hr].
      * rewrite bool_decide_true by done.
        rewrite bool_decide_false by (intros [_ ?]; done).
        simpl. f_equal; lia.
      * rewrite bool_decide_false by (intros [_ ?]; done).
        rewrite bool_decide_true by done.
        apply Z.eqb_neq in Hr. rewrite Hr. f_equal; lia.
    + rewrite !bool_decide_false by (try intros [? _]; done).
      f_equal; lia.
Qed.

Lemma feed_tally_witness :
  let calls := [("unified_base", 1); ("unified_strict_json", 0);
                ("no_such_arm", 1); ("unified_base", 0);
                ("unified_base", 1)] in
  ∃ state',
    (getOrCreateBanditState (source_ARMS None) "c1"
       (feed (source_ARMS None) "c1" calls empty_store)).2 = Ok (Some state') ∧
    find_arm "unified_base" (arms state') =
      Some (0%nat, {| ArmStats.armId := "unified_base"; ArmStats.alpha := 3;
                      ArmStats.beta := 2; ArmStats.pulls := 3 |}).
Proof.
  intros calls.
  apply (feed_tally (source_ARMS None) "c1" calls "unified_base" empty_store
           {| chat := "c1"; arms := priors (source_ARMS None) |} 0%nat
           (prior "unified_base")); reflexivity.
Defined.

(** ** One chat at a time, and nothing lost *)

Lemma updateArm_other ARMS chatId x r st c :
  c ≠ chatId →
  docs (updateArm ARMS chatId x r st).1 !! c = docs st !! c.
Proof.
  intros Hne.
  destruct (getOrCreate_total ARMS chatId st) as (state & Hstate & _).
  destruct (getOrCreateBanditState ARMS chatId st) as [st1 o] eqn:Hrun.
  simpl in Hstate. subst o. rewrite (updateArm_fst _ _ _ _ _ _ _ Hrun).
  simpl. rewrite lookup_insert_ne by done.
  replace st1 with (getOrCreateBanditState ARMS chatId st).1
    by (by rewrite Hrun).
  by apply getOrCreate_other.
Qed.

(** X3.  A call of the service for one chat leaves the documents of all
    other chats as they are, whichever of [chooseArm], [updateArm] and
    [getBanditStats] it is and whatever it returns or throws. *)
Theorem run_other_chats Rng betaVariate (c : Call Rng) st chatId :
  chatId ≠ call_chat c →
  docs (run Rng betaVariate c st) !! chatId = docs st !! chatId.
Proof.
  intros Hne. destruct c; simpl in *.
  - rewrite chooseArm_store. by apply getOrCreate_other.
  - by apply updateArm_other.
  - rewrite getBanditStats_store. by apply getOrCreate_other.
Qed.

Lemma run_other_chats_witness :
  let st := (updateArm (source_ARMS None) "c1" "unified_base" 1
               empty_store).1 in
  docs (run unit (λ _ _ g, (1 # 2, g)%Q)
          (call_updateArm unit (source_ARMS None) "c2" "unified_base" 0) st)
    !! "c1"
  = Some [{| ArmStats.armId := "unified_base"; ArmStats.alpha := 2;
             ArmStats.beta := 1; ArmStats.pulls := 1 |};
          prior "unified_strict_json"].
Proof.
  intros st.
  rewrite (run_other_chats unit (λ _ _ g, (1 # 2, g)%Q)
             (call_updateArm unit (source_ARMS None) "c2" "unified_base" 0)
             st "c1"); [reflexivity|discriminate].
Defined.

(** Where a reward leaves each entry. *)
Lemma apply_reward_lookup x r (l : list ArmStats.t) i a :
  l !! i = Some a →
  ∃ a', apply_reward x r l !! i = Some a' ∧ (a' = a ∨ a' = bump r a).
Proof.
  intros Hi. unfold apply_reward.
  destruct (find_arm x l) as [[j b]|] eqn:Hfind; [|eauto].
  destruct (decide (i = j)) as [->|Hne].
  - unfold find_arm in Hfind. apply list_find_Some in Hfind as (Hj & _ & _).
    rewrite Hi in Hj. injection Hj as <-.
    exists (bump r a). split; [|by right].
    apply list_lookup_insert_eq. by eapply lookup_lt_Some.
  - exists a. split; [|by left]. by rewrite list_lookup_insert_ne.
Qed.

(** X4.  No call of the service removes a document, removes or moves an
    entry, renames it, or lowers a counter: after the call every stored entry
    is at its place with the same [armId] and with [alpha], [beta] and
    [pulls] at least what they were. *)
Theorem run_never_loses Rng betaVariate (c : Call Rng) st chatId l :
  docs st !! chatId = Some l →
  ∃ l',
    docs (run Rng betaVariate c st) !! chatId = Some l' ∧
    (length l ≤ length l')%nat ∧
    ∀ i a, l !! i = Some a →
      ∃ a', l' !! i = Some a' ∧
            ArmStats.armId a' = ArmStats.armId a ∧
            ArmStats.alpha a ≤ ArmStats.alpha a' ∧
            ArmStats.beta a ≤ ArmStats.beta a' ∧
            ArmStats.pulls a ≤ ArmStats.pulls a'.
Proof.
  intros Hl.
  assert (Hload : ∀ ARMS c0,
    ∃ l', docs (getOrCreateBanditState ARMS c0 st).1 !! chatId = Some l' ∧
          (length l ≤ length l')%nat ∧
          ∀ i a, l !! i = Some a → l' !! i = Some a).
  { intros ARMS c0.
    destruct (getOrCreate_extends ARMS c0 st chatId l Hl)
      as (extra & Hdoc & _ & _).
    exists (l ++ extra). split_and!; [done| |].
    - rewrite length_app. lia.
    - intros i a Hi. by apply lookup_app_l_Some. }
  assert (Hsame : ∀ l', (length l ≤ length l')%nat →
    (∀ i a, l !! i = Some a → l' !! i = Some a) →
    ∀ i a, l !! i = Some a →
      ∃ a', l' !! i = Some a' ∧
            ArmStats.armId a' = ArmStats.armId a ∧
            ArmStats.alpha a ≤ ArmStats.alpha a' ∧
            ArmStats.beta a ≤ ArmStats.beta a' ∧
            ArmStats.pulls a ≤ ArmStats.pulls a').
  { intros l' _ Hkeep i a Hi. exists a. split; [by apply Hkeep|].
    split_and!; [done|lia..]. }
  destruct c as [registry c0 stage s|registry c0 x r|registry c0]; simpl.
  - rewrite chooseArm_store.
    destruct (Hload registry c0) as (l' & Hdoc & Hlen & Hkeep).
    exists l'. split_and!; [done..|]. by apply Hsame.
  - destruct (decide (chatId = c0)) as [->|Hne].
    + destruct (Hload registry c0) as (l' & Hdoc & Hlen & Hkeep).
      destruct (getOrCreate_total registry c0 st) as (state & Hstate & _).
      destruct (getOrCreateBanditState registry c0 st) as [st1 o] eqn:Hrun.
      simpl in Hstate, Hdoc. subst o.
      destruct (getOrCreate_stored _ _ _ _ _ Hrun) as [_ Hstored].
      rewrite Hstored in Hdoc. injection Hdoc as <-.
      rewrite (updateArm_fst _ _ _ _ _ _ _ Hrun). simpl.
      rewrite lookup_insert_eq. eexists. split_and!; [done| |].
      * by rewrite length_apply_reward.
      * intros i a Hi.
        destruct (apply_reward_lookup x r _ i a (Hkeep _ _ Hi))
          as (a' & Ha' & Hor).
        exists a'. split; [exact Ha'|].
        destruct Hor as [-> | ->]; unfold bump; simpl;
          destruct (r =? 1); split_and!; (done || lia).
    + rewrite updateArm_other by done. exists l. split_and!; [done..|].
      by apply Hsame.
  - rewrite getBanditStats_store.
    destruct (Hload registry c0) as (l' & Hdoc & Hlen & Hkeep).
    exists l'. split_and!; [done..|]. by apply Hsame.
Qed.

Lemma run_never_loses_witness :
  let old := {| ArmStats.armId := "unified_base"; ArmStats.alpha := 4;
                ArmStats.beta := 2; ArmStats.pulls := 4 |} in
  let st := {| docs := {[ "c1" := [old] ]}; writes := [] |} in
  ∃ l' a',
    docs (run unit (λ _ _ g, (1 # 2, g)%Q)
            (call_updateArm unit (source_ARMS None) "c1" "unified_base" 0) st)
      !! "c1" = Some l' ∧
    l' !! 0%nat = Some a' ∧ ArmStats.beta old ≤ ArmStats.beta a'.
Proof.
  intros old st.
  destruct (run_never_loses unit (λ _ _ g, (1 # 2, g)%Q)
              (call_updateArm unit (source_ARMS None) "c1" "unified_base" 0)
              st "c1" [old] eq_refl) as (l' & Hdoc & _ & Hkeep).
  destruct (Hkeep 0%nat old eq_refl) as (a' & Ha' & _ & _ & Hbeta & _).
  by exists l', a'.
Defined.

(** ** One entry per arm *)

Lemma NoDup_ids_missing ARMS l :
  NoDup (map Arm.armId ARMS) → NoDup (ids l) →
  NoDup (ids (l ++ priors (missing ARMS l))).
Proof.
  intros Hreg Hl. rewrite ids_app, ids_priors. apply NoDup_app. split_and!.
  - done.
  - intros x Hx (arm & -> & Harm)%list_elem_of_fmap.
    unfold missing in Harm. by apply list_elem_of_filter in Harm as [Hnot _].
  - eapply sublist_NoDup; [exact Hreg|].
    apply fmap_sublist. unfold missing. apply sublist_filter.
Qed.

Lemma getOrCreate_nodup ARMS chatId st :
  NoDup (map Arm.armId ARMS) → store_nodup st →
  store_nodup (getOrCreateBanditState ARMS chatId st).1.
Proof.
  intros Hreg Hst c l. destruct (docs st !! chatId) as [l0|] eqn:E.
  - rewrite (getOrCreate_present _ _ _ _ E). simpl.
    case_bool_decide; simpl; [|apply Hst].
    destruct (decide (c = chatId)) as [->|Hne].
    + rewrite lookup_insert_eq. intros [= <-].
      apply NoDup_ids_missing; [done|]. by eapply Hst.
    + rewrite lookup_insert_ne by done. apply Hst.
  - rewrite (getOrCreate_absent _ _ _ E). simpl.
    destruct (decide (c = chatId)) as [->|Hne].
    + rewrite lookup_insert_eq. intros [= <-]. by rewrite ids_priors.
    + rewrite lookup_insert_ne by done. apply Hst.
Qed.

(** X5.  If no arm id occurs twice in the registry, a call of the service
    keeps every stored state free of duplicate arm ids: reconciliation adds
    an entry only for an id that is not stored, and a reward keeps the ids. *)
Theorem run_keeps_nodup Rng betaVariate (c : Call Rng) st :
  NoDup (map Arm.armId (call_registry c)) →
  store_nodup st →
  store_nodup (run Rng betaVariate c st).
Proof.
  intros Hreg Hst.
  destruct c as [registry c0 stage s|registry c0 x r|registry c0];
    simpl in *.
  - rewrite chooseArm_store. by apply getOrCreate_nodup.
  - pose proof (getOrCreate_nodup registry c0 st Hreg Hst) as Hst1.
    destruct (getOrCreate_total registry c0 st) as (state & Hstate & _).
    destruct (getOrCreateBanditState registry c0 st) as [st1 o] eqn:Hrun.
    simpl in Hstate, Hst1. subst o.
    destruct (getOrCreate_stored _ _ _ _ _ Hrun) as [_ Hstored].
    rewrite (updateArm_fst _ _ _ _ _ _ _ Hrun). intros c l. simpl.
    destruct (decide (c = c0)) as [->|Hne].
    + rewrite lookup_insert_eq. intros [= <-]. rewrite ids_apply_reward.
      by eapply Hst1.
    + rewrite lookup_insert_ne by done. apply Hst1.
  - rewrite getBanditStats_store. by apply getOrCreate_nodup.
Qed.

Lemma run_keeps_nodup_witness :
  let old := {| ArmStats.armId := "unified_strict_json"; ArmStats.alpha := 1;
                ArmStats.beta := 3; ArmStats.pulls := 2 |} in
  let st := {| docs := {[ "c1" := [old] ]}; writes := [] |} in
  store_nodup
    (run unit (λ _ _ g, (1 # 2, g)%Q)
       (call_getBanditStats unit (source_ARMS None) "c1") st).
Proof.
  intros old st.
  apply (run_keeps_nodup unit (λ _ _ g, (1 # 2, g)%Q)
           (call_getBanditStats unit (source_ARMS None) "c1") st).
  - simpl. apply NoDup_cons. split; [not_in_list|].
    apply NoDup_singleton.
  - intros c l Hl. destruct (decide (c = "c1")) as [->|Hne].
    + injection Hl as <-. apply NoDup_singleton.
    + subst st. simpl in Hl. by rewrite lookup_singleton_ne in Hl.
Defined.

(** ** What is reported is what was stored *)

(** Without duplicates, the entries with an id are the one that [find]
    finds. *)
Lemma filter_found x (l : list ArmStats.t) i a :
  NoDup (ids l) →
  find_arm x l = Some (i, a) →
  filter (λ b, ArmStats.armId b = x) l = [a].
Proof.
  revert i. induction l as [|b l IH]; intros i Hnd Hfind; [done|].
  unfold ids in Hnd. simpl in Hnd. apply NoDup_cons in Hnd as [Hb Hnd].
  rewrite filter_cons. unfold find_arm in *. simpl in Hfind.
  destruct (decide (ArmStats.armId b = x)) as [Hbx|Hbx].
  - injection Hfind as <- <-. f_equal.
    destruct (filter _ l) as [|b' l'] eqn:E; [done|].
    assert (Hin : b' ∈ filter (λ b0, ArmStats.armId b0 = x) l)
      by (rewrite E; apply list_elem_of_here).
    apply list_elem_of_filter in Hin as [Hb'x Hb'].
    exfalso. apply Hb. rewrite Hbx, <- Hb'x.
    apply list_elem_of_fmap. by exists b'.
  - destruct (list_find _ l) as [[j c]|] eqn:Hl; simpl in Hfind; [|done].
    injection Hfind as <- <-. by eapply IH.
Qed.

(** X6.  In a chat whose stored state has no arm id twice, under a registry
    that has none twice, what [updateArm] returns for an arm is what
    [getBanditStats] reports for that arm right after, and the inspection
    writes nothing. *)
Theorem updateArm_then_getBanditStats ARMS chatId x r st s :
  NoDup (map Arm.armId ARMS) →
  (∀ l, docs st !! chatId = Some l → NoDup (ids l)) →
  (updateArm ARMS chatId x r st).2 = Ok (Some s) →
  let st' := (updateArm ARMS chatId x r st).1 in
  ∃ m, getBanditStats ARMS chatId st' = (st', Ok m) ∧ m !! x = Some s.
Proof.
  intros Hreg Hst Hres st'. subst st'.
  destruct (getOrCreate_total ARMS chatId st) as (state & Hstate & _).
  destruct (getOrCreateBanditState ARMS chatId st) as [st1 o] eqn:Hrun.
  simpl in Hstate. subst o.
  pose proof (updateArm_then_load ARMS chatId x r _ _ _ Hrun) as Hnext.
  simpl in Hnext.
  assert (Hnd : NoDup (ids (arms state))).
  { destruct (docs st !! chatId) as [l|] eqn:E.
    - rewrite (getOrCreate_present _ _ _ _ E) in Hrun.
      injection Hrun as _ <-. simpl. apply NoDup_ids_missing; [done|].
      by apply Hst.
    - rewrite (getOrCreate_absent _ _ _ E) in Hrun.
      injection Hrun as _ <-. simpl. by rewrite ids_priors. }
  rewrite (updateArm_store _ _ _ _ _ _ _ Hrun) in Hres.
  destruct (find_arm x (arms state)) as [[i a]|] eqn:Hfind; [|done].
  simpl in Hres. injection Hres as <-.
  unfold getBanditStats, bind. rewrite Hnext. simpl.
  eexists. split; [done|].
  rewrite reduce_lookup, lookup_empty.
  pose proof (find_arm_apply_reward x x r _ _ _ Hfind) as Hfound.
  rewrite bool_decide_true in Hfound by done.
  rewrite (filter_found x _ i (bump r a)); [done| |done].
  by rewrite ids_apply_reward.
Qed.

Lemma updateArm_then_getBanditStats_witness :
  let st' := (updateArm (source_ARMS None) "c1" "unified_strict_json" 0
                empty_store).1 in
  ∃ m, getBanditStats (source_ARMS None) "c1" st' = (st', Ok m) ∧
       m !! "unified_strict_json"
       = Some {| Stats.alpha := 1; Stats.beta := 2; Stats.pulls := 1 |}.
Proof.
  intros st'.
  apply (updateArm_then_getBanditStats (source_ARMS None) "c1"
           "unified_strict_json" 0 empty_store).
  - simpl. apply NoDup_cons. split; [not_in_list|]. apply NoDup_singleton.
  - intros l Hl. simpl in Hl. by rewrite lookup_empty in Hl.
  - reflexivity.
Defined.

(** [getBanditStats] returns an object with an entry for every registry
    arm. *)
Lemma stats_for_every_registry_arm ARMS chatId st :
  ∃ m, (getBanditStats ARMS chatId st).2 = Ok m ∧
       ∀ arm, arm ∈ ARMS → is_Some (m !! Arm.armId arm).
Proof.
  destruct (getOrCreate_total ARMS chatId st) as (state & Hstate & _).
  destruct (getOrCreateBanditState ARMS chatId st) as [st1 o] eqn:Hrun.
  simpl in Hstate. subst o. eexists. split.
  - unfold getBanditStats, bind. rewrite Hrun. done.
  - intros arm Harm. rewrite reduce_lookup, lookup_empty.
    destruct (loaded_has_registry ARMS chatId st st1 state arm Hrun Harm)
      as (i & a & Hfind & _).
    unfold find_arm in Hfind. apply list_find_Some in Hfind as (Hi & Ha & _).
    destruct (filter _ (arms state)) as [|b l'] eqn:E.
    + exfalso. eapply (filter_nil_not_elem_of _ _ a E); [done|].
      by eapply list_elem_of_lookup_2.
    + destruct (last (b :: l')) eqn:F; [by eexists|].
      by apply last_None in F.
Qed.

(** X7.  [getBanditStats] never throws and reports statistics for every arm
    of the registry, also for a chat that had no state; it reports an id
    exactly when the state it loaded has an entry with that id, and for a
    chat without a document every registry arm is reported at
    [{alpha: 1, beta: 1, pulls: 0}]. *)
Theorem getBanditStats_covers_registry ARMS chatId st :
  ∃ state m,
    (getOrCreateBanditState ARMS chatId st).2 = Ok (Some state) ∧
    (getBanditStats ARMS chatId st).2 = Ok m ∧
    (∀ id, is_Some (m !! id) ↔ id ∈ ids (arms state)) ∧
    (∀ arm, arm ∈ ARMS → is_Some (m !! Arm.armId arm)) ∧
    (∀ arm, arm ∈ ARMS → docs st !! chatId = None →
       m !! Arm.armId arm
       = Some {| Stats.alpha := 1; Stats.beta := 1; Stats.pulls := 0 |}).
Proof.
  destruct (getOrCreate_total ARMS chatId st) as (state & Hstate & _).
  destruct (getOrCreateBanditState ARMS chatId st) as [st1 o] eqn:Hrun.
  simpl in Hstate. subst o.
  assert (Hreported : ∀ id,
    is_Some (stats_of <$> last (filter (λ a, ArmStats.armId a = id)
                                  (arms state)))
    ↔ id ∈ ids (arms state)).
  { intros id. rewrite fmap_is_Some. unfold ids. split.
    - intros [a Ha]. apply last_Some_elem_of in Ha.
      apply list_elem_of_filter in Ha as [Hid Hin].
      apply list_elem_of_fmap. by exists a.
    - intros (a & -> & Hin)%list_elem_of_fmap.
      destruct (filter _ (arms state)) as [|b l'] eqn:E.
      + exfalso. eapply (filter_nil_not_elem_of _ _ a E); done.
      + destruct (last (b :: l')) eqn:F; [by eexists|].
        by apply last_None in F. }
  exists state. eexists. split_and!.
  - done.
  - unfold getBanditStats, bind. rewrite Hrun. done.
  - intros id. rewrite reduce_lookup, lookup_empty.
    rewrite <- Hreported.
    by destruct (last (filter _ (arms state))).
  - intros arm Harm. rewrite reduce_lookup, lookup_empty.
    destruct (loaded_has_registry ARMS chatId st st1 state arm Hrun Harm)
      as (i & a & Hfind & _).
    assert (Hin : Arm.armId arm ∈ ids (arms state)).
    { apply find_arm_is_Some. by rewrite Hfind. }
    apply Hreported in Hin. by destruct (last (filter _ (arms state))).
  - intros arm Harm Hnone. rewrite reduce_lookup, lookup_empty.
    rewrite (getOrCreate_absent _ _ _ Hnone) in Hrun.
    injection Hrun as _ <-. simpl.
    assert (Hin : Arm.armId arm ∈ ids (priors ARMS)).
    { rewrite ids_priors. apply list_elem_of_fmap. by exists arm. }
    destruct (filter _ (priors ARMS)) as [|b l'] eqn:E.
    { exfalso. unfold ids in Hin.
      apply list_elem_of_fmap in Hin as (a & Ha & Hin).
      eapply (filter_nil_not_elem_of _ _ a E); done. }
    destruct (last (b :: l')) as [a|] eqn:F; [|by apply last_None in F].
    apply last_Some_elem_of in F. rewrite <- E in F.
    apply list_elem_of_filter in F as [_ F].
    apply list_elem_of_lookup in F as [j Hj].
    destruct (priors_lookup _ _ _ Hj) as (Hal & Hbe & Hpu).
    unfold stats_of. simpl. by rewrite Hal, Hbe, Hpu.
Qed.

(** ** What [chooseArm] can answer *)

(** X8.  [chooseArm] returns the configuration of an arm of the registry
    whose stage is the stage asked for (["unified"] when none is given), and
    throws [No arms found for stage] exactly when the registry has no such
    arm, and nothing else; either way the store is left as the load leaves
    it. *)
Theorem chooseArm_outcome ARMS Rng betaVariate chatId stage s st :
  let stage' := default "unified" stage in
  (chooseArm ARMS Rng betaVariate chatId stage s st).1
    = (getOrCreateBanditState ARMS chatId st).1 ∧
  match (chooseArm ARMS Rng betaVariate chatId stage s st).2 with
  | Ok (selection, s') =>
      ∃ arm, arm ∈ ARMS ∧ Arm.stage arm = stage' ∧
             Selection.armId selection = Arm.armId arm ∧
             Selection.modelName selection = Arm.modelName arm ∧
             Selection.temperature selection = Arm.temperature arm ∧
             Selection.notes selection = Arm.notes arm
  | Throw e =>
      e = NoArms stage' ∧ ∀ arm, arm ∈ ARMS → Arm.stage arm ≠ stage'
  end.
Proof.
  intros stage'. split; [apply chooseArm_store|].
  destruct (getOrCreate_total ARMS chatId st) as (state & Hstate & _).
  unfold chooseArm, bind.
  destruct (getOrCreateBanditState ARMS chatId st) as [st1 o] eqn:Hrun.
  simpl in Hstate. subst o. fold stage'.
  set (candidates := filter (λ a, Arm.stage a = stage') ARMS).
  case_bool_decide as Hlen; simpl.
  - split; [done|]. intros arm Harm Hstage.
    apply length_zero_iff_nil in Hlen.
    by eapply (filter_nil_not_elem_of _ _ arm Hlen).
  - rewrite sample_loop_spec. simpl.
    set (xs := (draws Rng betaVariate (params_of (arms state) candidates)
                  (gen _ s)).1).
    assert (Hxs : length xs = length candidates).
    { subst xs. rewrite length_draws. unfold params_of. by rewrite length_map. }
    set (samples := zip_with _ candidates xs).
    pose proof (sort_perm samples) as Hperm.
    destruct (sort samples) as [|first rest] eqn:Hsort; simpl.
    + exfalso. apply Hlen. apply Permutation_nil_l in Hperm.
      destruct candidates as [|c cs]; [done|].
      destruct xs; [done|]. by subst samples.
    + assert (Hin : armConfig first ∈ candidates).
      { destruct (zip_samples candidates xs Hxs) as [Hcfg _].
        fold samples in Hcfg. rewrite <- Hcfg.
        apply list_elem_of_fmap. exists first. split; [done|].
        rewrite <- Hperm. apply list_elem_of_here. }
      subst candidates. apply list_elem_of_filter in Hin as [Hstage Hin].
      by exists (armConfig first).
Qed.

(** * Further properties of the feedback endpoint *)

Section Refusals.

Variable ARMS : list Arm.t.

Lemma check_access_refusal_status u effectiveChatId w r :
  check_access u effectiveChatId w = Some r →
  ∃ status error, r = Status status error ∧ (status = 403 ∨ status = 404).
Proof.
  unfold check_access. intros H.
  repeat match type of H with
         | context [match ?x with _ => _ end] => destruct x
         end; simplify_eq; eauto 10.
Qed.

Lemma resolve_target_refusal body armIdStr w r :
  resolve_target body armIdStr w = inl r →
  ∃ status error, r = Status status error ∧ (status = 400 ∨ status = 404).
Proof.
  unfold resolve_target. intros H.
  repeat match type of H with
         | context [match ?x with _ => _ end] => destruct x
         end; simplify_eq; eauto 10.
Qed.

(** What the gate can do: pass and leave the world, pass and set the
    feedback of the message named, or answer. *)
Lemma feedback_gate_cases body rewardNum effectiveArmId w :
  let r := feedback_gate body rewardNum effectiveArmId w in
  (r = (w, None)) ∨
  (∃ m,
     truthy (messageId body) = true ∧
     messages w !! default "" (messageId body) = Some m ∧
     Message.feedback m = None ∧
     r = (with_messages w
            (<[default "" (messageId body) :=
                 {| Message.chat := Message.chat m;
                    Message.sender := Message.sender m;
                    Message.armId := Message.armId m;
                    Message.feedback :=
                      Some (if rewardNum =? 1 then up else down) |}]>
               (messages w)), None)) ∨
  (∃ m f,
     truthy (messageId body) = true ∧
     messages w !! default "" (messageId body) = Some m ∧
     Message.feedback m = Some f ∧
     r = (w, Some (AlreadyRated effectiveArmId rewardNum f))) ∨
  (messages w !! default "" (messageId body) = None ∧
   r = (w, Some (Status 404 "Message not found."))).
Proof.
  unfold feedback_gate, findOneAndUpdate_feedback.
  destruct (truthy (messageId body)) eqn:Ht; [|by left].
  destruct (messages w !! _) as [m|] eqn:Hm; simpl.
  - destruct (Message.feedback m) as [f|] eqn:Hf; simpl.
    + rewrite Hm, Hf. right. right. left. by exists m, f.
    + right. left. by exists m.
  - rewrite Hm. by repeat right.
Qed.

End Refusals.

(** X9.  An answer 400, 403 or 404 of the endpoint comes with nothing
    written: no message's feedback is set and the bandit collection is as it
    was, not even a lazily created state.  (The 500 of the handler's [catch]
    is not among them: it is also the answer when the bandit update fails
    after the feedback was set.) *)
Theorem submitFeedback_refusal_writes_nothing ARMS body u w status error :
  (submitFeedback ARMS body u w).2 = Status status error →
  status = 400 ∨ status = 403 ∨ status = 404 →
  (submitFeedback ARMS body u w).1 = w.
Proof.
  intros Hanswer Hstatus. revert Hanswer. unfold submitFeedback.
  destruct (reward body) as [rewardNum|]; [|done].
  destruct (_ || _); [done|].
  destruct (resolve_target _ _ _) as [resp|[effectiveChatId effectiveArmId]];
    [done|].
  destruct (negb _); [done|].
  destruct (check_access _ _ _) as [resp|]; [done|].
  destruct (feedback_gate_cases body rewardNum effectiveArmId w)
    as [Hg|[(m & _ & _ & _ & Hg)|[(m & f & _ & _ & _ & Hg)|[_ Hg]]]];
    simpl in Hg; rewrite Hg.
  - destruct (updateArm _ _ _ _ _) as [b [newStats|err]]; [done|].
    simpl. intros [= <- _]. by destruct Hstatus as [|[|]].
  - simpl. destruct (updateArm _ _ _ _ _) as [b [newStats|err]]; [done|].
    simpl. intros [= <- _]. by destruct Hstatus as [|[|]].
  - done.
  - done.
Qed.

Lemma submitFeedback_refusal_writes_nothing_witness :
  let outsider := {| userId := "u9"; organization := "o1"; role := "member" |} in
  let w :=
    {| messages :=
         {[ "m1" := {| Message.chat := "c1"; Message.sender := chatbot;
                       Message.armId := Some "unified_base";
                       Message.feedback := None |} ]};
       chats := {[ "c1" := {| project := "p1" |} ]};
       projects := {[ "p1" := {| team := Some "t1" |} ]};
       teams := {[ "t1" := {| team_organization := "o1";
                              members := ["u1"] |} ]};
       bandit := empty_store |} in
  let body := {| arm_id := Some "unified_base"; reward := Some 1;
                 messageId := Some "m1"; chatId := None |} in
  submitFeedback (source_ARMS None) body outsider w
  = (w, Status 403 "Not a member of this team.").
Proof.
  intros outsider w body.
  pose proof (submitFeedback_refusal_writes_nothing (source_ARMS None) body
                outsider w 403 "Not a member of this team." eq_refl
                (or_intror (or_introl eq_refl))) as Hsame.
  rewrite (surjective_pairing (submitFeedback _ body outsider w)), Hsame.
  reflexivity.
Defined.

Section Once.

Variable ARMS : list Arm.t.

(** A request that names a rated message changes nothing. *)
Lemma rated_message_frame body u w id m f :
  messageId body = Some id → id ≠ "" →
  messages w !! id = Some m →
  Message.feedback m = Some f →
  (submitFeedback ARMS body u w).1 = w.
Proof.
  intros Hid Hidne Hm Hf. unfold submitFeedback.
  destruct (reward body) as [rewardNum|]; [|done].
  destruct (_ || _); [done|].
  destruct (resolve_target _ _ _) as [resp|[effectiveChatId effectiveArmId]];
    [done|].
  destruct (negb _); [done|].
  destruct (check_access _ _ _) as [resp|]; [done|].
  by rewrite (feedback_gate_rated _ _ _ _ _ _ _ Hid Hidne Hm Hf).
Qed.

Lemma rated_message_resubmit n body u w id m f :
  messageId body = Some id → id ≠ "" →
  messages w !! id = Some m →
  Message.feedback m = Some f →
  resubmit ARMS n body u w = w.
Proof.
  intros Hid Hidne Hm Hf. induction n as [|n IH]; [done|]. simpl.
  by rewrite (rated_message_frame _ _ _ _ _ _ Hid Hidne Hm Hf).
Qed.

(** The first feedback for a message: the gate sets the flag and the arm of
    the message is rewarded. *)
Lemma first_feedback body u w id armIdStr rewardNum m :
  valid_body body armIdStr rewardNum →
  messageId body = Some id → id ≠ "" →
  messages w !! id = Some m →
  Message.sender m = chatbot →
  Message.feedback m = None →
  Message.chat m ≠ "" →
  may_access u (Message.chat m) w →
  let m' := {| Message.chat := Message.chat m;
               Message.sender := Message.sender m;
               Message.armId := Message.armId m;
               Message.feedback :=
                 Some (if rewardNum =? 1 then up else down) |} in
  let arm := arm_of_message m armIdStr in
  let upd := updateArm ARMS (Message.chat m) arm rewardNum (bandit w) in
  submitFeedback ARMS body u w =
    ({| messages := <[id := m']> (messages w); chats := chats w;
        projects := projects w; teams := teams w; bandit := upd.1 |},
     match upd.2 with
     | Ok newStats => Success arm rewardNum (Message.chat m) newStats
     | Throw err => Status 500 (error_text err)
     end).
Proof.
  intros (Harm & Hne & Hreward & Hr) Hid Hidne Hm Hsender Hf Hchat Hacc.
  simpl. unfold submitFeedback. rewrite Harm, Hreward. simpl.
  rewrite (valid_body_guard _ _ Hne Hr).
  unfold resolve_target. rewrite Hid, (truthy_Some _ Hidne). simpl.
  rewrite Hm, Hsender. rewrite (truthy_Some _ Hchat). simpl.
  rewrite (check_access_allowed _ _ _ Hacc).
  unfold feedback_gate. rewrite Hid, (truthy_Some _ Hidne). simpl.
  unfold findOneAndUpdate_feedback. rewrite Hm, Hf. simpl.
  fold (arm_of_message m armIdStr). rewrite <- Hsender.
  by destruct (updateArm _ _ _ _ _) as [b [newStats|err]].
Qed.

End Once.

(** X10.  Feedback addressed to a message counts once.  The first valid
    submission for an unrated chatbot message records [up] for reward 1 and
    [down] for reward 0 on the message, rewards the arm once and answers
    [success] with the arm's new statistics; after it, any number of
    submissions naming that message, by anyone and with any arm, reward or
    chat, leave the whole database as it is. *)
Theorem feedback_by_message_counts_once
    ARMS body u w id armIdStr rewardNum m state i a body' u' n :
  valid_body body armIdStr rewardNum →
  messageId body = Some id → id ≠ "" →
  messages w !! id = Some m →
  Message.sender m = chatbot →
  Message.feedback m = None →
  Message.chat m ≠ "" →
  may_access u (Message.chat m) w →
  (getOrCreateBanditState ARMS (Message.chat m) (bandit w)).2
    = Ok (Some state) →
  find_arm (arm_of_message m armIdStr) (arms state) = Some (i, a) →
  messageId body' = Some id →
  let w1 := (submitFeedback ARMS body u w).1 in
  (submitFeedback ARMS body u w).2
    = Success (arm_of_message m armIdStr) rewardNum (Message.chat m)
        (Some (stats_of (bump rewardNum a))) ∧
  Message.feedback <$> messages w1 !! id
    = Some (Some (if rewardNum =? 1 then up else down)) ∧
  docs (bandit w1) !! Message.chat m
    = Some (<[i := bump rewardNum a]> (arms state)) ∧
  resubmit ARMS n body' u' w1 = w1.
Proof.
  intros Hvalid Hid Hidne Hm Hsender Hf Hchat Hacc Hload Hfind Hid' w1.
  subst w1.
  rewrite (first_feedback ARMS _ _ _ _ _ _ _ Hvalid Hid Hidne Hm Hsender Hf
             Hchat Hacc).
  destruct (getOrCreateBanditState ARMS (Message.chat m) (bandit w))
    as [st1 o] eqn:Hrun.
  simpl in Hload. subst o.
  rewrite (updateArm_store _ _ _ _ _ _ _ Hrun), Hfind. simpl.
  split_and!.
  - done.
  - by rewrite lookup_insert_eq.
  - rewrite lookup_insert_eq. unfold apply_reward. by rewrite Hfind.
  - eapply (rated_message_resubmit ARMS n body' u' _ id); [done|done| |].
    + simpl. apply lookup_insert_eq.
    + done.
Qed.

Lemma feedback_by_message_counts_once_witness :
  let u := {| userId := "u1"; organization := "o1"; role := "member" |} in
  let w :=
    {| messages :=
         {[ "m1" := {| Message.chat := "c1"; Message.sender := chatbot;
                       Message.armId := Some "unified_strict_json";
                       Message.feedback := None |} ]};
       chats := {[ "c1" := {| project := "p1" |} ]};
       projects := {[ "p1" := {| team := Some "t1" |} ]};
       teams := {[ "t1" := {| team_organization := "o1";
                              members := ["u1"] |} ]};
       bandit := empty_store |} in
  let body := {| arm_id := Some "unified_base"; reward := Some 0;
                 messageId := Some "m1"; chatId := None |} in
  let again := {| arm_id := Some "unified_base"; reward := Some 1;
                  messageId := Some "m1"; chatId := Some "c1" |} in
  let w1 := (submitFeedback (source_ARMS None) body u w).1 in
  docs (bandit w1) !! "c1"
    = Some [prior "unified_base";
            {| ArmStats.armId := "unified_strict_json"; ArmStats.alpha := 1;
               ArmStats.beta := 2; ArmStats.pulls := 1 |}] ∧
  resubmit (source_ARMS None) 5 again u w1 = w1.
Proof.
  intros u w body again w1.
  destruct (feedback_by_message_counts_once (source_ARMS None) body u w "m1"
              "unified_base" 0
              {| Message.chat := "c1"; Message.sender := chatbot;
                 Message.armId := Some "unified_strict_json";
                 Message.feedback := None |}
              {| chat := "c1"; arms := priors (source_ARMS None) |}
              1%nat (prior "unified_strict_json") again u 5%nat)
    as (_ & _ & Hdoc & Hsame).
  - repeat split; [discriminate | by left].
  - reflexivity.
  - discriminate.
  - reflexivity.
  - reflexivity.
  - reflexivity.
  - discriminate.
  - exists {| project := "p1" |}, {| team := Some "t1" |}, "t1",
      {| team_organization := "o1"; members := ["u1"] |}.
    split_and!; [reflexivity..|]. right. split; [reflexivity|].
    apply list_elem_of_here.
  - reflexivity.
  - reflexivity.
  - reflexivity.
  - split; [exact Hdoc | exact Hsame].
Defined.

(** X11.  When the request names a message that records its arm, the chat
    and the arm of the feedback are those of the message: the [arm_id] (any
    non-empty one) and the [chatId] of the request have no influence on what
    is written or answered. *)
Theorem message_decides_target ARMS body u w id m armIdStr :
  messageId body = Some id → id ≠ "" →
  messages w !! id = Some m →
  truthy (Message.armId m) = true →
  arm_id body = Some armIdStr → armIdStr ≠ "" →
  submitFeedback ARMS body u w =
  submitFeedback ARMS
    {| arm_id := Message.armId m; reward := reward body;
       messageId := messageId body; chatId := None |} u w.
Proof.
  intros Hid Hidne Hm Harm Hbody Hne.
  destruct (Message.armId m) as [ma|] eqn:Hma; [|done].
  assert (Hmane : String.eqb ma "" = false).
  { simpl in Harm. by destruct (String.eqb ma ""). }
  assert (Hane : String.eqb armIdStr "" = false).
  { by apply String.eqb_neq. }
  unfold submitFeedback. rewrite Hbody. simpl.
  destruct (reward body) as [rewardNum|]; [|done].
  rewrite Hmane, Hane. simpl.
  destruct (negb (rewardNum =? 0) && negb (rewardNum =? 1)); [done|].
  unfold resolve_target. simpl. rewrite Hid, (truthy_Some _ Hidne). simpl.
  rewrite Hm. destruct (Message.sender m); [done|].
  rewrite Hma. simpl. rewrite Hmane. simpl.
  destruct (negb _); [done|].
  destruct (check_access _ _ _); [done|].
  unfold feedback_gate. simpl. rewrite Hid. done.
Qed.

Lemma message_decides_target_witness :
  let u := {| userId := "u1"; organization := "o1"; role := "superadmin" |} in
  let w :=
    {| messages :=
         {[ "m1" := {| Message.chat := "c1"; Message.sender := chatbot;
                       Message.armId := Some "unified_strict_json";
                       Message.feedback := None |} ]};
       chats := {[ "c1" := {| project := "p1" |} ]};
       projects := {[ "p1" := {| team := Some "t1" |} ]};
       teams := {[ "t1" := {| team_organization := "o2"; members := [] |} ]};
       bandit := empty_store |} in
  let body := {| arm_id := Some "unified_base"; reward := Some 1;
                 messageId := Some "m1"; chatId := Some "c7" |} in
  (submitFeedback (source_ARMS None) body u w).2
  = Success "unified_strict_json" 1 "c1"
      (Some {| Stats.alpha := 2; Stats.beta := 1; Stats.pulls := 1 |}).
Proof.
  intros u w body.
  rewrite (message_decides_target (source_ARMS None) body u w "m1"
             {| Message.chat := "c1"; Message.sender := chatbot;
                Message.armId := Some "unified_strict_json";
                Message.feedback := None |} "unified_base");
    [reflexivity|reflexivity|discriminate|reflexivity|reflexivity
    |reflexivity|discriminate].
Defined.

(** Passing the access check is having access. *)
Lemma check_access_passed u effectiveChatId w :
  check_access u effectiveChatId w = None → may_access u effectiveChatId w.
Proof.
  unfold check_access, may_access.
  destruct (chats w !! effectiveChatId) as [c|] eqn:Hc; [|done].
  destruct (projects w !! project c) as [p|] eqn:Hp; [|done].
  destruct (team p) as [t|] eqn:Ht; simpl; [|done].
  destruct (teams w !! t) as [tm|] eqn:Htm; [|done].
  intros Hcheck. exists c, p, t, tm. split_and!; [done..|].
  destruct (String.eqb (role u) "superadmin") eqn:Hsuper; simpl in Hcheck.
  - left. by apply String.eqb_eq.
  - right.
    destruct (String.eqb (team_organization tm) (organization u)) eqn:Horg;
      simpl in Hcheck; [|done].
    apply String.eqb_eq in Horg. split; [done|].
    destruct (find _ (members tm)) as [x|] eqn:Hfind; [|done].
    apply find_some in Hfind as [Hin Heq].
    apply String.eqb_eq in Heq. subst x. by apply list_elem_of_In.
Qed.

(** X12.  The endpoint answers [success] or [already_rated] only to a
    requester who has access to the chat concerned (a superadmin, or a member
    of the team of the chat's project within the team's organization): with
    [success] the chat answered, with [already_rated] the chat of the message
    named, whose feedback is the one reported. *)
Theorem submitFeedback_answers_need_access ARMS body u w :
  match (submitFeedback ARMS body u w).2 with
  | Status _ _ => True
  | Success _ _ c _ => may_access u c w
  | AlreadyRated _ _ f =>
      ∃ m, messages w !! default "" (messageId body) = Some m ∧
           Message.feedback m = Some f ∧
           may_access u (Message.chat m) w
  end.
Proof.
  unfold submitFeedback.
  destruct (reward body) as [rewardNum|]; [|done].
  destruct (_ || _); [done|].
  destruct (resolve_target _ _ _) as [resp|[effectiveChatId effectiveArmId]]
    eqn:Hres.
  { apply resolve_target_refusal in Hres as (s' & e' & -> & _). done. }
  destruct (negb _); [done|].
  destruct (check_access _ _ _) as [resp|] eqn:Hacc.
  { apply check_access_refusal_status in Hacc as (s' & e' & -> & _). done. }
  apply check_access_passed in Hacc.
  destruct (feedback_gate_cases body rewardNum effectiveArmId w)
    as [Hg|[(m & _ & _ & _ & Hg)|[(m & f & Ht & Hm & Hf & Hg)|[_ Hg]]]];
    simpl in Hg; rewrite Hg.
  - by destruct (updateArm _ _ _ _ _) as [b [newStats|err]].
  - by destruct (updateArm _ _ _ _ _) as [b [newStats|err]].
  - simpl. exists m. split_and!; [done..|].
    unfold resolve_target in Hres. rewrite Ht, Hm in Hres.
    destruct (Message.sender m); [done|].
    injection Hres as <- _. exact Hacc.
  - done.
Qed.

(** An arm that neither the registry nor the stored state has is not in the
    state that is loaded. *)
Lemma unknown_arm_not_loaded ARMS chatId armId st st1 state :
  armId ∉ map Arm.armId ARMS →
  (∀ l, docs st !! chatId = Some l → armId ∉ ids l) →
  getOrCreateBanditState ARMS chatId st = (st1, Ok (Some state)) →
  find_arm armId (arms state) = None.
Proof.
  intros Hreg Hstored Hrun.
  destruct (find_arm armId (arms state)) as [[i a]|] eqn:Hfind; [|done].
  exfalso.
  assert (Hin : armId ∈ ids (arms state)).
  { apply find_arm_is_Some. by rewrite Hfind. }
  destruct (docs st !! chatId) as [l|] eqn:E.
  - rewrite (getOrCreate_present _ _ _ _ E) in Hrun.
    injection Hrun as _ <-. simpl in Hin.
    rewrite ids_app, ids_priors in Hin. apply elem_of_app in Hin as [Hin|Hin].
    + by apply (Hstored l).
    + apply Hreg. apply list_elem_of_fmap in Hin as (arm & -> & Harm).
      unfold missing in Harm. apply list_elem_of_filter in Harm as [_ Harm].
      apply list_elem_of_fmap. by exists arm.
  - rewrite (getOrCreate_absent _ _ _ E) in Hrun.
    injection Hrun as _ <-. simpl in Hin. by rewrite ids_priors in Hin.
Qed.

(** X13.  Feedback for a message whose arm is not known is used up without
    any learning: the first valid submission sets the message's feedback and
    answers [success] with [new_stats: null], no arm's statistics change (the
    bandit collection is left as the load leaves it), and the message is
    rated from then on. *)
Theorem unknown_arm_consumes_feedback
    ARMS body u w id armIdStr rewardNum m :
  valid_body body armIdStr rewardNum →
  messageId body = Some id → id ≠ "" →
  messages w !! id = Some m →
  Message.sender m = chatbot →
  Message.feedback m = None →
  Message.chat m ≠ "" →
  may_access u (Message.chat m) w →
  arm_of_message m armIdStr ∉ map Arm.armId ARMS →
  (∀ l, docs (bandit w) !! Message.chat m = Some l →
        arm_of_message m armIdStr ∉ ids l) →
  let w1 := (submitFeedback ARMS body u w).1 in
  (submitFeedback ARMS body u w).2
    = Success (arm_of_message m armIdStr) rewardNum (Message.chat m) None ∧
  bandit w1 = (getOrCreateBanditState ARMS (Message.chat m) (bandit w)).1 ∧
  Message.feedback <$> messages w1 !! id
    = Some (Some (if rewardNum =? 1 then up else down)) ∧
  ∀ body' u', messageId body' = Some id →
    (submitFeedback ARMS body' u' w1).1 = w1.
Proof.
  intros Hvalid Hid Hidne Hm Hsender Hf Hchat Hacc Hreg Hstored w1. subst w1.
  rewrite (first_feedback ARMS _ _ _ _ _ _ _ Hvalid Hid Hidne Hm Hsender Hf
             Hchat Hacc).
  destruct (getOrCreate_total ARMS (Message.chat m) (bandit w))
    as (state & Hstate & _).
  destruct (getOrCreateBanditState ARMS (Message.chat m) (bandit w))
    as [st1 o] eqn:Hrun.
  simpl in Hstate. subst o.
  pose proof (unknown_arm_not_loaded _ _ _ _ _ _ Hreg Hstored Hrun) as Hfind.
  rewrite (updateArm_not_found _ _ _ rewardNum _ _ _ Hrun Hfind). simpl.
  split_and!; [done|done|by rewrite lookup_insert_eq|].
  intros body' u' Hid'.
  apply (rated_message_frame ARMS body' u' _ id
           {| Message.chat := Message.chat m;
              Message.sender := Message.sender m;
              Message.armId := Message.armId m;
              Message.feedback :=
                Some (if rewardNum =? 1 then up else down) |}
           (if rewardNum =? 1 then up else down) Hid' Hidne); [|done].
  simpl. apply lookup_insert_eq.
Qed.

Lemma unknown_arm_consumes_feedback_witness :
  let u := {| userId := "u1"; organization := "o1"; role := "member" |} in
  let w :=
    {| messages :=
         {[ "m1" := {| Message.chat := "c1"; Message.sender := chatbot;
                       Message.armId := Some "retired_arm";
                       Message.feedback := None |} ]};
       chats := {[ "c1" := {| project := "p1" |} ]};
       projects := {[ "p1" := {| team := Some "t1" |} ]};
       teams := {[ "t1" := {| team_organization := "o1";
                              members := ["u1"] |} ]};
       bandit := empty_store |} in
  let body := {| arm_id := Some "retired_arm"; reward := Some 1;
                 messageId := Some "m1"; chatId := None |} in
  (submitFeedback (source_ARMS None) body u w).2
    = Success "retired_arm" 1 "c1" None ∧
  docs (bandit (submitFeedback (source_ARMS None) body u w).1) !! "c1"
    = Some (priors (source_ARMS None)).
Proof.
  intros u w body.
  destruct (unknown_arm_consumes_feedback (source_ARMS None) body u w "m1"
              "retired_arm" 1
              {| Message.chat := "c1"; Message.sender := chatbot;
                 Message.armId := Some "retired_arm";
                 Message.feedback := None |})
    as (Hanswer & Hbandit & _).
  - repeat split; [discriminate | by right].
  - reflexivity.
  - discriminate.
  - reflexivity.
  - reflexivity.
  - reflexivity.
  - discriminate.
  - exists {| project := "p1" |}, {| team := Some "t1" |}, "t1",
      {| team_organization := "o1"; members := ["u1"] |}.
    split_and!; [reflexivity..|]. right. split; [reflexivity|].
    apply list_elem_of_here.
  - not_in_list.
  - intros l Hl. simpl in Hl. by rewrite lookup_empty in Hl.
  - split; [exact Hanswer|]. rewrite Hbandit. reflexivity.
Defined.

(** X14.  The endpoint writes to the messages only to set the feedback of an
    unrated message: it adds and removes none, keeps every message's [chat],
    [sender] and [armId], changes no message but the one the request names,
    and never changes a feedback once it is set; chats, projects and teams
    are left alone. *)
Theorem submitFeedback_feedback_write_once ARMS body u w id m :
  messages w !! id = Some m →
  let w' := (submitFeedback ARMS body u w).1 in
  chats w' = chats w ∧ projects w' = projects w ∧ teams w' = teams w ∧
  dom (messages w') = dom (messages w) ∧
  ∃ m',
    messages w' !! id = Some m' ∧
    Message.chat m' = Message.chat m ∧
    Message.sender m' = Message.sender m ∧
    Message.armId m' = Message.armId m ∧
    (messageId body ≠ Some id → m' = m) ∧
    (∀ f, Message.feedback m = Some f → m' = m).
Proof.
  intros Hm w'. subst w'.
  assert (Hsame : let w' := w in
    chats w' = chats w ∧ projects w' = projects w ∧ teams w' = teams w ∧
    dom (messages w') = dom (messages w) ∧
    ∃ m', messages w' !! id = Some m' ∧
      Message.chat m' = Message.chat m ∧
      Message.sender m' = Message.sender m ∧
      Message.armId m' = Message.armId m ∧
      (messageId body ≠ Some id → m' = m) ∧
      (∀ f, Message.feedback m = Some f → m' = m)).
  { simpl. split_and!; [done..|]. exists m. by split_and!. }
  unfold submitFeedback.
  destruct (reward body) as [rewardNum|]; [|exact Hsame].
  destruct (_ || _); [exact Hsame|].
  destruct (resolve_target _ _ _) as [resp|[effectiveChatId effectiveArmId]];
    [exact Hsame|].
  destruct (negb _); [exact Hsame|].
  destruct (check_access _ _ _) as [resp|]; [exact Hsame|].
  destruct (feedback_gate_cases body rewardNum effectiveArmId w)
    as [Hg|[(m0 & Ht & Hm0 & Hf0 & Hg)|[(m0 & f & _ & _ & _ & Hg)|[_ Hg]]]];
    simpl in Hg; rewrite Hg.
  - by destruct (updateArm _ _ _ _ _) as [b [newStats|err]].
  - assert (Hw : ∀ b,
      let w' := with_bandit
                  (with_messages w
                     (<[default "" (messageId body) :=
                          {| Message.chat := Message.chat m0;
                             Message.sender := Message.sender m0;
                             Message.armId := Message.armId m0;
                             Message.feedback :=
                               Some (if rewardNum =? 1 then up else down) |}]>
                        (messages w))) b in
      chats w' = chats w ∧ projects w' = projects w ∧ teams w' = teams w ∧
      dom (messages w') = dom (messages w) ∧
      ∃ m', messages w' !! id = Some m' ∧
        Message.chat m' = Message.chat m ∧
        Message.sender m' = Message.sender m ∧
        Message.armId m' = Message.armId m ∧
        (messageId body ≠ Some id → m' = m) ∧
        (∀ f, Message.feedback m = Some f → m' = m)).
    { intros b. simpl. split_and!; [done..| |].
      - rewrite dom_insert_L.
        apply subseteq_union_1_L, singleton_subseteq_l, elem_of_dom. eauto.
      - destruct (decide (default "" (messageId body) = id)) as [Heq|Hne].
        + rewrite Heq in *. rewrite Hm in Hm0. injection Hm0 as <-.
          rewrite lookup_insert_eq. eexists. split_and!; [done..| |].
          * intros Hn. exfalso. apply Hn.
            destruct (messageId body) as [x|]; [|done]. simpl in Heq.
            by subst x.
          * intros f Hf. by rewrite Hf in Hf0.
        + rewrite lookup_insert_ne by done. exists m. by split_and!. }
    destruct (updateArm _ _ _ _ _) as [b [newStats|err]]; apply Hw.
  - exact Hsame.
  - exact Hsame.
Qed.

Lemma submitFeedback_feedback_write_once_witness :
  let u := {| userId := "u1"; organization := "o1"; role := "superadmin" |} in
  let rated := {| Message.chat := "c1"; Message.sender := chatbot;
                  Message.armId := Some "unified_base";
                  Message.feedback := Some down |} in
  let w :=
    {| messages := {[ "m1" := rated ]};
       chats := {[ "c1" := {| project := "p1" |} ]};
       projects := {[ "p1" := {| team := Some "t1" |} ]};
       teams := {[ "t1" := {| team_organization := "o1"; members := [] |} ]};
       bandit := empty_store |} in
  let body := {| arm_id := Some "unified_base"; reward := Some 1;
                 messageId := Some "m1"; chatId := None |} in
  messages (submitFeedback (source_ARMS None) body u w).1 !! "m1" = Some rated.
Proof.
  intros u rated w body.
  destruct (submitFeedback_feedback_write_once (source_ARMS None) body u w
              "m1" rated eq_refl)
    as (_ & _ & _ & _ & m' & Hm' & _ & _ & _ & _ & Honce).
  by rewrite Hm', (Honce down eq_refl).
Defined.

(** * The inspection endpoint *)

(** X15.  The inspection handler writes nothing when it answers 400, 403 or
    404; it refuses, and writes nothing, when the requester has no access to
    the chat asked for (so no bandit state is created for a requester
    without access or for a chat that does not exist); and when it answers
    with statistics, the requester has access to the chat and gets the chat
    id, the registry's arms in registry order and statistics for every arm
    listed, the only thing written being what the load writes. *)
Theorem inspection_outcome ARMS chatId u w :
  let answer := Controller.getBanditStats ARMS chatId u w in
  (∀ status error,
     answer.2 = inl (Status status error) →
     status = 400 ∨ status = 403 ∨ status = 404 →
     answer.1 = w) ∧
  (∀ c, chatId = Some c → ¬ may_access u c w →
     ∃ refusal, answer = (w, inl refusal)) ∧
  (∀ body, answer.2 = inr body →
     ∃ c, chatId = Some c ∧ c ≠ "" ∧ may_access u c w ∧
          stats_chatId body = c ∧
          stats_arms body = map (λ a, (Arm.armId a, Arm.notes a)) ARMS ∧
          (∀ arm, arm ∈ ARMS → is_Some (stats body !! Arm.armId arm)) ∧
          answer.1 = with_bandit w (getOrCreateBanditState ARMS c (bandit w)).1).
Proof.
  intros answer. subst answer. unfold Controller.getBanditStats.
  destruct chatId as [c|]; simpl; [|by split_and!].
  destruct (String.eqb c "") eqn:Hc; simpl.
  { split_and!; [done| |done]. intros c' [= <-] _. eauto. }
  apply String.eqb_neq in Hc.
  destruct (check_access u c w) as [r|] eqn:Hacc.
  { split_and!; [done| |done]. intros c' [= <-] _. eauto. }
  apply check_access_passed in Hacc.
  pose proof (getBanditStats_store ARMS c (bandit w)) as Hstore.
  destruct (stats_for_every_registry_arm ARMS c (bandit w))
    as (m & Hm & Hcover).
  destruct (getBanditStats ARMS c (bandit w)) as [b o]. simpl in *.
  subst o b. split_and!.
  - done.
  - by intros c' [= <-] Hno.
  - intros body [= <-]. exists c. by split_and!.
Qed.

(** * The reply endpoint *)

Section Replies.

Variable ARMS : list Arm.t.
Variable Rng : Type.
Variable betaVariate : Z → Z → Rng → Q * Rng.
Variable Analysis : Type.
Variable fastapi : FastApiRequest → Analysis + UpstreamError.
Variable stringify : Analysis → string → string.
Variable trim : string → string.
Variable TypeError_of : Analysis → option string.

Abbreviation handler :=
  (aiReplyHandler ARMS Rng betaVariate Analysis fastapi stringify trim
     TypeError_of).

(** The arm behind a selection. *)
Lemma chooseArm_ok_arm chatId stage s st b selection s' :
  chooseArm ARMS Rng betaVariate chatId stage s st
    = (b, Ok (selection, s')) →
  ∃ arm, arm ∈ ARMS ∧ Arm.stage arm = default "unified" stage ∧
         Selection.armId selection = Arm.armId arm ∧
         Selection.modelName selection = Arm.modelName arm ∧
         Selection.temperature selection = Arm.temperature arm.
Proof.
  unfold chooseArm, bind.
  destruct (getOrCreateBanditState ARMS chatId st) as [st1 [[state|]|e]];
    simpl; [| |done].
  - case_bool_decide as Hlen; [done|].
    destruct (sample_loop _ _ _ _ _ _) as [samples s1] eqn:Hloop.
    rewrite sample_loop_spec in Hloop. simpl in Hloop.
    injection Hloop as <- _.
    set (candidates := filter _ ARMS) in *.
    set (xs := (draws Rng betaVariate (params_of (arms state) candidates)
                  (gen _ s)).1).
    assert (Hxs : length xs = length candidates).
    { subst xs. rewrite length_draws. unfold params_of. by rewrite length_map. }
    pose proof (sort_perm (zip_with (λ c x, {| armConfig := c; sample := x |})
                             candidates xs)) as Hperm.
    destruct (sort _) as [|first rest]; [done|].
    intros [= <- <- <-]. simpl.
    assert (Hin : armConfig first ∈ candidates).
    { destruct (zip_samples candidates xs Hxs) as [Hcfg _].
      rewrite <- Hcfg. apply list_elem_of_fmap. exists first.
      split; [done|]. rewrite <- Hperm. apply list_elem_of_here. }
    subst candidates. apply list_elem_of_filter in Hin as [Hstage Hin].
    by exists (armConfig first).
  - by case_bool_decide.
Qed.

(** What has happened when the handler answers with a reply. *)
Lemma aiReply_replied cfg body u newId s site site' s' reply :
  handler cfg body u newId s site = (site', s', inr reply) →
  ∃ chatId b chosenArm request,
    ai_chatId body = Some chatId ∧ chatId ≠ "" ∧
    chooseArm ARMS Rng betaVariate chatId (Some "unified") s
      (bandit (world site)) = (b, Ok (chosenArm, s')) ∧
    fastapi request = inl (analysis reply) ∧
    req_arm_id request = Selection.armId chosenArm ∧
    req_arm_temperature request = Selection.temperature chosenArm ∧
    req_arm_model request = Selection.modelName chosenArm ∧
    messages (world site) !! newId = None ∧
    reply_arm_id reply = Selection.armId chosenArm ∧
    reply_messageId reply = newId ∧
    site' =
      {| world :=
           with_messages (with_bandit (world site) b)
             (<[newId := {| Message.chat := chatId;
                            Message.sender := chatbot;
                            Message.armId := Some (Selection.armId chosenArm);
                            Message.feedback := None |}]>
                (messages (world site)));
         message_data :=
           <[newId := {| content :=
                           Some (stringify (analysis reply)
                                   (Selection.armId chosenArm));
                         selectedDatasets := []; tempFiles := [] |}]>
             (message_data site);
         chat_messages :=
           <[chatId := default [] (chat_messages site !! chatId) ++ [newId]]>
             (chat_messages site);
         project_datasets := project_datasets site;
         chat_titles := chat_titles site;
         project_chats := project_chats site |}.
Proof.
  unfold aiReplyHandler.
  destruct cfg as [url|]; [|done].
  destruct (ai_chatId body) as [chatId|] eqn:Hchat;
    [|by rewrite orb_true_r].
  destruct (negb (truthy (ai_projectId body)) || negb (truthy (Some chatId))
            || _) eqn:Hvalid; [done|].
  assert (Hne : chatId ≠ "").
  { intros ->. simpl in Hvalid. by rewrite orb_true_r in Hvalid. }
  simpl default.
  destruct (projects (world site) !! _) as [project|]; [|done].
  destruct (chats (world site) !! chatId) as [chat|]; [|done].
  destruct (team project ≫= _) as [team|]; [|done].
  destruct (check_member u team); [done|].
  destruct (_ && _); [done|].
  destruct (chooseArm _ _ _ _ _ _ _) as [b [[chosenArm s1]|err]] eqn:Hchoose;
    [|done].
  destruct url as [msg|apiUrl]; [done|].
  match goal with
  | |- context [fastapi ?r] => set (request := r)
  end.
  destruct (fastapi request) as [a|err] eqn:Hpost; [|done].
  destruct (TypeError_of a); [done|].
  simpl. destruct (messages (world site) !! newId) eqn:Hfresh; [done|].
  intros [= <- <- <-].
  exists chatId, b, chosenArm, request. by split_and!.
Qed.

(** X16.  When the reply handler answers with a reply, the arm in the reply
    is an arm of the registry for the stage ["unified"]; it is the arm whose
    id, model and temperature were posted to the text-generation service; and
    the reply is stored as a new chatbot message of the chat, tagged with
    that arm and without feedback, its id appended to the chat's messages.
    The bandit collection is left as the load leaves it: generating a reply
    rewards nothing. *)
Theorem aiReply_tags_message cfg body u newId s site site' s' reply :
  handler cfg body u newId s site = (site', s', inr reply) →
  ∃ chatId arm request,
    ai_chatId body = Some chatId ∧
    arm ∈ ARMS ∧ Arm.stage arm = "unified" ∧
    reply_arm_id reply = Arm.armId arm ∧
    reply_messageId reply = newId ∧
    fastapi request = inl (analysis reply) ∧
    req_arm_id request = Arm.armId arm ∧
    req_arm_model request = Arm.modelName arm ∧
    req_arm_temperature request = Arm.temperature arm ∧
    messages (world site) !! newId = None ∧
    messages (world site') =
      <[newId := {| Message.chat := chatId; Message.sender := chatbot;
                    Message.armId := Some (Arm.armId arm);
                    Message.feedback := None |}]> (messages (world site)) ∧
    chat_messages site' !! chatId
      = Some (default [] (chat_messages site !! chatId) ++ [newId]) ∧
    content <$> message_data site' !! newId
      = Some (Some (stringify (analysis reply) (Arm.armId arm))) ∧
    bandit (world site')
      = (getOrCreateBanditState ARMS chatId (bandit (world site))).1 ∧
    chats (world site') = chats (world site) ∧
    projects (world site') = projects (world site) ∧
    teams (world site') = teams (world site).
Proof.
  intros Hrun.
  destruct (aiReply_replied _ _ _ _ _ _ _ _ _ Hrun)
    as (chatId & b & chosenArm & request & Hchat & Hne & Hchoose & Hpost
        & Hid & Htemp & Hmodel & Hfresh & Harm & Hmsg & ->).
  destruct (chooseArm_ok_arm _ _ _ _ _ _ _ Hchoose)
    as (arm & Hin & Hstage & Hsel & Hselm & Hselt).
  pose proof (chooseArm_store ARMS Rng betaVariate chatId (Some "unified") s
                (bandit (world site))) as Hstore.
  rewrite Hchoose in Hstore. simpl in Hstore.
  exists chatId, arm, request. simpl.
  rewrite <- Hsel, <- Hselm, <- Hselt.
  split_and!; try done.
  - by rewrite lookup_insert_eq.
  - by rewrite lookup_insert_eq.
Qed.

(** Access does not depend on the messages or on the bandit collection. *)
Lemma may_access_same u c w w' :
  chats w' = chats w → projects w' = projects w → teams w' = teams w →
  may_access u c w → may_access u c w'.
Proof.
  intros Hc Hp Ht. unfold may_access. by rewrite Hc, Hp, Ht.
Qed.

(** X17.  The loop closes on the arm that was chosen: after the handler has
    answered with a reply, a valid feedback submission that names the
    reply's message, by a requester with access to the chat, rewards exactly
    the arm of the reply in the chat of the reply, whatever [arm_id] and
    [chatId] the submission carries, and answers [success] with that arm's
    statistics, one reward above what the chat's state held when the reply
    was generated. *)
Theorem reply_then_feedback
    cfg body u newId s site site' s' reply chatId fb u' armIdStr rewardNum :
  handler cfg body u newId s site = (site', s', inr reply) →
  ai_chatId body = Some chatId →
  newId ≠ "" →
  reply_arm_id reply ≠ "" →
  valid_body fb armIdStr rewardNum →
  messageId fb = Some newId →
  may_access u' chatId (world site) →
  ∃ state i a,
    (getOrCreateBanditState ARMS chatId (bandit (world site))).2
      = Ok (Some state) ∧
    find_arm (reply_arm_id reply) (arms state) = Some (i, a) ∧
    (submitFeedback ARMS fb u' (world site')).2
      = Success (reply_arm_id reply) rewardNum chatId
          (Some (stats_of (bump rewardNum a))) ∧
    docs (bandit (submitFeedback ARMS fb u' (world site')).1) !! chatId
      = Some (<[i := bump rewardNum a]> (arms state)) ∧
    Message.feedback
      <$> messages (submitFeedback ARMS fb u' (world site')).1 !! newId
      = Some (Some (if rewardNum =? 1 then up else down)).
Proof.
  intros Hrun Hbody Hidne Harmne Hvalid Hfb Hacc.
  destruct (aiReply_replied _ _ _ _ _ _ _ _ _ Hrun)
    as (chatId' & b & chosenArm & request & Hchat & Hne & Hchoose & _
        & _ & _ & _ & Hfresh & Harm & _ & ->).
  rewrite Hbody in Hchat. injection Hchat as <-.
  destruct (chooseArm_ok_arm _ _ _ _ _ _ _ Hchoose)
    as (arm & Hin & _ & Hsel & _).
  pose proof (chooseArm_store ARMS Rng betaVariate chatId (Some "unified") s
                (bandit (world site))) as Hstore.
  rewrite Hchoose in Hstore. simpl in Hstore.
  destruct (getOrCreate_total ARMS chatId (bandit (world site)))
    as (state & Hstate & _).
  pose proof (getOrCreate_idempotent ARMS chatId (bandit (world site)))
    as Hidem. simpl in Hidem. rewrite <- Hstore, Hstate in Hidem.
  destruct (getOrCreateBanditState ARMS chatId (bandit (world site)))
    as [st1 o] eqn:Hload.
  simpl in Hstate, Hstore. subst o b.
  destruct (loaded_has_registry ARMS chatId _ _ _ arm Hload Hin)
    as (i & a & Hfind & _).
  rewrite <- Hsel, <- Harm in Hfind.
  exists state, i, a. split; [done|]. split; [done|].
  set (botMsg := {| Message.chat := chatId; Message.sender := chatbot;
                    Message.armId := Some (Selection.armId chosenArm);
                    Message.feedback := None |}).
  assert (Harmof : arm_of_message botMsg armIdStr = reply_arm_id reply).
  { unfold arm_of_message. simpl. rewrite <- Harm.
    apply String.eqb_neq in Harmne. by rewrite Harmne. }
  rewrite (first_feedback ARMS fb u' _ newId armIdStr rewardNum botMsg
             Hvalid Hfb Hidne).
  - simpl. rewrite Harmof.
    rewrite (updateArm_store _ _ _ _ _ _ _ Hidem), Hfind. simpl.
    split_and!; [done| |by rewrite lookup_insert_eq].
    rewrite lookup_insert_eq. unfold apply_reward. by rewrite Hfind.
  - simpl. apply lookup_insert_eq.
  - done.
  - done.
  - done.
  - by eapply may_access_same; [..|exact Hacc].
Qed.

(** X18.  When the reply handler answers with an error it stores no message:
    messages, their further fields, the chats' message lists, datasets,
    chats, projects and teams are as they were.  Either the bandit collection
    and the generator are untouched too, or the request had passed every
    check and the chat's bandit state has been loaded, nothing more. *)
Theorem aiReply_refusal_stores_nothing cfg body u newId s site site' s' r :
  handler cfg body u newId s site = (site', s', inl r) →
  with_world site' (with_bandit (world site') (bandit (world site))) = site ∧
  ((bandit (world site') = bandit (world site) ∧ s' = s) ∨
   ∃ chatId, ai_chatId body = Some chatId ∧ chatId ≠ "" ∧
     bandit (world site')
     = (getOrCreateBanditState ARMS chatId (bandit (world site))).1).
Proof.
  assert (Hsame :
    with_world site (with_bandit (world site) (bandit (world site))) = site).
  { by destruct site as [[] ? ? ?]. }
  unfold aiReplyHandler.
  destruct cfg as [url|]; [|intros [= <- <- _]; auto].
  destruct (ai_chatId body) as [chatId|] eqn:Hchat;
    [|rewrite orb_true_r; intros [= <- <- _]; auto].
  destruct (negb (truthy (ai_projectId body)) || negb (truthy (Some chatId))
            || _) eqn:Hvalid; [intros [= <- <- _]; auto|].
  assert (Hne : chatId ≠ "").
  { intros ->. simpl in Hvalid. by rewrite orb_true_r in Hvalid. }
  simpl default.
  destruct (projects (world site) !! _) as [project|];
    [|intros [= <- <- _]; auto].
  destruct (chats (world site) !! chatId) as [chat|];
    [|intros [= <- <- _]; auto].
  destruct (team project ≫= _) as [team|]; [|intros [= <- <- _]; auto].
  destruct (check_member u team); [intros [= <- <- _]; auto|].
  destruct (_ && _); [intros [= <- <- _]; auto|].
  pose proof (chooseArm_store ARMS Rng betaVariate chatId (Some "unified") s
                (bandit (world site))) as Hstore.
  assert (Hloaded : ∀ b,
    with_world (with_world site (with_bandit (world site) b))
      (with_bandit (world (with_world site (with_bandit (world site) b)))
         (bandit (world site))) = site).
  { intros b. by destruct site as [[] ? ? ?]. }
  destruct (chooseArm _ _ _ _ _ _ _) as [b [[chosenArm s1]|err]];
    simpl in Hstore; subst b.
  - destruct url as [msg|apiUrl].
    + intros [= <- <- _]. split; [apply Hloaded|]. right. by exists chatId.
    + destruct (fastapi _) as [a|err].
      * destruct (TypeError_of a).
        { intros [= <- <- _]. split; [apply Hloaded|]. right.
          by exists chatId. }
        simpl. destruct (messages (world site) !! newId); [|done].
        intros [= <- <- _]. split; [apply Hloaded|]. right. by exists chatId.
      * intros [= <- <- _]. split; [apply Hloaded|]. right. by exists chatId.
  - intros [= <- <- _]. split; [apply Hloaded|]. right. by exists chatId.
Qed.

(** X19.  The reply handler decides access from the project that the request
    names and looks the chat up by its id alone: the project that the chat
    belongs to has no influence on what the handler answers, chooses, posts
    or stores. *)
Theorem aiReply_ignores_chat_project
    cfg body u newId s site chatId c project' :
  ai_chatId body = Some chatId →
  chats (world site) !! chatId = Some c →
  let moved site :=
    with_world site
      (with_chats (world site)
         (<[chatId := {| project := project' |}]> (chats (world site)))) in
  handler cfg body u newId s (moved site) =
    ((moved (handler cfg body u newId s site).1.1),
     (handler cfg body u newId s site).1.2,
     (handler cfg body u newId s site).2).
Proof.
  intros Hchat Hc moved.
  unfold aiReplyHandler.
  destruct cfg as [url|]; [|done].
  rewrite Hchat.
  destruct (negb (truthy (ai_projectId body)) || negb (truthy (Some chatId))
            || _); [done|].
  simpl default. simpl projects. simpl chats. simpl teams.
  destruct (projects (world site) !! _) as [project|]; [|done].
  rewrite lookup_insert_eq, Hc.
  destruct (team project ≫= _) as [team|]; [|done].
  destruct (check_member u team); [done|].
  change (populated_messages (moved site) chatId)
    with (populated_messages site chatId).
  simpl project_datasets.
  destruct (_ && _); [done|].
  simpl bandit.
  destruct (chooseArm _ _ _ _ _ _ _) as [b [[chosenArm s1]|err]]; [|done].
  destruct url as [msg|apiUrl]; [done|].
  destruct (fastapi _) as [a|err]; [|done].
  destruct (TypeError_of a); [done|].
  simpl. by destruct (messages (world site) !! newId).
Qed.

End Replies.

(** The examples: the second arm draws the larger sample and is chosen. *)
Example demo_reply :
  (demo_handler (Some (Parsed "http://llm.example/analyze")) demo_body
     demo_user "m1" {| gen := [(3 # 10)%Q; (7 # 10)%Q]; drawn := [] |}
     demo_site).2
  = inr {| analysis := "insights from gemini-2.5-flash";
           reply_arm_id := "unified_strict_json";
           reply_messageId := "m1" |}.
Proof. reflexivity. Qed.

Lemma aiReply_tags_message_witness :
  let r := demo_handler (Some (Parsed "http://llm.example/analyze")) demo_body
             demo_user "m1"
             {| gen := [(3 # 10)%Q; (7 # 10)%Q]; drawn := [] |} demo_site in
  ∃ arm, arm ∈ source_ARMS None ∧
    messages (world r.1.1) !! "m1"
    = Some {| Message.chat := "c1"; Message.sender := chatbot;
              Message.armId := Some (Arm.armId arm);
              Message.feedback := None |}.
Proof.
  intros r.
  destruct (aiReply_tags_message (source_ARMS None) (list Q) replay string
              demo_fastapi (λ analysis arm_id, analysis +:+ " by " +:+ arm_id)
              (λ text, text) (λ analysis, None)
              (Some (Parsed "http://llm.example/analyze"))
              demo_body demo_user "m1"
              {| gen := [(3 # 10)%Q; (7 # 10)%Q]; drawn := [] |} demo_site
              r.1.1 r.1.2
              {| analysis := "insights from gemini-2.5-flash";
                 reply_arm_id := "unified_strict_json";
                 reply_messageId := "m1" |} eq_refl)
    as (chatId & arm & request & Hchat & Hin & _ & _ & _ & _ & _ & _ & _ & _
        & Hmsg & _).
  injection Hchat as <-. exists arm. split; [done|].
  rewrite Hmsg. apply lookup_insert_eq.
Defined.

Lemma reply_then_feedback_witness :
  let r := demo_handler (Some (Parsed "http://llm.example/analyze")) demo_body
             demo_user "m1"
             {| gen := [(3 # 10)%Q; (7 # 10)%Q]; drawn := [] |} demo_site in
  let fb := {| arm_id := Some "unified_base"; reward := Some 1;
               messageId := Some "m1"; chatId := None |} in
  (submitFeedback (source_ARMS None) fb demo_user (world r.1.1)).2
  = Success "unified_strict_json" 1 "c1"
      (Some {| Stats.alpha := 2; Stats.beta := 1; Stats.pulls := 1 |}).
Proof.
  intros r fb.
  destruct (reply_then_feedback (source_ARMS None) (list Q) replay string
              demo_fastapi (λ analysis arm_id, analysis +:+ " by " +:+ arm_id)
              (λ text, text) (λ analysis, None)
              (Some (Parsed "http://llm.example/analyze"))
              demo_body demo_user "m1"
              {| gen := [(3 # 10)%Q; (7 # 10)%Q]; drawn := [] |} demo_site
              r.1.1 r.1.2
              {| analysis := "insights from gemini-2.5-flash";
                 reply_arm_id := "unified_strict_json";
                 reply_messageId := "m1" |}
              "c1" fb demo_user "unified_base" 1)
    as (state & i & a & Hstate & Hfind & Hanswer & _).
  - reflexivity.
  - reflexivity.
  - discriminate.
  - discriminate.
  - repeat split; [discriminate | by right].
  - reflexivity.
  - exists {| project := "p1" |}, {| team := Some "t1" |}, "t1",
      {| team_organization := "o1"; members := ["u1"] |}.
    split_and!; [reflexivity..|]. right. split; [reflexivity|].
    apply list_elem_of_here.
  - rewrite Hanswer. injection Hstate as <-.
    vm_compute in Hfind. injection Hfind as <- <-. reflexivity.
Defined.

Lemma aiReply_refusal_stores_nothing_witness :
  let failing (request : FastApiRequest) : string + UpstreamError :=
    inr {| err_status := Some 503; err_detail := Some "model overloaded";
           err_error := None; err_text := None; err_code := None;
           err_message := "Request failed with status code 503" |} in
  let r := aiReplyHandler (source_ARMS None) (list Q) replay string failing
             (λ analysis arm_id, analysis) (λ text, text) (λ analysis, None)
             (Some (Parsed "http://llm.example/analyze")) demo_body demo_user
             "m1" {| gen := [(3 # 10)%Q; (7 # 10)%Q]; drawn := [] |}
             demo_site in
  r.2 = inl (Status 503 "model overloaded") ∧
  messages (world r.1.1) = messages (world demo_site) ∧
  chat_messages r.1.1 = chat_messages demo_site.
Proof.
  intros failing r.
  destruct (aiReply_refusal_stores_nothing (source_ARMS None) (list Q) replay
              string failing (λ analysis arm_id, analysis) (λ text, text) (λ analysis, None)
              (Some (Parsed "http://llm.example/analyze")) demo_body demo_user
              "m1" {| gen := [(3 # 10)%Q; (7 # 10)%Q]; drawn := [] |}
              demo_site r.1.1 r.1.2 (Status 503 "model overloaded") eq_refl)
    as [Hsame _].
  split; [reflexivity|].
  rewrite <- Hsame. done.
Defined.

Lemma aiReply_ignores_chat_project_witness :
  let elsewhere :=
    with_world demo_site
      (with_chats (world demo_site) {[ "c1" := {| project := "p2" |} ]}) in
  (demo_handler (Some (Parsed "http://llm.example/analyze")) demo_body
     demo_user "m1" {| gen := [(3 # 10)%Q; (7 # 10)%Q]; drawn := [] |}
     elsewhere).2
  = inr {| analysis := "insights from gemini-2.5-flash";
           reply_arm_id := "unified_strict_json";
           reply_messageId := "m1" |}.
Proof.
  intros elsewhere.
  pose proof (aiReply_ignores_chat_project (source_ARMS None) (list Q) replay
                string demo_fastapi
                (λ analysis arm_id, analysis +:+ " by " +:+ arm_id)
                (λ text, text) (λ analysis, None)
              (Some (Parsed "http://llm.example/analyze"))
                demo_body demo_user "m1"
                {| gen := [(3 # 10)%Q; (7 # 10)%Q]; drawn := [] |} demo_site
                "c1" {| project := "p1" |} "p2" eq_refl eq_refl) as Hmoved.
  cbv zeta in Hmoved.
  replace elsewhere with
    (with_world demo_site
       (with_chats (world demo_site)
          (<["c1" := {| project := "p2" |}]> (chats (world demo_site)))))
    by (subst elsewhere; simpl; by rewrite insert_singleton_eq).
  unfold demo_handler. rewrite Hmoved. reflexivity.
Defined.

(** * Creating and renaming chats *)

Section Chats.

Variable ARMS : list Arm.t.
Variable Rng : Type.
Variable betaVariate : Z → Z → Rng → Q * Rng.
Variable Analysis : Type.
Variable fastapi : FastApiRequest → Analysis + UpstreamError.
Variable stringify : Analysis → string → string.
Variable trim : string → string.
Variable TypeError_of : Analysis → option string.

(** The member check lets through the super-administrators and the members
    of the team's organization that are in the team. *)
Lemma check_member_None u tm :
  check_member u tm = None ↔
  role u = "superadmin" ∨
  (team_organization tm = organization u ∧ userId u ∈ members tm).
Proof.
  unfold check_member.
  destruct (String.eqb (role u) "superadmin") eqn:Hsuper; simpl.
  - apply String.eqb_eq in Hsuper. split; auto.
  - apply String.eqb_neq in Hsuper.
    destruct (String.eqb (team_organization tm) (organization u)) eqn:Horg;
      simpl.
    + apply String.eqb_eq in Horg.
      destruct (find _ (members tm)) as [x|] eqn:Hfind.
      * apply find_some in Hfind as [Hin Heq].
        apply String.eqb_eq in Heq. subst x.
        split; [|done]. intros _. right. split; [done|].
        by apply list_elem_of_In.
      * split; [done|]. intros [Hs|[_ Hin]]; [done|].
        apply list_elem_of_In in Hin.
        apply (find_none _ _ Hfind) in Hin.
        by rewrite String.eqb_refl in Hin.
    + apply String.eqb_neq in Horg. split; [done|].
      by intros [Hs|[Ho _]].
Qed.

Lemma check_member_refusal u tm r :
  check_member u tm = Some r →
  r = Status 403 "Not in this organization." ∨
  r = Status 403 "Not a member of this team.".
Proof.
  unfold check_member.
  destruct (negb (String.eqb (role u) "superadmin")); [|done].
  destruct (negb (String.eqb (team_organization tm) (organization u))).
  - intros [= <-]. by left.
  - destruct (find _ (members tm)); [done|]. intros [= <-]. by right.
Qed.

(** What the creation of a chat stores. *)
Lemma createChat_created cbody u newId site site' doc :
  createChatManually cbody u newId site = (site', inr doc) →
  ∃ projectId p t tm,
    create_projectId cbody = Some projectId ∧ projectId ≠ "" ∧
    projects (world site) !! projectId = Some p ∧ team p = Some t ∧
    teams (world site) !! t = Some tm ∧ check_member u tm = None ∧
    chats (world site) !! newId = None ∧
    doc = {| doc_id := newId; doc_project := projectId;
             doc_title := "New chat"; doc_messages := [] |} ∧
    site' =
      {| world :=
           with_chats (world site)
             (<[newId := {| project := projectId |}]> (chats (world site)));
         message_data := message_data site;
         chat_messages := <[newId := []]> (chat_messages site);
         project_datasets := project_datasets site;
         chat_titles := <[newId := "New chat"]> (chat_titles site);
         project_chats :=
           <[projectId :=
               default [] (project_chats site !! projectId) ++ [newId]]>
             (project_chats site) |}.
Proof.
  unfold createChatManually.
  destruct (create_projectId cbody) as [projectId|] eqn:Hbody; [|done].
  destruct (negb (truthy (Some projectId))) eqn:Hvalid; [done|].
  assert (Hne : projectId ≠ "") by (by intros ->).
  simpl default.
  destruct (projects (world site) !! projectId) as [p|] eqn:Hp; [|done].
  destruct (team p) as [t|] eqn:Ht; [|done]. simpl.
  destruct (teams (world site) !! t) as [tm|] eqn:Htm; [|done].
  destruct (check_member u tm) eqn:Hcheck; [done|].
  destruct (chats (world site) !! newId) eqn:Hfresh; [done|].
  intros [= <- <-]. exists projectId, p, t, tm. by split_and!.
Qed.

(** A chat without messages offers no dataset and no upload. *)
Lemma populated_messages_empty site chatId :
  chat_messages site !! chatId = Some [] → populated_messages site chatId = [].
Proof. intros Hempty. unfold populated_messages. by rewrite Hempty. Qed.

Lemma datasetsContext_empty (datasets : list Dataset) :
  datasetsContext datasets (allDatasetIds []) (allUploadedFiles []) = [].
Proof.
  unfold datasetsContext, allDatasetIds. simpl.
  induction datasets as [|d l IH]; [done|].
  rewrite filter_cons_False; [done|]. set_solver.
Qed.

(** A chat without messages gets no reply: the request is refused before an
    arm is chosen. *)
Lemma aiReply_empty_chat cfg body u newId s site chatId :
  ai_chatId body = Some chatId →
  chat_messages site !! chatId = Some [] →
  ∃ r, aiReplyHandler ARMS Rng betaVariate Analysis fastapi stringify trim
            TypeError_of
         cfg body u newId s site = (site, s, inl r).
Proof.
  intros Hchat Hempty. unfold aiReplyHandler.
  destruct cfg as [url|]; [|eauto].
  rewrite Hchat.
  destruct (negb (truthy (ai_projectId body)) || negb (truthy (Some chatId))
            || _); [eauto|].
  simpl default.
  destruct (projects (world site) !! _) as [p|]; [|eauto].
  destruct (chats (world site) !! chatId) as [c|]; [|eauto].
  destruct (team p ≫= _) as [tm|]; [|eauto].
  destruct (check_member u tm); [eauto|].
  rewrite (populated_messages_empty site chatId Hempty).
  rewrite datasetsContext_empty. simpl. eauto.
Qed.


(** X21.  A chat that [createChatManually] has just created gets no reply:
    whoever asks [aiReplyHandler] for one on it is refused, no arm is chosen
    and nothing is stored; its creator, asking under the project of the chat
    with a content that is not blank, is answered 400 for the missing
    datasets. *)
Theorem created_chat_gets_no_reply cbody u newId site site' doc :
  createChatManually cbody u newId site = (site', inr doc) →
  (∀ cfg body u' id s, ai_chatId body = Some newId →
     ∃ r, aiReplyHandler ARMS Rng betaVariate Analysis fastapi stringify trim
            TypeError_of
            cfg body u' id s site' = (site', s, inl r)) ∧
  (∀ url body id s, ai_chatId body = Some newId → newId ≠ "" →
     ai_projectId body = create_projectId cbody →
     truthy (trim <$> ai_content body) = true →
     aiReplyHandler ARMS Rng betaVariate Analysis fastapi stringify trim
            TypeError_of
       (Some url) body u id s site'
     = (site', s,
        inl (Status 400
               "No datasets selected or uploaded for this chat. Please select a dataset for the chat (or upload a CSV) and try again."))).
Proof.
  intros Hcreate.
  apply createChat_created in Hcreate
    as (projectId & p & t & tm & Hbody & Hne & Hp & Ht & Htm & Hcheck
        & Hfresh & -> & ->).
  split.
  - intros cfg body u' id s Hchat.
    eapply aiReply_empty_chat; [done|]. simpl. apply lookup_insert_eq.
  - intros url body id s Hchat Hid Hproject Hcontent.
    unfold aiReplyHandler. rewrite Hchat, Hproject, Hbody, Hcontent.
    simpl truthy. rewrite !(proj2 (String.eqb_neq _ _)) by done.
    simpl. rewrite Hp, lookup_insert_eq, Ht. simpl. rewrite Htm, Hcheck.
    rewrite populated_messages_empty by apply lookup_insert_eq.
    by rewrite datasetsContext_empty.
Qed.

(** X22.  [createChatManually]: once a chat is created, its creator may
    access it (no one could before, as it did not exist), everyone's access
    to every other chat is as it was, and the messages and the bandit states
    are untouched. *)
Theorem createChat_grants_creator cbody u newId site site' doc :
  createChatManually cbody u newId site = (site', inr doc) →
  may_access u newId (world site') ∧
  (∀ u', ¬ may_access u' newId (world site)) ∧
  (∀ u' c, c ≠ newId →
     may_access u' c (world site') ↔ may_access u' c (world site)) ∧
  messages (world site') = messages (world site) ∧
  bandit (world site') = bandit (world site).
Proof.
  intros Hcreate.
  apply createChat_created in Hcreate
    as (projectId & p & t & tm & Hbody & Hne & Hp & Ht & Htm & Hcheck
        & Hfresh & -> & ->).
  split_and!; [| | |done..].
  - exists {| project := projectId |}, p, t, tm. simpl.
    split_and!; [apply lookup_insert_eq|done..|].
    by apply check_member_None.
  - intros u' (c & _ & _ & _ & Hc & _). by rewrite Hfresh in Hc.
  - intros u' c Hother. unfold may_access. simpl.
    by rewrite lookup_insert_ne.
Qed.

End Chats.


Lemma created_chat_gets_no_reply_witness :
  let created :=
    createChatManually {| create_projectId := Some "p1" |} demo_user "c2"
      demo_site in
  (demo_handler (Some (Parsed "http://llm.example/analyze"))
     {| ai_chatId := Some "c2"; ai_projectId := Some "p1";
        ai_content := Some "plot the sales" |}
     demo_user "m1" {| gen := [(3 # 10)%Q; (7 # 10)%Q]; drawn := [] |}
     created.1).2
  = inl (Status 400
           "No datasets selected or uploaded for this chat. Please select a dataset for the chat (or upload a CSV) and try again.").
Proof.
  intros created.
  destruct (created_chat_gets_no_reply (source_ARMS None) (list Q) replay
              string demo_fastapi
              (λ analysis arm_id, analysis +:+ " by " +:+ arm_id)
              (λ text, text) (λ analysis, None)
              {| create_projectId := Some "p1" |} demo_user
              "c2" demo_site created.1
              {| doc_id := "c2"; doc_project := "p1";
                 doc_title := "New chat"; doc_messages := [] |} eq_refl)
    as [_ Hcreator].
  unfold demo_handler. rewrite Hcreator; [done|done|discriminate|done..].
Defined.

Lemma createChat_grants_creator_witness :
  may_access demo_user "c2"
    (world (createChatManually {| create_projectId := Some "p1" |} demo_user
              "c2" demo_site).1).
Proof.
  destruct (createChat_grants_creator {| create_projectId := Some "p1" |}
              demo_user "c2" demo_site
              (createChatManually {| create_projectId := Some "p1" |}
                 demo_user "c2" demo_site).1
              {| doc_id := "c2"; doc_project := "p1";
                 doc_title := "New chat"; doc_messages := [] |} eq_refl)
    as [Haccess _].
  exact Haccess.
Defined.

(** * Binary64 rounding *)

Section Rounding.

Import PosteriorSampler.

(** [a <= b] excludes [b < a], also for a NaN. *)
Lemma SFleb_SFltb (a b : spec_float) : SFleb a b = true → SFltb b a = false.
Proof.
  unfold SFleb, SFltb.
  destruct a as [s1|s1| |s1 m1 e1], b as [s2|s2| |s2 m2 e2];
    cbv [SFcompare]; try (by destruct s1, s2); try (by destruct s1);
    try (by destruct s2); try done.
  destruct s1, s2; try done.
  - rewrite (Z.compare_antisym e1 e2).
    destruct (e1 ?= e2)%Z; cbn [CompOpp]; try done.
    pose proof (Pos.compare_cont_antisym m1 m2 Eq) as Hanti.
    cbn [CompOpp] in Hanti. rewrite <- Hanti.
    by destruct (Pos.compare_cont Eq m1 m2).
  - rewrite (Z.compare_antisym e1 e2).
    destruct (e1 ?= e2)%Z; cbn [CompOpp]; try done.
    pose proof (Pos.compare_cont_antisym m1 m2 Eq) as Hanti.
    cbn [CompOpp] in Hanti. rewrite <- Hanti.
    by destruct (Pos.compare_cont Eq m1 m2).
Qed.

Lemma digits2_bounds p :
  2 ^ (Z.pos (digits2_pos p) - 1) ≤ Z.pos p < 2 ^ Z.pos (digits2_pos p).
Proof.
  induction p as [p IH|p IH|]; simpl digits2_pos.
  - rewrite Pos2Z.inj_succ.
    replace (Z.succ (Z.pos (digits2_pos p)) - 1)
      with (Z.succ (Z.pos (digits2_pos p) - 1)) by lia.
    rewrite !Z.pow_succ_r by lia. lia.
  - rewrite Pos2Z.inj_succ.
    replace (Z.succ (Z.pos (digits2_pos p)) - 1)
      with (Z.succ (Z.pos (digits2_pos p) - 1)) by lia.
    rewrite !Z.pow_succ_r by lia. lia.
  - done.
Qed.

Lemma Zdigits2_nonneg m : 0 ≤ m → 0 ≤ Zdigits2 m.
Proof. destruct m; simpl; lia. Qed.

Lemma Zdigits2_bounds m :
  0 < m → 2 ^ (Zdigits2 m - 1) ≤ m < 2 ^ Zdigits2 m.
Proof. destruct m as [|p|p]; [lia| |lia]. intros _. apply digits2_bounds. Qed.

Lemma Zdigits2_le_pow m k : 0 ≤ k → 0 ≤ m ≤ 2 ^ k → Zdigits2 m ≤ k + 1.
Proof.
  intros Hk [Hm Hle]. destruct (Z.eq_dec m 0) as [->|Hne]; [simpl; lia|].
  destruct (Zdigits2_bounds m ltac:(lia)) as [Hlow _].
  destruct (Z.le_gt_cases (Zdigits2 m) (k + 1)) as [|Hgt]; [done|].
  assert (2 ^ (k + 1) ≤ 2 ^ (Zdigits2 m - 1))
    by (apply Z.pow_le_mono_r; lia).
  rewrite Z.pow_add_r in H by lia. lia.
Qed.

Lemma Zdigits2_lt_pow m k : 0 ≤ k → 0 ≤ m < 2 ^ k → Zdigits2 m ≤ k.
Proof.
  intros Hk [Hm Hlt]. destruct (Z.eq_dec m 0) as [->|Hne]; [simpl; lia|].
  destruct (Zdigits2_bounds m ltac:(lia)) as [Hlow _].
  destruct (Z.le_gt_cases (Zdigits2 m) k) as [|Hgt]; [done|].
  assert (2 ^ k ≤ 2 ^ (Zdigits2 m - 1)) by (apply Z.pow_le_mono_r; lia).
  lia.
Qed.

Lemma Zdigits2_mono m1 m2 : 0 ≤ m1 ≤ m2 → Zdigits2 m1 ≤ Zdigits2 m2.
Proof.
  intros [H1 H2]. destruct (Z.eq_dec m1 0) as [->|Hne].
  { simpl. apply Zdigits2_nonneg. lia. }
  destruct (Zdigits2_bounds m2 ltac:(lia)) as [_ Hup].
  apply Zdigits2_lt_pow; [apply Zdigits2_nonneg; lia|lia].
Qed.

(** One step of the shift to the right and what it keeps of an exact
    value. *)
Lemma shr_1_m mrs :
  0 ≤ shr_m mrs →
  shr_m (shr_1 mrs) = shr_m mrs / 2 ∧
  (shr_r mrs = false → shr_s mrs = false → shr_m mrs mod 2 = 0 →
   shr_r (shr_1 mrs) = false ∧ shr_s (shr_1 mrs) = false).
Proof.
  destruct mrs as [m r s]. simpl. intros Hm.
  destruct m as [|[p|p|]|p]; simpl; try lia.
  - split; [done|]. by intros -> ->.
  - split.
    + rewrite Pos2Z.inj_xI. apply (Z.div_unique _ _ _ 1); lia.
    + intros _ _ Hodd. rewrite Pos2Z.inj_xI in Hodd.
      rewrite Z.add_comm, Z.mul_comm, Z.mod_add in Hodd by lia. done.
  - split.
    + rewrite Pos2Z.inj_xO. apply (Z.div_unique _ _ _ 0); lia.
    + by intros -> ->.
  - split; [done|]. intros _ _ Hodd. done.
Qed.

Lemma mod_pow_split a x y :
  0 ≤ x → 0 ≤ y → a mod 2 ^ (x + y) = 0 →
  a mod 2 ^ x = 0 ∧ (a / 2 ^ x) mod 2 ^ y = 0.
Proof.
  intros Hx Hy Hmod.
  apply Z.mod_divide in Hmod; [|apply Z.pow_nonzero; lia].
  destruct Hmod as [k ->]. rewrite Z.pow_add_r by done.
  replace (k * (2 ^ x * 2 ^ y)) with (k * 2 ^ y * 2 ^ x) by ring.
  rewrite Z.mod_mul, Z.div_mul by (apply Z.pow_nonzero; lia).
  split; [done|]. apply Z.mod_mul. apply Z.pow_nonzero; lia.
Qed.

Lemma shr_iter n : ∀ mrs,
  0 ≤ shr_m mrs →
  shr_m (SpecFloat.iter_pos shr_1 n mrs) = shr_m mrs / 2 ^ Z.pos n ∧
  (shr_r mrs = false → shr_s mrs = false → shr_m mrs mod 2 ^ Z.pos n = 0 →
   shr_r (SpecFloat.iter_pos shr_1 n mrs) = false ∧
   shr_s (SpecFloat.iter_pos shr_1 n mrs) = false).
Proof.
  induction n as [n IH|n IH|]; intros mrs Hm; simpl SpecFloat.iter_pos.
  - destruct (shr_1_m mrs Hm) as [H1 E1].
    assert (Hm1 : 0 ≤ shr_m (shr_1 mrs)) by (rewrite H1; by apply Z.div_pos).
    destruct (IH _ Hm1) as [H2 E2].
    assert (Hm2 : 0 ≤ shr_m (SpecFloat.iter_pos shr_1 n (shr_1 mrs))).
    { rewrite H2. apply Z.div_pos; [done|]. apply Z.pow_pos_nonneg; lia. }
    destruct (IH _ Hm2) as [H3 E3].
    assert (Hpow : 2 ^ Z.pos n~1 = 2 * 2 ^ Z.pos n * 2 ^ Z.pos n).
    { change 2 with (2 ^ 1) at 2. rewrite <- !Z.pow_add_r by lia.
      f_equal. lia. }
    split.
    + rewrite H3, H2, H1, Hpow.
      rewrite !Z.div_div by (try apply Z.pow_pos_nonneg; lia).
      f_equal. ring.
    + intros Hr Hs Hmod.
      replace (Z.pos n~1) with (1 + (Z.pos n + Z.pos n)) in Hmod by lia.
      apply mod_pow_split in Hmod as [Ha Hb]; [|lia..].
      change (2 ^ 1) with 2 in Ha, Hb.
      apply mod_pow_split in Hb as [Hb Hc]; [|lia..].
      destruct (E1 Hr Hs Ha) as [Hr1 Hs1].
      rewrite <- H1 in Hb, Hc. destruct (E2 Hr1 Hs1 Hb) as [Hr2 Hs2].
      rewrite <- H2 in Hc. by apply E3.
  - destruct (IH _ Hm) as [H2 E2].
    assert (Hm2 : 0 ≤ shr_m (SpecFloat.iter_pos shr_1 n mrs)).
    { rewrite H2. apply Z.div_pos; [done|]. apply Z.pow_pos_nonneg; lia. }
    destruct (IH _ Hm2) as [H3 E3].
    assert (Hpow : 2 ^ Z.pos n~0 = 2 ^ Z.pos n * 2 ^ Z.pos n).
    { rewrite <- !Z.pow_add_r by lia. f_equal. lia. }
    split.
    + rewrite H3, H2, Hpow.
      rewrite !Z.div_div by (try apply Z.pow_pos_nonneg; lia). done.
    + intros Hr Hs Hmod.
      replace (Z.pos n~0) with (Z.pos n + Z.pos n) in Hmod by lia.
      apply mod_pow_split in Hmod as [Hb Hc]; [|lia..].
      destruct (E2 Hr Hs Hb) as [Hr2 Hs2].
      rewrite <- H2 in Hc. by apply E3.
  - destruct (shr_1_m mrs Hm) as [H1 E1]. split; [done|].
    intros Hr Hs Hmod. by apply E1.
Qed.

Lemma shr_fexp_spec m e l :
  0 ≤ m →
  let n := Z.max 0 (fexp prec emax (Zdigits2 m + e) - e) in
  shr_m (shr_fexp prec emax m e l).1 = m / 2 ^ n ∧
  (shr_fexp prec emax m e l).2 = e + n ∧
  (l = loc_Exact → m mod 2 ^ n = 0 →
   loc_of_shr_record (shr_fexp prec emax m e l).1 = loc_Exact).
Proof.
  intros Hm n. subst n. unfold shr_fexp, shr.
  destruct (fexp prec emax (Zdigits2 m + e) - e) as [|p|p] eqn:Hn.
  - simpl. rewrite Z.div_1_r, Z.add_0_r.
    split_and!; [by destruct l as [|[]]|done|]. by intros ->.
  - rewrite Z.max_r by lia. simpl fst. simpl snd.
    destruct (shr_iter p (shr_record_of_loc m l)) as [H1 E1].
    { by destruct l as [|[]]. }
    split_and!.
    + rewrite H1. by destruct l as [|[]].
    + done.
    + intros -> Hmod. destruct (E1 eq_refl eq_refl Hmod) as [Hr Hs].
      destruct (SpecFloat.iter_pos shr_1 p _) as [m' r' s']. simpl in *.
      by subst.
  - rewrite Z.max_l by lia. simpl. rewrite Z.div_1_r, Z.add_0_r.
    split_and!; [by destruct l as [|[]]|done|]. by intros ->.
Qed.

Lemma round_nearest_even_spec mx lx :
  mx ≤ round_nearest_even mx lx ≤ mx + 1 ∧
  (lx = loc_Exact → round_nearest_even mx lx = mx).
Proof.
  unfold round_nearest_even. destruct lx as [|[]]; try destruct (Z.even mx);
    split; try done; lia.
Qed.

(** What the rounding of [m * 2^e] is made of. *)
Lemma binary_round_aux_spec s m e l :
  0 ≤ m →
  let n1 := Z.max 0 (fexp prec emax (Zdigits2 m + e) - e) in
  ∃ mr,
    m / 2 ^ n1 ≤ mr ≤ m / 2 ^ n1 + 1 ∧
    (l = loc_Exact → m mod 2 ^ n1 = 0 → mr = m / 2 ^ n1) ∧
    let n3 := Z.max 0 (fexp prec emax (Zdigits2 mr + (e + n1)) - (e + n1)) in
    binary_round_aux prec emax s m e l =
      match mr / 2 ^ n3 with
      | Z0 => S754_zero s
      | Z.pos p =>
          if e + n1 + n3 <=? emax - prec
          then S754_finite s p (e + n1 + n3) else S754_infinity s
      | Z.neg _ => S754_nan
      end.
Proof.
  intros Hm n1. unfold binary_round_aux.
  destruct (shr_fexp_spec m e l Hm) as (H1 & H2 & H3). fold n1 in H1, H2, H3.
  destruct (shr_fexp prec emax m e l) as [mrs1 e1]. simpl in H1, H2, H3.
  subst e1.
  set (mr := round_nearest_even (shr_m mrs1) (loc_of_shr_record mrs1)).
  destruct (round_nearest_even_spec (shr_m mrs1) (loc_of_shr_record mrs1))
    as [Hr Hexact]. fold mr in Hr, Hexact. rewrite H1 in Hr, Hexact.
  exists mr. split_and!; [lia..| |].
  { intros Hl Hmod. by apply Hexact, H3. }
  assert (Hmr : 0 ≤ mr).
  { assert (0 ≤ m / 2 ^ n1); [|lia].
    apply Z.div_pos; [done|]. apply Z.pow_pos_nonneg; lia. }
  destruct (shr_fexp_spec mr (e + n1) loc_Exact Hmr) as (H4 & H5 & _).
  destruct (shr_fexp prec emax mr (e + n1) loc_Exact) as [mrs2 e2].
  simpl in H4, H5. subst e2. rewrite H4. done.
Qed.

Lemma fexp_eq x : fexp prec emax x = Z.max (x - 53) (-1074).
Proof. reflexivity. Qed.

Lemma canonical_digits m e :
  canonical_mantissa prec emax m e = true →
  Z.pos (digits2_pos m) ≤ 53 ∧ -1074 ≤ e ∧
  (-1074 < e → Z.pos (digits2_pos m) = 53).
Proof.
  unfold canonical_mantissa. rewrite fexp_eq. intros H%Z.eqb_eq. lia.
Qed.

Lemma pow2_div a b : 0 ≤ b ≤ a → 2 ^ a / 2 ^ b = 2 ^ (a - b).
Proof.
  intros Hab. rewrite Z.pow_sub_r by lia. done.
Qed.

(** A value of at most 1 is rounded to at most 1. *)
Lemma round_le_one m e l :
  0 ≤ m ≤ 2 ^ (- e) → e ≤ -53 →
  (m = 2 ^ (- e) → l = loc_Exact) →
  SFleb (binary_round_aux prec emax false m e l)
    (S754_finite false 4503599627370496 (-52)) = true.
Proof.
  intros [Hm Hle] He Hexact.
  destruct (binary_round_aux_spec false m e l Hm) as (mr & Hmr & Hsame & ->).
  cbv zeta in *.
  set (n1 := Z.max 0 (fexp prec emax (Zdigits2 m + e) - e)) in *.
  assert (Hd : Zdigits2 m ≤ - e + 1) by (apply Zdigits2_le_pow; lia).
  assert (Hn1 : 0 ≤ n1 ∧ e + n1 ≤ -52).
  { subst n1. rewrite fexp_eq. lia. }
  set (es := e + n1) in *.
  assert (Hp1 : 0 < 2 ^ n1) by (apply Z.pow_pos_nonneg; lia).
  assert (Hms : m / 2 ^ n1 ≤ 2 ^ (- es)).
  { replace (- es) with (- e - n1) by lia. rewrite <- pow2_div by lia.
    by apply Z.div_le_mono. }
  assert (Hmr' : 0 ≤ mr ≤ 2 ^ (- es)).
  { assert (0 ≤ m / 2 ^ n1) by (by apply Z.div_pos).
    split; [lia|].
    destruct (Z.eq_dec (m / 2 ^ n1) (2 ^ (- es))) as [Heq|Hne]; [|lia].
    assert (Hfull : m = 2 ^ (- e)).
    { pose proof (Z.mul_div_le m (2 ^ n1) Hp1) as Hlow.
      rewrite Heq, <- Z.pow_add_r in Hlow by lia.
      replace (n1 + - es) with (- e) in Hlow by lia. lia. }
    rewrite Hsame; [lia|by apply Hexact|].
    rewrite Hfull. replace (- e) with (- es + n1) by lia.
    rewrite Z.pow_add_r by lia. apply Z.mod_mul. lia. }
  set (n3 := Z.max 0 (fexp prec emax (Zdigits2 mr + es) - es)).
  assert (Hd3 : Zdigits2 mr ≤ - es + 1) by (apply Zdigits2_le_pow; lia).
  assert (Hn3 : 0 ≤ n3 ∧ es + n3 ≤ -52).
  { subst n3. rewrite fexp_eq. lia. }
  assert (Hp3 : 0 < 2 ^ n3) by (apply Z.pow_pos_nonneg; lia).
  assert (Hmf : 0 ≤ mr / 2 ^ n3 ≤ 2 ^ (- (es + n3))).
  { split; [apply Z.div_pos; lia|].
    replace (- (es + n3)) with (- es - n3) by lia.
    rewrite <- pow2_div by lia. apply Z.div_le_mono; lia. }
  destruct (mr / 2 ^ n3) as [|p|p] eqn:Hq; [done| |lia].
  rewrite (proj2 (Z.leb_le _ _)) by (change (emax - prec) with 971; lia).
  cbv [SFleb SFcompare].
  destruct (Z.compare_spec (es + n3) (-52)) as [Heq|Hlt|Hgt]; [|done|lia].
  rewrite Heq in Hmf. change (2 ^ (- -52)) with 4503599627370496 in Hmf.
  rewrite Pos.compare_cont_spec. cbn [Pos.switch_Eq].
  destruct (Pos.compare_spec p 4503599627370496) as [Hp|Hp|Hp]; [done..|].
  lia.
Qed.

(** The order of two positive finite numbers, in terms of their mantissas
    and exponents. *)
Lemma SFleb_finite m1 e1 m2 e2 :
  SFleb (S754_finite false m1 e1) (S754_finite false m2 e2) = true ↔
  e1 < e2 ∨ (e1 = e2 ∧ Z.pos m1 ≤ Z.pos m2).
Proof.
  cbv [SFleb SFcompare].
  destruct (Z.compare_spec e1 e2) as [Heq|Hlt|Hgt].
  - rewrite Pos.compare_cont_spec. cbn [Pos.switch_Eq].
    destruct (Pos.compare_spec m1 m2) as [Hp|Hp|Hp]; split; try done;
      try lia; try (intros [?|[_ ?]]; lia).
  - split; [lia|done].
  - split; [done|lia].
Qed.

Lemma SFleb_values m1 e1 m2 e2 :
  canonical_mantissa prec emax m1 e1 = true →
  canonical_mantissa prec emax m2 e2 = true →
  SFleb (S754_finite false m1 e1) (S754_finite false m2 e2) = true →
  e1 ≤ e2 ∧
  Z.pos (digits2_pos m1) + e1 ≤ Z.pos (digits2_pos m2) + e2 ∧
  Z.pos m1 ≤ Z.pos m2 * 2 ^ (e2 - e1).
Proof.
  intros (Hd1 & Hmin1 & Hn1)%canonical_digits
         (Hd2 & Hmin2 & Hn2)%canonical_digits Hle%SFleb_finite.
  destruct Hle as [Hlt|[-> Hm]].
  - specialize (Hn2 ltac:(lia)).
    pose proof (digits2_bounds m1) as [_ Hup1].
    pose proof (digits2_bounds m2) as [Hlow2 _].
    rewrite Hn2 in Hlow2. change (2 ^ (53 - 1)) with 4503599627370496 in Hlow2.
    assert (Hup : Z.pos m1 < 2 ^ 53).
    { eapply Z.lt_le_trans; [exact Hup1|]. apply Z.pow_le_mono_r; lia. }
    change (2 ^ 53) with 9007199254740992 in Hup.
    assert (Hpow : 2 ^ 1 ≤ 2 ^ (e2 - e1)) by (apply Z.pow_le_mono_r; lia).
    change (2 ^ 1) with 2 in Hpow.
    split_and!; [lia..|]. nia.
  - rewrite Z.sub_diag, Z.mul_1_r. split_and!; [lia| |done].
    pose proof (Zdigits2_mono (Z.pos m1) (Z.pos m2) ltac:(lia)). simpl in *.
    lia.
Qed.

Lemma new_location_zero m : new_location m 0 = loc_Exact.
Proof. unfold new_location. by destruct (Z.even m). Qed.

(** Dividing a positive finite number by one that is at least as large gives
    at most 1. *)
Lemma SFdiv_le_one m1 e1 m2 e2 :
  canonical_mantissa prec emax m1 e1 = true →
  canonical_mantissa prec emax m2 e2 = true →
  SFleb (S754_finite false m1 e1) (S754_finite false m2 e2) = true →
  SFleb (SFdiv prec emax (S754_finite false m1 e1) (S754_finite false m2 e2))
    (S754_finite false 4503599627370496 (-52)) = true.
Proof.
  intros Hc1 Hc2 Hle.
  destruct (SFleb_values _ _ _ _ Hc1 Hc2 Hle) as (He & Hd & Hv).
  unfold SFdiv, SFdiv_core_binary. cbn [Zdigits2 xorb].
  set (e' := Z.min (fexp prec emax (Z.pos (digits2_pos m1) + e1
                                    - (Z.pos (digits2_pos m2) + e2)))
               (e1 - e2)).
  assert (He' : e' ≤ -53 ∧ e' ≤ e1 - e2).
  { subst e'. rewrite fexp_eq. lia. }
  set (s := e1 - e2 - e').
  set (m' := match s with
             | 0 => Z.pos m1
             | Z.pos _ => Z.shiftl (Z.pos m1) s
             | Z.neg _ => 0
             end).
  assert (Hm' : m' = Z.pos m1 * 2 ^ s).
  { subst m'. destruct s as [|p|p] eqn:Hs; [lia| |lia].
    by rewrite Z.shiftl_mul_pow2. }
  clearbody m'. subst m'.
  assert (Hbound : Z.pos m1 * 2 ^ s ≤ Z.pos m2 * 2 ^ (- e')).
  { replace (- e') with (e2 - e1 + s) by lia.
    rewrite Z.pow_add_r, Z.mul_assoc by lia.
    apply Z.mul_le_mono_nonneg_r; [|done]. apply Z.pow_nonneg. lia. }
  pose proof (Z_div_mod (Z.pos m1 * 2 ^ s) (Z.pos m2) ltac:(lia)) as Hdm.
  destruct (Z.div_eucl (Z.pos m1 * 2 ^ s) (Z.pos m2)) as [q r].
  destruct Hdm as [Heq Hr].
  assert (Hq0 : 0 ≤ q).
  { assert (0 ≤ Z.pos m1 * 2 ^ s) by (apply Z.mul_nonneg_nonneg;
      [lia|apply Z.pow_nonneg; lia]). nia. }
  assert (Hq : q ≤ 2 ^ (- e')).
  { assert (0 < 2 ^ (- e')) by (apply Z.pow_pos_nonneg; lia). nia. }
  apply round_le_one; [lia|lia|].
  intros ->. replace r with 0 by nia. apply new_location_zero.
Qed.

Lemma high_bits a D : 53 ≤ D → 2 ^ (D - 1) ≤ a → 2 ^ 52 ≤ a / 2 ^ (D - 53).
Proof.
  intros HD Ha. apply Z.div_le_lower_bound; [apply Z.pow_pos_nonneg; lia|].
  rewrite <- Z.pow_add_r by lia. by replace (D - 53 + 52) with (D - 1) by lia.
Qed.

(** A value of at least [m1 * 2^e1] is rounded to at least that number. *)
Lemma round_ge m1 e1 m e l :
  canonical_mantissa prec emax m1 e1 = true →
  e ≤ e1 → Z.pos m1 * 2 ^ (e1 - e) ≤ m →
  SFleb (S754_finite false m1 e1) (binary_round_aux prec emax false m e l)
    = true.
Proof.
  intros Hc He Hv.
  assert (Hpow : 0 < 2 ^ (e1 - e)) by (apply Z.pow_pos_nonneg; lia).
  assert (Hm : 0 < m) by nia.
  destruct (binary_round_aux_spec false m e l ltac:(lia))
    as (mr & Hmr & _ & ->).
  cbv zeta in *.
  pose proof Hc as Hfexp. unfold canonical_mantissa in Hfexp.
  apply Z.eqb_eq in Hfexp. rewrite fexp_eq in Hfexp.
  destruct (canonical_digits _ _ Hc) as (Hd1 & Hmin1 & _).
  destruct (Zdigits2_bounds m Hm) as [Hlow Hup].
  pose proof (digits2_bounds m1) as [Hlow1 _].
  assert (Hdig : Z.pos (digits2_pos m1) + e1 ≤ Zdigits2 m + e).
  { assert (Hlt : 2 ^ (Z.pos (digits2_pos m1) - 1 + (e1 - e))
                  < 2 ^ Zdigits2 m).
    { rewrite Z.pow_add_r by lia. nia. }
    apply Z.pow_lt_mono_r_iff in Hlt; [lia|lia|].
    apply Zdigits2_nonneg. lia. }
  set (n1 := Z.max 0 (fexp prec emax (Zdigits2 m + e) - e)) in *.
  assert (Hn1 : e1 - e ≤ n1 ∧ n1 = Z.max (Zdigits2 m + e - 53) (-1074) - e).
  { subst n1. rewrite fexp_eq. lia. }
  assert (Hms : 0 ≤ m / 2 ^ n1).
  { apply Z.div_pos; [lia|]. apply Z.pow_pos_nonneg; lia. }
  set (n3 := Z.max 0 (fexp prec emax (Zdigits2 mr + (e + n1)) - (e + n1))).
  assert (Hmf : (e + n1 + n3 = e1 ∧ Z.pos m1 ≤ mr / 2 ^ n3) ∨
                (e1 < e + n1 + n3 ∧ 0 < mr / 2 ^ n3)).
  { destruct (Z.eq_dec n3 0) as [Hz|Hnz].
    - rewrite Hz, Z.pow_0_r, Z.div_1_r, Z.add_0_r.
      destruct (Z.eq_dec (e + n1) e1) as [Heq|Hne].
      + left. split; [done|].
        replace n1 with (e1 - e) in * by lia.
        assert (Z.pos m1 ≤ m / 2 ^ (e1 - e)); [|lia].
        apply Z.div_le_lower_bound; [done|lia].
      + right. split; [lia|].
        assert (Hn : n1 = Zdigits2 m - 53) by lia.
        pose proof (high_bits m (Zdigits2 m) ltac:(lia) Hlow) as Hhigh.
        rewrite <- Hn in Hhigh.
        assert (0 < 2 ^ 52) by done. lia.
    - right. assert (Hn3 : 0 < n3) by (subst n3; lia).
      split; [lia|].
      assert (Hd : n3 = Zdigits2 mr - 53 ∧ 53 < Zdigits2 mr).
      { subst n3. rewrite fexp_eq in *. lia. }
      destruct Hd as [Hd Hbig].
      assert (Hmr0 : 0 < mr).
      { destruct (Z.eq_dec mr 0) as [->|]; [simpl in Hbig; lia|lia]. }
      destruct (Zdigits2_bounds mr Hmr0) as [Hlowr _].
      pose proof (high_bits mr (Zdigits2 mr) ltac:(lia) Hlowr) as Hhigh.
      rewrite <- Hd in Hhigh.
      assert (0 < 2 ^ 52) by done. lia. }
  clearbody n3.
  destruct (mr / 2 ^ n3) as [|p|p] eqn:Hq; [lia| |lia].
  destruct (e + n1 + n3 <=? emax - prec); [|done].
  apply SFleb_finite. lia.
Qed.

Lemma iter_xO m d : Z.pos (Pos.iter xO m d) = Z.pos m * 2 ^ Z.pos d.
Proof.
  induction d as [|d IH] using Pos.peano_ind.
  - simpl. lia.
  - rewrite Pos.iter_succ, Pos2Z.inj_succ, Z.pow_succ_r by lia.
    rewrite Pos2Z.inj_xO, IH. ring.
Qed.

Lemma shl_align_value m e ez :
  ez ≤ e → Z.pos (fst (shl_align m e ez)) = Z.pos m * 2 ^ (e - ez).
Proof.
  intros He. unfold shl_align.
  destruct (ez - e) as [|d|d] eqn:Hd; [|lia|].
  - replace (e - ez) with 0 by lia. simpl. lia.
  - simpl fst. rewrite iter_xO. f_equal. f_equal. lia.
Qed.

Lemma binary_round_aux_sign m e l :
  sign_clear (binary_round_aux prec emax false m e l).
Proof.
  unfold binary_round_aux.
  destruct (shr_fexp prec emax m e l) as [mrs' e'].
  destruct (shr_fexp prec emax _ e' loc_Exact) as [mrs'' e''].
  destruct (shr_m mrs''); [done| |done].
  by destruct (e'' <=? emax - prec).
Qed.

Lemma binary_round_sign m e : sign_clear (binary_round prec emax false m e).
Proof.
  unfold binary_round. destruct (shl_align m e _) as [mz ez].
  apply binary_round_aux_sign.
Qed.

(** The sum of two positive finite numbers is at least the first. *)
Lemma SFadd_ge m1 e1 m2 e2 :
  canonical_mantissa prec emax m1 e1 = true →
  SFleb (S754_finite false m1 e1)
    (SFadd prec emax (S754_finite false m1 e1) (S754_finite false m2 e2))
    = true.
Proof.
  intros Hc. unfold SFadd. cbn [cond_Zopp].
  set (ez := Z.min e1 e2).
  assert (Hez : ez ≤ e1 ∧ ez ≤ e2) by (subst ez; lia).
  pose proof (shl_align_value m1 e1 ez ltac:(lia)) as H1.
  set (p1 := fst (shl_align m1 e1 ez)) in *.
  set (p2 := fst (shl_align m2 e2 ez)).
  change (Z.pos p1 + Z.pos p2) with (Z.pos (p1 + p2)).
  cbn [binary_normalize]. unfold binary_round.
  assert (Hval : Z.pos m1 * 2 ^ (e1 - ez) ≤ Z.pos (p1 + p2)) by lia.
  assert (Hex : ez ≤ fexp prec emax (Z.pos (digits2_pos (p1 + p2)) + ez)).
  { pose proof Hc as Hfexp. unfold canonical_mantissa in Hfexp.
    apply Z.eqb_eq in Hfexp. rewrite fexp_eq in Hfexp. rewrite fexp_eq.
    pose proof (digits2_bounds (p1 + p2)) as [_ Hup].
    pose proof (digits2_bounds m1) as [Hlow1 _].
    assert (Hpow : 0 < 2 ^ (e1 - ez)) by (apply Z.pow_pos_nonneg; lia).
    assert (Hlt : 2 ^ (Z.pos (digits2_pos m1) - 1 + (e1 - ez))
                  < 2 ^ Z.pos (digits2_pos (p1 + p2))).
    { rewrite Z.pow_add_r by lia. nia. }
    apply Z.pow_lt_mono_r_iff in Hlt; lia. }
  unfold shl_align.
  destruct (fexp prec emax (Z.pos (digits2_pos (p1 + p2)) + ez) - ez)
    eqn:Hd; [| |lia]; apply round_ge; done || lia.
Qed.

Lemma SFmul_sign x y :
  sign_clear x → sign_clear y → sign_clear (SFmul prec emax x y).
Proof.
  destruct x as [s1|s1| |s1 m1 e1], y as [s2|s2| |s2 m2 e2]; simpl sign_clear;
    try done; intros -> ->; try done.
  apply binary_round_aux_sign.
Qed.

Lemma SFadd_sign x y :
  sign_clear x → sign_clear y → sign_clear (SFadd prec emax x y).
Proof.
  destruct x as [s1|s1| |s1 m1 e1], y as [s2|s2| |s2 m2 e2]; simpl sign_clear;
    try done; intros -> ->; try done.
  unfold SFadd. cbn [cond_Zopp].
  set (p1 := fst (shl_align m1 e1 _)). set (p2 := fst (shl_align m2 e2 _)).
  change (Z.pos p1 + Z.pos p2) with (Z.pos (p1 + p2)).
  apply binary_round_sign.
Qed.

Lemma SFdiv_sign x y :
  sign_clear x → sign_clear y → sign_clear (SFdiv prec emax x y).
Proof.
  destruct x as [s1|s1| |s1 m1 e1], y as [s2|s2| |s2 m2 e2]; simpl sign_clear;
    try done; intros -> ->; try done.
  unfold SFdiv.
  destruct (SFdiv_core_binary prec emax (Z.pos m1) e1 (Z.pos m2) e2)
    as [[mz ez] lz].
  apply binary_round_aux_sign.
Qed.

Lemma sign_clear_not_below_zero x :
  sign_clear x → SFltb x (S754_zero false) = false.
Proof. destruct x as [s|s| |s m e]; simpl; try done; by intros ->. Qed.

Lemma above_zero_sign_clear x :
  SFleb x (S754_zero false) = false → sign_clear x.
Proof. destruct x as [s|s| |s m e]; simpl; try done; by destruct s. Qed.

Lemma valid_canonical s m e :
  valid_binary (S754_finite s m e) = true →
  canonical_mantissa prec emax m e = true.
Proof. simpl. unfold bounded. by intros [? _]%andb_true_iff. Qed.

(** The quotient [x / (x + y)] of two numbers with a clear sign is not above
    1. *)
Lemma SF_quotient_le_one x y :
  valid_binary x = true → valid_binary (SFadd prec emax x y) = true →
  sign_clear x → sign_clear y →
  SFltb (S754_finite false 4503599627370496 (-52))
    (SFdiv prec emax x (SFadd prec emax x y)) = false.
Proof.
  intros Hx Hs.
  destruct x as [s1|s1| |s1 m1 e1], y as [s2|s2| |s2 m2 e2]; simpl sign_clear;
    try done; intros -> ->; try done.
  - simpl SFadd. apply SFleb_SFltb. apply SFdiv_le_one.
    + by eapply valid_canonical.
    + by eapply valid_canonical.
    + apply SFleb_finite. lia.
  - pose proof (SFadd_ge m1 e1 m2 e2 (valid_canonical _ _ _ Hx)) as Hge.
    destruct (SFadd prec emax (S754_finite false m1 e1)
                (S754_finite false m2 e2)) as [s|s| |s m e]; try done.
    destruct s; [done|]. apply SFleb_SFltb. apply SFdiv_le_one; [..|done].
    + by eapply valid_canonical.
    + by eapply valid_canonical.
Qed.

Lemma mul_not_negative x y :
  not_negative x → not_negative y → not_negative (x * y).
Proof. unfold not_negative. rewrite FloatAxioms.mul_spec. apply SFmul_sign. Qed.

Lemma quotient_range (a b : float) :
  not_negative a → not_negative b →
  (a / (a + b) <? 0)%float = false ∧ (1 <? a / (a + b))%float = false.
Proof.
  unfold not_negative. intros Ha Hb.
  rewrite !FloatAxioms.ltb_spec, FloatAxioms.div_spec.
  pose proof (Prim2SF_valid (a + b)) as Hs. rewrite FloatAxioms.add_spec in *.
  change (Prim2SF 0%float) with (S754_zero false).
  change (Prim2SF 1%float) with (S754_finite false 4503599627370496 (-52)).
  split.
  - apply sign_clear_not_below_zero, SFdiv_sign; [done|].
    by apply SFadd_sign.
  - apply SF_quotient_le_one; [apply Prim2SF_valid|done..].
Qed.

Lemma above_zero_not_negative (v : float) :
  (v <=? 0)%float = false → not_negative v.
Proof. rewrite FloatAxioms.leb_spec. apply above_zero_sign_clear. Qed.

(** [shape - 1 / 3] for a shape of at least 1. *)
Lemma sub_third_not_negative (shape : float) :
  (1 <=? shape)%float = true → not_negative (shape - 1 / 3).
Proof.
  unfold not_negative. rewrite FloatAxioms.leb_spec, FloatAxioms.sub_spec.
  pose proof (Prim2SF_valid shape) as Hvalid.
  change (Prim2SF 1%float) with (S754_finite false 4503599627370496 (-52)).
  change (Prim2SF (1 / 3)%float)
    with (S754_finite false 6004799503160661 (-54)).
  destruct (Prim2SF shape) as [s|s| |s m e]; try done.
  { by destruct s. }
  destruct s; [done|]. intros Hle%SFleb_finite.
  apply valid_canonical, canonical_digits in Hvalid as (_ & _ & Hdig).
  specialize (Hdig ltac:(lia)). pose proof (digits2_bounds m) as [Hlow _].
  rewrite Hdig in Hlow. change (2 ^ (53 - 1)) with 4503599627370496 in Hlow.
  unfold SF64sub, SFsub. cbn [cond_Zopp]. cbv zeta.
  rewrite Z.min_r by lia.
  rewrite (shl_align_value m e (-54)) by lia.
  rewrite (shl_align_value 6004799503160661 (-54) (-54)) by lia.
  rewrite Z.sub_diag, Z.pow_0_r, Z.mul_1_r.
  assert (Hpow : 2 ^ 2 ≤ 2 ^ (e - -54)) by (apply Z.pow_le_mono_r; lia).
  change (2 ^ 2) with 4 in Hpow.
  destruct (Z.pos m * 2 ^ (e - -54) - 6004799503160661) as [|p|p] eqn:Hp;
    [nia| |nia].
  apply binary_round_sign.
Qed.

End Rounding.

(** * The posterior sampler *)

Section Sampling.

Import PosteriorSampler.

Variable log cos : float → float.
Variable pow : float → float → float.
Variable random : nat → float.

(** A shape of at least 1 is not below 1. *)
Lemma leb_ltb (x : float) : (1 <=? x)%float = true → (x <? 1)%float = false.
Proof.
  rewrite FloatAxioms.leb_spec, FloatAxioms.ltb_spec. apply SFleb_SFltb.
Qed.

(** The loop, one turn at a time. *)
Lemma while_true_turn fuel d c n :
  while_true log cos random (S fuel) d c n =
    match turn log cos random d c n with
    | (Some g, n') => Some (g, n')
    | (None, n') => while_true log cos random fuel d c n'
    end.
Proof.
  unfold turn. simpl. destruct (randn log cos random n) as [x n1].
  destruct (_ <=? _)%float; [done|].
  destruct (_ <? _)%float; [done|]. simpl.
  by destruct (_ <? _)%float.
Qed.

Lemma while_true_accepted d c k : ∀ n g n' fuel,
  accepted log cos random d c n k = Some (g, n') →
  (k < fuel)%nat →
  while_true log cos random fuel d c n = Some (g, n').
Proof.
  induction k as [|k IH]; intros n g n' [|fuel] Hacc Hfuel; try lia;
    rewrite while_true_turn; simpl in Hacc;
    destruct (turn log cos random d c n) as [[g1|] n1]; try done.
  apply IH; [done|lia].
Qed.

Lemma while_true_returns fuel : ∀ d c n g n',
  while_true log cos random fuel d c n = Some (g, n') →
  ∃ k, (k < fuel)%nat ∧ accepted log cos random d c n k = Some (g, n').
Proof.
  induction fuel as [|fuel IH]; intros d c n g n'; [done|].
  rewrite while_true_turn.
  destruct (turn log cos random d c n) as [[g1|] n1] eqn:Hturn.
  - intros [= <- <-]. exists 0%nat. split; [lia|]. simpl. by rewrite Hturn.
  - intros Hloop. destruct (IH _ _ _ _ _ Hloop) as (k & Hk & Hacc).
    exists (S k). split; [lia|]. simpl. by rewrite Hturn.
Qed.

(** The number of turns that go back to the draw before one returns, if one
    does, is determined. *)
Lemma accepted_unique d c k : ∀ n k' r r',
  accepted log cos random d c n k = Some r →
  accepted log cos random d c n k' = Some r' →
  k = k' ∧ r = r'.
Proof.
  induction k as [|k IH]; intros n [|k'] r r'; simpl;
    destruct (turn log cos random d c n) as [[g1|] n1]; try done.
  - by intros [= <-] [= <-].
  - intros H1 H2. destruct (IH _ _ _ _ H1 H2) as [-> ->]. done.
Qed.

(** For a shape of at least 1, [sampleGamma] is its loop. *)
Lemma sampleGamma_loop fuel shape n :
  (1 <=? shape)%float = true →
  sampleGamma log cos pow random (S fuel) shape n =
    while_true log cos random fuel (shape - 1 / 3)%float
      (1 / sqrt (9 * (shape - 1 / 3)))%float n.
Proof. intros Hshape. simpl. by rewrite (leb_ltb _ Hshape). Qed.

Lemma sampleGamma_accepted shape n g n' :
  (1 <=? shape)%float = true →
  (∃ fuel, sampleGamma log cos pow random fuel shape n = Some (g, n')) ↔
  (∃ k, accepted log cos random (shape - 1 / 3)%float
          (1 / sqrt (9 * (shape - 1 / 3)))%float n k = Some (g, n')).
Proof.
  intros Hshape. split.
  - intros [[|fuel] Hrun]; [done|].
    rewrite (sampleGamma_loop _ _ _ Hshape) in Hrun.
    destruct (while_true_returns _ _ _ _ _ _ Hrun) as (k & _ & Hacc). eauto.
  - intros [k Hacc]. exists (S (S k)).
    rewrite (sampleGamma_loop _ _ _ Hshape).
    eapply while_true_accepted; [done|lia].
Qed.

Lemma sampleGamma_fuel fuel fuel' shape n r :
  (1 <=? shape)%float = true →
  (fuel ≤ fuel')%nat →
  sampleGamma log cos pow random fuel shape n = Some r →
  sampleGamma log cos pow random fuel' shape n = Some r.
Proof.
  intros Hshape Hle. destruct fuel as [|fuel]; [done|].
  destruct fuel' as [|fuel']; [lia|].
  rewrite !(sampleGamma_loop _ _ _ Hshape). destruct r as [g n'].
  intros Hrun. destruct (while_true_returns _ _ _ _ _ _ Hrun) as (k & Hk & Hacc).
  eapply while_true_accepted; [done|lia].
Qed.

(** A Number that is finite and not zero, divided by itself, is 1. *)
Lemma div_self (x : float) :
  is_finite x = true → is_zero x = false → (x / x)%float = 1%float.
Proof.
  unfold is_finite, is_nan, is_infinity, is_zero.
  rewrite !FloatAxioms.eqb_spec, FloatAxioms.abs_spec. intros Hfinite Hzero.
  apply Prim2SF_inj. rewrite FloatAxioms.div_spec.
  change (Prim2SF 1%float) with (S754_finite false 4503599627370496 (-52)).
  change (Prim2SF infinity) with (S754_infinity false) in Hfinite.
  change (Prim2SF zero) with (S754_zero false) in Hzero.
  destruct (Prim2SF x) as [s|s| |s m e]; try (by destruct s); try done.
  unfold SF64div, SFdiv, SFdiv_core_binary.
  rewrite Z.sub_diag, Z.sub_diag.
  change (Z.min (fexp prec emax 0) 0) with (-53).
  change (0 - -53) with 53.
  destruct (Z.div_eucl (Z.shiftl (Z.pos m) 53) (Z.pos m)) as [q r] eqn:Hdiv.
  assert (Hq : q = 9007199254740992 ∧ r = 0).
  { pose proof (Z.div_mul 9007199254740992 (Z.pos m)) as Hd.
    pose proof (Z.mod_mul 9007199254740992 (Z.pos m)) as Hm.
    unfold Z.div, Z.modulo in Hd, Hm.
    rewrite Z.shiftl_mul_pow2 in Hdiv by done.
    rewrite (Z.mul_comm (Z.pos m)) in Hdiv.
    change (2 ^ 53) with 9007199254740992 in Hdiv.
    rewrite Hdiv in Hd, Hm. split; [apply Hd|apply Hm]; done. }
  destruct Hq as [-> ->].
  assert (Hloc : new_location (Z.pos m) 0 = loc_Exact).
  { unfold new_location. by destruct (Z.even (Z.pos m)). }
  rewrite Hloc. by destruct s.
Qed.

(** The loop returns [d * v] for a [v] that passed the test [v <= 0]. *)
Lemma while_true_not_negative fuel : ∀ d c n g n',
  not_negative d →
  while_true log cos random fuel d c n = Some (g, n') →
  not_negative g.
Proof.
  induction fuel as [|fuel IH]; intros d c n g n' Hd; [done|].
  rewrite while_true_turn. unfold turn.
  destruct (randn log cos random n) as [x n1].
  destruct (1 + c * x <=? 0)%float eqn:Hv; [by apply IH|].
  apply above_zero_not_negative in Hv.
  destruct (_ || _); [|by apply IH].
  intros [= <- <-]. by repeat apply mul_not_negative.
Qed.

Lemma sampleGamma_not_negative fuel shape n g n' :
  (1 <=? shape)%float = true →
  sampleGamma log cos pow random fuel shape n = Some (g, n') →
  not_negative g.
Proof.
  intros Hshape. destruct fuel as [|fuel]; [done|].
  rewrite (sampleGamma_loop _ _ _ Hshape).
  apply while_true_not_negative. by apply sub_third_not_negative.
Qed.

(** C9, amended.  For [alpha] and [beta] of at least 1 and any stream of
    draws, [sampleBeta] returns a draw exactly when each of its two Gamma
    loops reaches a turn whose draws pass one of the two acceptance tests;
    the draw is then the quotient [gammaA / (gammaA + gammaB)] of the two
    accepted values in binary64 arithmetic, and it is the same however long
    the loops are allowed to run.  A returned draw is never below 0 and
    never above 1, whatever [Math.log] and [Math.cos] return: it lies in the
    closed interval from 0 to 1 or is a NaN.  The quotient is rounded: it is
    exactly 1 when [gammaB] is absorbed in the sum with a [gammaA] that is
    finite and not zero, so the draw is not always strictly inside (0,1).
    Nothing in the sampler throws: a loop that never accepts keeps
    drawing. *)
Theorem sampleBeta_returns_quotient alpha beta n :
  (1 <=? alpha)%float = true → (1 <=? beta)%float = true →
  let dA := (alpha - 1 / 3)%float in
  let cA := (1 / sqrt (9 * dA))%float in
  let dB := (beta - 1 / 3)%float in
  let cB := (1 / sqrt (9 * dB))%float in
  (∀ r n',
     (∃ fuel, sampleBeta log cos pow random fuel alpha beta n = Some (r, n'))
     ↔
     (∃ kA gammaA m kB gammaB,
        accepted log cos random dA cA n kA = Some (gammaA, m) ∧
        accepted log cos random dB cB m kB = Some (gammaB, n') ∧
        r = (gammaA / (gammaA + gammaB))%float)) ∧
  (∀ fuel fuel' r n', (fuel ≤ fuel')%nat →
     sampleBeta log cos pow random fuel alpha beta n = Some (r, n') →
     sampleBeta log cos pow random fuel' alpha beta n = Some (r, n')) ∧
  (∀ fuel r n',
     sampleBeta log cos pow random fuel alpha beta n = Some (r, n') →
     ∃ gammaA gammaB,
       r = (gammaA / (gammaA + gammaB))%float ∧
       (r <? 0)%float = false ∧ (1 <? r)%float = false ∧
       ((gammaA + gammaB)%float = gammaA → is_finite gammaA = true →
        is_zero gammaA = false → r = 1%float)).
Proof.
  intros Halpha Hbeta dA cA dB cB. split_and!.
  - intros r n'. split.
    + intros [fuel Hrun]. unfold sampleBeta in Hrun.
      destruct (sampleGamma _ _ _ _ fuel alpha n) as [[gammaA m]|] eqn:HA;
        [|done].
      destruct (sampleGamma _ _ _ _ fuel beta m) as [[gammaB m']|] eqn:HB;
        [|done].
      injection Hrun as <- <-.
      destruct (proj1 (sampleGamma_accepted alpha n gammaA m Halpha))
        as [kA HkA]; [eauto|].
      destruct (proj1 (sampleGamma_accepted beta m gammaB m' Hbeta))
        as [kB HkB]; [eauto|].
      by exists kA, gammaA, m, kB, gammaB.
    + intros (kA & gammaA & m & kB & gammaB & HkA & HkB & ->).
      destruct (proj2 (sampleGamma_accepted alpha n gammaA m Halpha))
        as [fA HA]; [eauto|].
      destruct (proj2 (sampleGamma_accepted beta m gammaB n' Hbeta))
        as [fB HB]; [eauto|].
      exists (fA + fB)%nat. unfold sampleBeta.
      rewrite (sampleGamma_fuel fA (fA + fB) _ _ _ Halpha ltac:(lia) HA).
      by rewrite (sampleGamma_fuel fB (fA + fB) _ _ _ Hbeta ltac:(lia) HB).
  - intros fuel fuel' r n' Hle. unfold sampleBeta.
    destruct (sampleGamma _ _ _ _ fuel alpha n) as [[gammaA m]|] eqn:HA;
      [|done].
    destruct (sampleGamma _ _ _ _ fuel beta m) as [[gammaB m']|] eqn:HB;
      [|done].
    intros [= <- <-].
    rewrite (sampleGamma_fuel _ _ _ _ _ Halpha Hle HA).
    by rewrite (sampleGamma_fuel _ _ _ _ _ Hbeta Hle HB).
  - intros fuel r n'. unfold sampleBeta.
    destruct (sampleGamma _ _ _ _ fuel alpha n) as [[gammaA m]|] eqn:HA;
      [|done].
    destruct (sampleGamma _ _ _ _ fuel beta m) as [[gammaB m']|] eqn:HB;
      [|done].
    intros [= <- <-]. exists gammaA, gammaB.
    apply (sampleGamma_not_negative _ _ _ _ _ Halpha) in HA.
    apply (sampleGamma_not_negative _ _ _ _ _ Hbeta) in HB.
    destruct (quotient_range gammaA gammaB HA HB) as [Hlow Hhigh].
    split_and!; [done..|].
    intros -> Hfinite Hzero. by apply div_self.
Qed.

End Sampling.

Section Streams.

Import PosteriorSampler.

Variable log cos : float → float.
Variable pow : float → float → float.

Lemma tape_nil n : tape [] n = 0%float.
Proof. unfold tape. by destruct n. Qed.

(** On a generator that gives only [+0], every turn of the loop goes back to
    the draw: [x] is [Infinity], the right side of the first test is
    [-Infinity] and the right side of the second is a NaN. *)
Lemma turn_zeros n :
  special_values log cos →
  turn log cos (tape []) (1 - 1 / 3)%float
    (1 / sqrt (9 * (1 - 1 / 3)))%float n = (None, S (S (S n))).
Proof.
  intros (Hlog0 & Hloginf & Hcos0). unfold turn, randn.
  rewrite !tape_nil.
  change (2 * PI * 0)%float with 0%float. rewrite Hlog0, Hcos0.
  change (sqrt (-2 * neg_infinity) * 1)%float with infinity.
  cbv beta iota zeta.
  change (1 + 1 / sqrt (9 * (1 - 1 / 3)) * infinity)%float with infinity.
  change (infinity <=? 0)%float with false. cbv iota.
  change (infinity * infinity * infinity)%float with infinity.
  rewrite Hloginf. reflexivity.
Qed.

Lemma while_true_zeros fuel : ∀ n,
  special_values log cos →
  while_true log cos (tape []) fuel (1 - 1 / 3)%float
    (1 / sqrt (9 * (1 - 1 / 3)))%float n = None.
Proof.
  induction fuel as [|fuel IH]; intros n Hspecial; [done|].
  rewrite while_true_turn, (turn_zeros n Hspecial). by apply IH.
Qed.

Lemma sampleBeta_zeros fuel n :
  special_values log cos →
  sampleBeta log cos pow (tape []) fuel 1 1 n = None.
Proof.
  intros Hspecial. unfold sampleBeta. destruct fuel as [|fuel]; [done|].
  rewrite sampleGamma_loop by reflexivity.
  by rewrite while_true_zeros.
Qed.

(** The draws of Beta(1, 1) from a generator that gives 0.5, 0, 0, then
    0x1.97dc5fe7c7240p-5 (448447734335268 / 2^53), 0.5, 0: the first Gamma
    value is about 2.16, the second about 6.3e-18 and is absorbed in their
    sum. *)
Lemma sampleBeta_rounds_to_one_any :
  log 0%float = neg_infinity →
  log 0.5%float = (-0x1.62e42fefa39efp-1)%float →
  log 0x1.97dc5fe7c7240p-5%float = (-0x1.7fff9593c1536p+1)%float →
  log 0x1.5cc3aba4a3bf9p-57%float = (-0x1.3999f2e1d131ap+5)%float →
  cos 0%float = 1%float →
  cos PI = (-1)%float →
  sampleBeta log cos pow
    (tape [0.5; 0; 0; 0x1.97dc5fe7c7240p-5; 0.5; 0]%float) 2 1 1 0
  = Some (1%float, 6%nat).
Proof.
  intros Hlog0 Hlog1 Hlog2 Hlog3 Hcos0 Hcos1.
  unfold sampleBeta.
  rewrite sampleGamma_loop by reflexivity.
  rewrite while_true_turn. unfold turn, randn, tape. cbn [nth].
  change (2 * PI * 0)%float with 0%float. rewrite Hlog1, Hcos0.
  vm_compute. rewrite Hlog2. unfold PI in Hcos1. rewrite Hcos1.
  vm_compute. rewrite Hlog0, Hlog3. reflexivity.
Qed.


End Streams.

(** The values assumed of the engine are those of one engine at least. *)
Example sampleBeta_rounds_to_one_example :
  PosteriorSampler.sampleBeta PosteriorSampler.example_log
    PosteriorSampler.example_cos (λ _ _, nan)
    (PosteriorSampler.tape [0.5; 0; 0; 0x1.97dc5fe7c7240p-5; 0.5; 0]%float)
    2 1 1 0
  = Some (1%float, 6%nat).
Proof. by apply sampleBeta_rounds_to_one_any. Qed.

(** C9 as stated fails: whatever [Math.log], [Math.cos] and [Math.pow] are
    beyond the special values that ECMAScript fixes, it is not so that for
    every stream of uniform draws and all [alpha], [beta] of at least 1 the
    sampler returns a draw strictly inside (0,1).  On the stream of zeros a
    draw of Beta(1, 1) is never returned. *)
Lemma sampleBeta_no_draw_on_zeros :
  ¬ ∃ (log cos : float → float) (pow : float → float → float),
      PosteriorSampler.special_values log cos ∧
      ∀ random, PosteriorSampler.uniform random →
      ∀ alpha beta,
        (1 <=? alpha)%float = true → (1 <=? beta)%float = true →
        ∃ fuel r n,
          PosteriorSampler.sampleBeta log cos pow random fuel alpha beta 0
          = Some (r, n) ∧
          (0 <? r)%float = true ∧ (r <? 1)%float = true.
Proof.
  intros (log & cos & pow & Hspecial & Hclaim).
  destruct (Hclaim (PosteriorSampler.tape [])) with (alpha := 1%float)
    (beta := 1%float) as (fuel & r & n & Hdraw & _); [|done..|].
  - intros n. by rewrite tape_nil.
  - by rewrite (sampleBeta_zeros log cos pow fuel 0%nat Hspecial) in Hdraw.
Qed.

Lemma sampleBeta_returns_quotient_witness :
  ∃ fuel,
    PosteriorSampler.sampleBeta PosteriorSampler.example_log
      PosteriorSampler.example_cos (λ _ _, nan)
      (PosteriorSampler.tape [0.5; 0; 0; 0.5; 0; 0]%float) fuel 1 1 0
    = Some (0.5%float, 6%nat).
Proof.
  destruct (sampleBeta_returns_quotient PosteriorSampler.example_log
              PosteriorSampler.example_cos (λ _ _, nan)
              (PosteriorSampler.tape [0.5; 0; 0; 0.5; 0; 0]%float)
              1%float 1%float 0%nat eq_refl eq_refl) as (Hreturns & _ & _).
  apply Hreturns.
  exists 0%nat, 0x1.15030ec4177e9p+1%float, 3%nat, 0%nat,
    0x1.15030ec4177e9p+1%float.
  split_and!; reflexivity.
Defined.
